(** * Resumable multi-signer batch minting: a shallow embedding

    The development follows two minting scripts of the repository:
    the multi-signer engine (the script with [getNextAvailableSigner],
    [handleSignerFailure], [getFreshNonce], [mintSingleTokenOptimized],
    [processBatchOptimized] and [main]) and the single-wallet script
    [mint_batch_200k_300k.js] ([getNextNonce], [resetNonceSequence],
    [classifyError], [mintSingleToken], [main]).

    JavaScript values are embedded as follows: integers as [Z], strings as
    [string], objects used as dictionaries as [gmap], arrays as [list],
    absent properties as [None].  [Date.now()] and every answer of the
    RPC provider are inputs of the step functions: the chain is not part
    of the program. *)

From Stdlib Require Import ZArith Lia Bool Ascii String List Sorted DecimalString.
From stdpp Require Import gmap strings list fin_maps sorting.

Local Open Scope string_scope.
Local Open Scope list_scope.
Local Open Scope Z_scope.

(** ** JavaScript strings and values *)

Module JsString.

(** A JavaScript string is represented by the bytes of its UTF-8 text.
    On a byte of the ASCII range [toLowerCase] moves the letters [A]..[Z]
    (codes 65..90) to [a]..[z] and leaves every other code. *)
Definition lowerAscii (c : ascii) : ascii :=
  let n := nat_of_ascii c in
  if (65 <=? n)%nat && (n <=? 90)%nat then ascii_of_nat (n + 32) else c.

Definition isByte (code : nat) (c : ascii) : bool := (nat_of_ascii c =? code)%nat.

(** [String.prototype.toLowerCase].  Outside ASCII, two characters have a
    lower case that contains an ASCII letter, and they are mapped as
    JavaScript maps them: U+0130, capital I with dot above (bytes 196 176),
    becomes [i] followed by U+0307 (bytes 204 135), and U+212A, the Kelvin
    sign (bytes 226 132 170), becomes [k].  Every other character outside
    ASCII is left as it is: JavaScript maps some of them to other
    characters outside ASCII, which changes no run of ASCII bytes of the
    text, and so the result of no [includes] on an ASCII text. *)
Fixpoint toLowerCase (s : string) : string :=
  match s with
  | EmptyString => EmptyString
  | String c s1 =>
      match s1 with
      | EmptyString => String (lowerAscii c) EmptyString
      | String c1 s2 =>
          if isByte 196 c && isByte 176 c1 then
            String "i" (String (ascii_of_nat 204) (String (ascii_of_nat 135) (toLowerCase s2)))
          else
            match s2 with
            | EmptyString => String (lowerAscii c) (toLowerCase s1)
            | String c2 s3 =>
                if isByte 226 c && isByte 132 c1 && isByte 170 c2
                then String "k" (toLowerCase s3)
                else String (lowerAscii c) (toLowerCase s1)
            end
      end
  end.

(** [s.includes(sub)]: [sub] occurs in [s] at some position. *)
Fixpoint includes (s sub : string) : bool :=
  if String.prefix sub s then true
  else match s with
       | EmptyString => false
       | String _ s' => includes s' sub
       end.

(** The declarative reading of [includes]. *)
Definition occurs_in (sub s : string) : Prop :=
  exists a b : string, s = (a ++ sub ++ b)%string.

(** [n.toString()] for an integer. *)
Definition Z_to_string (x : Z) : string := NilEmpty.string_of_int (Z.to_int x).

End JsString.

Module Js.

(** The values a property of a log record holds.  A property that is
    absent ([undefined]) is a [None] of the lookup. *)
Inductive JsValue :=
| JsNull
| JsNaN
| JsNum (z : Z)
| JsStr (s : string)
| JsBool (b : bool).

#[global] Instance JsValue_eq_dec : EqDecision JsValue.
Proof. solve_decision. Defined.

(** A plain object: property name to value. *)
Abbreviation JsObject := (gmap string JsValue).

(** [ToBoolean]. *)
Definition truthy (v : option JsValue) : bool :=
  match v with
  | None | Some JsNull | Some JsNaN => false
  | Some (JsNum z) => negb (z =? 0)%Z
  | Some (JsStr s) => negb (String.eqb s "")
  | Some (JsBool b) => b
  end.

(** [x++] stores [ToNumber(x) + 1]: [undefined] and [NaN] give [NaN],
    [null] and [false] count as 0, [true] as 1.  A string operand is
    outside the model (the scripts store numbers) and gives [NaN]. *)
Definition increment (v : option JsValue) : JsValue :=
  match v with
  | None | Some JsNaN | Some (JsStr _) => JsNaN
  | Some JsNull => JsNum 1
  | Some (JsNum z) => JsNum (z + 1)
  | Some (JsBool b) => JsNum (if b then 2 else 1)
  end.

(** [v === 'text']. *)
Definition isStr (v : option JsValue) (text : string) : bool :=
  match v with
  | Some (JsStr s) => String.eqb s text
  | _ => false
  end.

End Js.

(** ** Error classification *)

Module Classify.
Import JsString.

(** The values [classifyError] returns, over both scripts. *)
Inductive ErrorType :=
| ALREADY_KNOWN
| NONCE_ERROR
| NETWORK_ERROR
| RPC_ERROR
| INSUFFICIENT_FUNDS
| REPLACEMENT_UNDERPRICED
| UNKNOWN_ERROR.

#[global] Instance ErrorType_eq_dec : EqDecision ErrorType.
Proof. solve_decision. Defined.

(** The string the script returns for each value. *)
Definition ErrorType_name (e : ErrorType) : string :=
  match e with
  | ALREADY_KNOWN => "ALREADY_KNOWN"
  | NONCE_ERROR => "NONCE_ERROR"
  | NETWORK_ERROR => "NETWORK_ERROR"
  | RPC_ERROR => "RPC_ERROR"
  | INSUFFICIENT_FUNDS => "INSUFFICIENT_FUNDS"
  | REPLACEMENT_UNDERPRICED => "REPLACEMENT_UNDERPRICED"
  | UNKNOWN_ERROR => "UNKNOWN_ERROR"
  end.

(** The body of [classifyError] of the multi-signer script, after
    [const message = error.message.toLowerCase()]. *)
Definition classifyLowered (message : string) : ErrorType :=
  if includes message "already known" || includes message "transaction already exists"
  then ALREADY_KNOWN
  else if includes message "nonce"
          && (includes message "too low" || includes message "already been used")
  then NONCE_ERROR
  else if includes message "timeout" || includes message "econnreset"
          || includes message "network"
  then NETWORK_ERROR
  else if includes message "-32000" then RPC_ERROR
  else if includes message "insufficient funds" then INSUFFICIENT_FUNDS
  else UNKNOWN_ERROR.

Definition classifyError (errorMessage : string) : ErrorType :=
  classifyLowered (toLowerCase errorMessage).

(** [classifyError] of [mint_batch_200k_300k.js]: the same first three
    tests, then [replacement transaction underpriced]. *)
Definition classifyLowered200k (message : string) : ErrorType :=
  if includes message "already known" || includes message "transaction already exists"
  then ALREADY_KNOWN
  else if includes message "nonce"
          && (includes message "too low" || includes message "already been used")
  then NONCE_ERROR
  else if includes message "timeout" || includes message "econnreset"
          || includes message "network"
  then NETWORK_ERROR
  else if includes message "replacement transaction underpriced"
  then REPLACEMENT_UNDERPRICED
  else UNKNOWN_ERROR.

Definition classifyError200k (errorMessage : string) : ErrorType :=
  classifyLowered200k (toLowerCase errorMessage).

(** The tests of the two classifiers, read as occurrences. *)
Definition alreadyKnownText (m : string) : Prop :=
  occurs_in "already known" m \/ occurs_in "transaction already exists" m.

Definition nonceText (m : string) : Prop :=
  occurs_in "nonce" m /\ (occurs_in "too low" m \/ occurs_in "already been used" m).

Definition networkText (m : string) : Prop :=
  occurs_in "timeout" m \/ occurs_in "econnreset" m \/ occurs_in "network" m.

End Classify.

(** ** The data of the multi-signer script *)

Module Model.
Import Js.

(** The [CONFIG] object: the constants the engine reads. *)
Record Config := {
  SIGNER_KEYS : list string;
  RPC_ENDPOINTS : list string;
  START_TOKEN_ID : Z;
  END_TOKEN_ID : Z;
  MINT_RATE_LIMIT : nat;
  BATCH_SIZE : nat;
  RETRY_ATTEMPTS : nat;
  SIGNER_BACKOFF_THRESHOLD : Z;
  SIGNER_BACKOFF_DURATION : Z;
  MINT_LOG_PATH : string
}.

(** [mintLog.summary]. *)
Record Summary := {
  total : Z;
  successful : Z;
  failed : Z;
  pending : Z
}.

(** One entry of [mintLog.signerStats]. *)
Record SignerStat := {
  address : string;
  minted : Z;
  statFailed : Z;   (* the property [failed] *)
  backedOff : Z
}.

(** The global [mintLog]: [tokens] maps a token id to its record, a plain
    object with the properties [status], [attempts], [txHash], ...  The
    constant properties [batch] and [signers] are left out. *)
Record MintLog := {
  tokens : gmap Z JsObject;
  summary : Summary;
  signerStats : gmap nat SignerStat;
  completedAt : option Z;
  pausedAt : option Z
}.

(** One entry of [signerStates]. *)
Record SignerState := {
  consecutiveFailures : Z;
  isBackedOff : bool;
  backoffUntil : Z;
  totalMinted : Z;
  totalFailed : Z;
  lastUsed : Z
}.

(** The module-level state: [mintLog], [providers], [signers] (a wallet is
    represented by its address) and [signerStates], whose keys are the
    indices [0 .. signers.length - 1]. *)
Record World := {
  mintLog : MintLog;
  providers : list string;
  signers : list string;
  signerStates : list SignerState
}.

Definition set_mintLog (w : World) (l : MintLog) : World :=
  {| mintLog := l; providers := providers w; signers := signers w;
     signerStates := signerStates w |}.

Definition set_signerStates (w : World) (s : list SignerState) : World :=
  {| mintLog := mintLog w; providers := providers w; signers := signers w;
     signerStates := s |}.

Definition set_tokens (l : MintLog) (t : gmap Z JsObject) : MintLog :=
  {| tokens := t; summary := summary l; signerStats := signerStats l;
     completedAt := completedAt l; pausedAt := pausedAt l |}.

Definition set_summary (l : MintLog) (s : Summary) : MintLog :=
  {| tokens := tokens l; summary := s; signerStats := signerStats l;
     completedAt := completedAt l; pausedAt := pausedAt l |}.

Definition set_signerStats (l : MintLog) (s : gmap nat SignerStat) : MintLog :=
  {| tokens := tokens l; summary := summary l; signerStats := s;
     completedAt := completedAt l; pausedAt := pausedAt l |}.

(** [mintLog.tokens[tokenId]] and its [status]. *)
Definition token (w : World) (tokenId : Z) : option JsObject :=
  tokens (mintLog w) !! tokenId.

Definition status (w : World) (tokenId : Z) : option JsValue :=
  r ← token w tokenId; r !! "status".

(** [mintLog.tokens[tokenId]?.[name]]. *)
Definition property (w : World) (tokenId : Z) (name : string) : option JsValue :=
  r ← token w tokenId; r !! name.

Definition set_token (w : World) (tokenId : Z) (r : JsObject) : World :=
  set_mintLog w (set_tokens (mintLog w) (<[tokenId := r]> (tokens (mintLog w)))).

(** [mintLog.summary.successful++; mintLog.summary.pending--]. *)
Definition countSuccess (w : World) : World :=
  let s := summary (mintLog w) in
  set_mintLog w (set_summary (mintLog w)
    {| total := total s; successful := successful s + 1; failed := failed s;
       pending := pending s - 1 |}).

(** [mintLog.summary.failed++; mintLog.summary.pending--]. *)
Definition countFailure (w : World) : World :=
  let s := summary (mintLog w) in
  set_mintLog w (set_summary (mintLog w)
    {| total := total s; successful := successful s; failed := failed s + 1;
       pending := pending s - 1 |}).

(** The initial value of the global [mintLog]. *)
Definition initialMintLog : MintLog :=
  {| tokens := ∅;
     summary := {| total := 100000; successful := 0; failed := 0; pending := 100000 |};
     signerStats := ∅; completedAt := None; pausedAt := None |}.

(** The constants of the script.  The signer keys come from the
    environment variables [SIGNER_KEY_0] .. [SIGNER_KEY_5], filtered for the
    ones that are set: they are a parameter here.  The second endpoint is
    written without its path and access token. *)
Definition CONFIG (keys : list string) : Config :=
  {| SIGNER_KEYS := keys;
     RPC_ENDPOINTS := ["https://subnets.avax.network/btic/mainnet/rpc";
                       "https://mainnet-btic-wd732.avax.network/ext/bc/rpc"];
     START_TOKEN_ID := 300001;
     END_TOKEN_ID := 400000;
     MINT_RATE_LIMIT := 10;
     BATCH_SIZE := 60;
     RETRY_ATTEMPTS := 5;
     SIGNER_BACKOFF_THRESHOLD := 3;
     SIGNER_BACKOFF_DURATION := 30000;
     MINT_LOG_PATH := "output/multi_signer_optimized_log.json" |}.

End Model.

(** ** The signer pool *)

Module SignerPool.
Import Js Model.

Section WithConfig.
Variable cfg : Config.

(** What [getNextAvailableSigner] returns: [signers[i]], the index [i]
    and [providers[i % providers.length]]. *)
Record SignerData := {
  signer : option string;
  index : nat;
  provider : option string
}.

(** The entry [initializeSignerStates] creates for a signer. *)
Definition freshSignerState (now : Z) : SignerState :=
  {| consecutiveFailures := 0; isBackedOff := false; backoffUntil := 0;
     totalMinted := 0; totalFailed := 0; lastUsed := now |}.

Definition freshSignerStat (addr : string) : SignerStat :=
  {| address := addr; minted := 0; statFailed := 0; backedOff := 0 |}.

(** [initializeSignerStates]: for every [i < signers.length] the keys [i]
    of [signerStates] and of [mintLog.signerStats] are (re)set. *)
Definition initializeSignerStates (now : Z) (w : World) : World :=
  let states := map (fun _ => freshSignerState now) (signers w)
                ++ drop (length (signers w)) (signerStates w) in
  let stats := foldr (fun ia m => <[fst ia := freshSignerStat (snd ia)]> m)
                     (signerStats (mintLog w))
                     (imap (fun i a => (i, a)) (signers w)) in
  set_signerStates (set_mintLog w (set_signerStats (mintLog w) stats)) states.

(** The first loop of [getNextAvailableSigner]: a signer in backoff whose
    [backoffUntil] lies strictly before [now] is reactivated. *)
Definition reactivate (now : Z) (s : SignerState) : SignerState :=
  if isBackedOff s && (backoffUntil s <? now)
  then {| consecutiveFailures := 0; isBackedOff := false;
          backoffUntil := backoffUntil s; totalMinted := totalMinted s;
          totalFailed := totalFailed s; lastUsed := lastUsed s |}
  else s.

Definition reactivateAll (now : Z) (n : nat) (states : list SignerState)
  : list SignerState :=
  map (reactivate now) (take n states) ++ drop n states.

(** [Object.keys(signerStates).filter(i => !signerStates[i].isBackedOff)],
    each key with its entry. *)
Definition activeSigners (states : list SignerState) : list (nat * SignerState) :=
  filter (fun p => isBackedOff (snd p) = false) (imap (fun i s => (i, s)) states).

(** [.sort((a, b) => signerStates[a].lastUsed - signerStates[b].lastUsed)]:
    a stable sort by [lastUsed]. *)
Fixpoint insertByLastUsed (x : nat * SignerState) (l : list (nat * SignerState))
  : list (nat * SignerState) :=
  match l with
  | [] => [x]
  | y :: l' =>
      if lastUsed (snd x) <=? lastUsed (snd y) then x :: y :: l'
      else y :: insertByLastUsed x l'
  end.

Definition sortByLastUsed (l : list (nat * SignerState)) : list (nat * SignerState) :=
  foldr insertByLastUsed [] l.

(** [...[0]]: the key the sorted array starts with, if any. *)
Definition oldestSignerIndex (states : list SignerState) : option nat :=
  fst <$> head (sortByLastUsed (activeSigners states)).

(** [while (attempts < signers.length)]: the body returns when
    [oldestSignerIndex] is defined and counts one attempt otherwise. *)
Fixpoint findLoop (remaining : nat) (oldest : option nat) : option nat :=
  match remaining with
  | O => None
  | S r => match oldest with
           | Some i => Some i
           | None => findLoop r oldest
           end
  end.

Definition touch (now : Z) (s : SignerState) : SignerState :=
  {| consecutiveFailures := consecutiveFailures s; isBackedOff := isBackedOff s;
     backoffUntil := backoffUntil s; totalMinted := totalMinted s;
     totalFailed := totalFailed s; lastUsed := now |}.

(** [getNextAvailableSigner], with [now = Date.now()]. *)
Definition getNextAvailableSigner (now : Z) (w : World) : option SignerData * World :=
  let states := reactivateAll now (length (signers w)) (signerStates w) in
  match findLoop (length (signers w)) (oldestSignerIndex states) with
  | Some i =>
      (Some {| signer := signers w !! i; index := i;
               provider := providers w !! (i mod length (providers w))%nat |},
       set_signerStates w (alter (touch now) i states))
  | None => (None, set_signerStates w states)
  end.

(** [handleSignerFailure(signerIndex, error)], with [now = Date.now()].
    [None]: the index has no entry and the call throws a [TypeError]. *)
Definition handleSignerFailure (now : Z) (signerIndex : nat) (w : World) : option World :=
  s ← signerStates w !! signerIndex;
  st ← signerStats (mintLog w) !! signerIndex;
  let failures := consecutiveFailures s + 1 in
  let backoff := SIGNER_BACKOFF_THRESHOLD cfg <=? failures in
  let s' := {| consecutiveFailures := failures;
               isBackedOff := if backoff then true else isBackedOff s;
               backoffUntil := if backoff then now + SIGNER_BACKOFF_DURATION cfg
                               else backoffUntil s;
               totalMinted := totalMinted s; totalFailed := totalFailed s + 1;
               lastUsed := lastUsed s |} in
  let st' := {| address := address st; minted := minted st;
                statFailed := statFailed st + 1;
                backedOff := if backoff then backedOff st + 1 else backedOff st |} in
  Some (set_signerStates
          (set_mintLog w (set_signerStats (mintLog w)
                            (<[signerIndex := st']> (signerStats (mintLog w)))))
          (<[signerIndex := s']> (signerStates w))).

(** [handleSignerSuccess(signerIndex)]. *)
Definition handleSignerSuccess (signerIndex : nat) (w : World) : option World :=
  s ← signerStates w !! signerIndex;
  st ← signerStats (mintLog w) !! signerIndex;
  let s' := {| consecutiveFailures := 0; isBackedOff := isBackedOff s;
               backoffUntil := backoffUntil s; totalMinted := totalMinted s + 1;
               totalFailed := totalFailed s; lastUsed := lastUsed s |} in
  let st' := {| address := address st; minted := minted st + 1;
                statFailed := statFailed st; backedOff := backedOff st |} in
  Some (set_signerStates
          (set_mintLog w (set_signerStats (mintLog w)
                            (<[signerIndex := st']> (signerStats (mintLog w)))))
          (<[signerIndex := s']> (signerStates w))).

(** A signer is selectable at [now]: its key passes the filter of
    [getNextAvailableSigner] after the reactivation loop. *)
Definition selectable (now : Z) (w : World) (i : nat) : Prop :=
  exists s, (i, s) ∈ activeSigners
                       (reactivateAll now (length (signers w)) (signerStates w)).

(** The signer [i] is in backoff at least until [until]. *)
Definition inBackoff (until : Z) (w : World) (i : nat) : Prop :=
  exists s, signerStates w !! i = Some s
            /\ isBackedOff s = true /\ until <= backoffUntil s.

(** The calls the engine makes on the pool, each with the clock reading
    it sees: [getNextAvailableSigner()], [handleSignerFailure(i, error)]
    and [handleSignerSuccess(i)]. *)
Inductive PoolOp :=
| Acquire (now : Z)
| Failure (now : Z) (signerIndex : nat)
| Success (signerIndex : nat).

(** One call on the pool: the world after it and, for [Acquire], the
    index returned.  A call that throws leaves the world as it is. *)
Definition poolStep (op : PoolOp) (w : World) : World * option nat :=
  match op with
  | Acquire now =>
      let '(r, w') := getNextAvailableSigner now w in (w', index <$> r)
  | Failure now i => (default w (handleSignerFailure now i w), None)
  | Success i => (default w (handleSignerSuccess i w), None)
  end.

(** The indices a sequence of calls acquires. *)
Fixpoint acquired (ops : list PoolOp) (w : World) : list nat :=
  match ops with
  | [] => []
  | op :: rest =>
      let '(w', r) := poolStep op w in
      match r with
      | Some i => i :: acquired rest w'
      | None => acquired rest w'
      end
  end.

(** A call made between [since] and [until] on the clock. *)
Definition during (since until : Z) (op : PoolOp) : Prop :=
  match op with
  | Acquire now | Failure now _ => since <= now <= until
  | Success _ => True
  end.

End WithConfig.
End SignerPool.

(** ** The submission engine: [mintSingleTokenOptimized] *)

Module Engine.
Import Js JsString Classify Model SignerPool.

(** The receipt [tx.wait()] resolves to. *)
Record Receipt := {
  hash : string;
  blockNumber : Z;
  gasUsed : Z
}.

(** What a provider answers to [getTransactionCount(address, 'latest')]
    at a given moment, by provider and address: a count, or the message of
    the error it throws. *)
Definition Chain := string -> string -> Z + string.

(** The operations the scripts perform against the chain. *)
Inductive ChainOp :=
| GetNetwork
| GetBalance (signerIndex : nat)
| GetTransactionCount (signerIndex : nat)
| EstimateGas (signerIndex : nat)
| SendTransaction (tokenId : Z) (signerIndex : nat) (nonce : Z).

(** One call [mintLimit(() => mintSingleTokenOptimized(tokenId))], between
    two suspension points.  [Queued]: waiting in the limiter.  [Entry n]:
    about to run the body with [retryCount = n] (after the sleep that
    precedes a recursive call).  [AwaitNonce]: suspended in
    [await getFreshNonce(...)].  [AwaitReceipt]: suspended in
    [await sendTransactionWithTimeout(...)].  [Returned b]: the promise
    resolved to [b].  [Thrown]: an exception left the [catch] block and the
    promise is rejected. *)
Inductive Task :=
| Queued
| Entry (retryCount : nat)
| AwaitNonce (retryCount : nat) (signerData : SignerData)
| AwaitReceipt (retryCount : nat) (signerData : SignerData) (nonce : Z)
| Returned (result : bool)
| Thrown.

(** What wakes a task: the limiter or a timer ([Resume]), the answer to
    [getTransactionCount] ([NonceAnswer]: the chain as the providers see
    it at that moment), or the settlement of [sendTransactionWithTimeout]
    ([TxAnswer]: a receipt or an error message).  Each carries the clock
    reading [Date.now()] of that moment. *)
Inductive Input :=
| Resume (now : Z)
| NonceAnswer (now : Z) (chain : Chain)
| TxAnswer (now : Z) (answer : Receipt + string).

Definition metadataUri : string :=
  "ipfs://QmRT8DUSsFLZrrhgyhcSwh8988xx1kKCuR5SLpDS2hWkDN".

(** [getFreshNonce(signerIndex)]: the count the signer's provider reports,
    or the error it (or the lookup of provider and signer) throws.  No
    state of the program is read besides [providers] and [signers], and
    none is written. *)
Definition getFreshNonce (chain : Chain) (w : World) (signerIndex : nat) : Z + string :=
  match providers w !! (signerIndex mod length (providers w))%nat with
  | None => inr "Cannot read properties of undefined (reading 'getTransactionCount')"
  | Some p =>
      match signers w !! signerIndex with
      | None => inr "Cannot read properties of undefined (reading 'address')"
      | Some a => chain p a
      end
  end.

(** A stored property used as an array index; [None] when [signerStates]
    has no such key (only numbers are stored by the engine). *)
Definition asIndex (v : JsValue) : option nat :=
  match v with
  | JsNum z => if 0 <=? z then Some (Z.to_nat z) else None
  | _ => None
  end.

(** [v || 0]. *)
Definition orZero (v : option JsValue) : JsValue :=
  match v with
  | Some x => if truthy v then x else JsNum 0
  | None => JsNum 0
  end.

Definition optStr (s : option string) : option JsValue := JsStr <$> s.

Section WithConfig.
Variable cfg : Config.

(** The record a first attempt creates. *)
Definition newRecord (tokenId now : Z) : JsObject :=
  <["tokenId" := JsNum tokenId]>
    (<["status" := JsStr "pending"]>
       (<["attempts" := JsNum 0]> (<["startedAt" := JsNum now]> ∅))).

(** The start of the [try] block, up to [await getFreshNonce(...)]. *)
Definition enter (w : World) (tokenId : Z) (retryCount : nat) (now : Z)
  : World * Task * list ChainOp :=
  match getNextAvailableSigner now w with
  | (None, w1) =>
      (* all signers backed off: sleep 5000 ms, then
         mintSingleTokenOptimized(tokenId, retryCount) *)
      (w1, Entry retryCount, [])
  | (Some signerData, w1) =>
      let r := match token w1 tokenId with
               | Some r => r
               | None => newRecord tokenId now
               end in
      let r := <["attempts" := increment (r !! "attempts")]> r in
      (set_token w1 tokenId r, AwaitNonce retryCount signerData,
       [GetTransactionCount (index signerData)])
  end.

(** The record after a confirmed transaction. *)
Definition completedRecord (r : JsObject) (receipt : Receipt) (signerData : SignerData)
    (nonce now : Z) : JsObject :=
  let r := <["status" := JsStr "completed"]> r in
  let r := <["metadataUri" := JsStr metadataUri]> r in
  let r := <["txHash" := JsStr (hash receipt)]> r in
  let r := <["blockNumber" := JsNum (blockNumber receipt)]> r in
  let r := <["gasUsed" := JsStr (Z_to_string (gasUsed receipt))]> r in
  let r := <["signerIndex" := JsNum (Z.of_nat (index signerData))]> r in
  let r := match signer signerData with
           | Some a => <["signerAddress" := JsStr a]> r
           | None => r
           end in
  let r := <["nonce" := JsNum nonce]> r in
  <["completedAt" := JsNum now]> r.

(** The record the [ALREADY_KNOWN] branch writes. *)
Definition alreadyKnownRecord (r : JsObject) (now : Z) : JsObject :=
  let r := <["status" := JsStr "completed"]> r in
  let r := <["metadataUri" := JsStr metadataUri]> r in
  let r := <["txHash" := JsStr "already_known"]> r in
  let r := <["completedAt" := JsNum now]> r in
  <["note" := JsStr "Transaction already known"]> r.

(** The record after the last retry. *)
Definition failedRecord (r : JsObject) (message : string) (errorType : ErrorType)
    (retryCount : nat) (now : Z) : JsObject :=
  let r := <["status" := JsStr "failed"]> r in
  let r := <["error" := JsStr message]> r in
  let r := <["errorType" := JsStr (ErrorType_name errorType)]> r in
  let r := <["failedAt" := JsNum now]> r in
  <["finalAttempt" := JsNum (Z.of_nat retryCount + 1)]> r.

(** The [catch] block, for an error with the given message.  The [await]
    inside the [ALREADY_KNOWN] branch suspends the task between the call
    of [handleSignerSuccess] and the assignment of the record; no other
    task writes this token's record, and the block is taken as one step. *)
Definition catchBlock (w : World) (tokenId : Z) (retryCount : nat)
    (message : string) (now : Z) : World * Task * list ChainOp :=
  let errorType := classifyError message in
  let stored := r ← token w tokenId; r !! "lastSignerIndex" in
  let lastSignerIndex := orZero stored in
  if decide (errorType = ALREADY_KNOWN) then
    match i ← asIndex lastSignerIndex; handleSignerSuccess i w with
    | None => (w, Thrown, [])
    | Some w1 =>
        let r := default ∅ (token w1 tokenId) in
        (countSuccess (set_token w1 tokenId (alreadyKnownRecord r now)),
         Returned true, [])
    end
  else
    let handled :=
      match stored with
      | Some v => i ← asIndex v; handleSignerFailure cfg now i w
      | None => Some w
      end in
    match handled with
    | None => (w, Thrown, [])
    | Some w1 =>
        match token w1 tokenId with
        | None => (w, Thrown, [])
        | Some r =>
            let r := <["lastSignerIndex" := lastSignerIndex]> r in
            let w2 := set_token w1 tokenId r in
            if (retryCount <? RETRY_ATTEMPTS cfg)%nat then
              (* sleep calculateBackoffDelay(retryCount), then
                 mintSingleTokenOptimized(tokenId, retryCount + 1) *)
              (w2, Entry (S retryCount), [])
            else
              (countFailure
                 (set_token w2 tokenId (failedRecord r message errorType retryCount now)),
               Returned false, [])
        end
    end.

(** The rest of the [try] block once the receipt is there. *)
Definition onReceipt (w : World) (tokenId : Z) (retryCount : nat)
    (signerData : SignerData) (nonce : Z) (receipt : Receipt) (now : Z)
  : World * Task * list ChainOp :=
  match handleSignerSuccess (index signerData) w with
  | None =>
      catchBlock w tokenId retryCount
        "Cannot set properties of undefined (setting 'consecutiveFailures')" now
  | Some w1 =>
      let r := default ∅ (token w1 tokenId) in
      (countSuccess
         (set_token w1 tokenId (completedRecord r receipt signerData nonce now)),
       Returned true, [])
  end.

(** One step of a task on an input; [None] when the input is not what the
    task waits for. *)
Definition step (w : World) (tokenId : Z) (t : Task) (i : Input)
  : option (World * Task * list ChainOp) :=
  match t, i with
  | Queued, Resume now => Some (enter w tokenId 0 now)
  | Entry retryCount, Resume now => Some (enter w tokenId retryCount now)
  | AwaitNonce retryCount signerData, NonceAnswer now chain =>
      match getFreshNonce chain w (index signerData) with
      | inl nonce =>
          Some (w, AwaitReceipt retryCount signerData nonce,
                [EstimateGas (index signerData);
                 SendTransaction tokenId (index signerData) nonce])
      | inr message => Some (catchBlock w tokenId retryCount message now)
      end
  | AwaitReceipt retryCount signerData nonce, TxAnswer now (inl receipt) =>
      Some (onReceipt w tokenId retryCount signerData nonce receipt now)
  | AwaitReceipt retryCount signerData nonce, TxAnswer now (inr message) =>
      Some (catchBlock w tokenId retryCount message now)
  | _, _ => None
  end.

(** A task is settled once its promise is resolved or rejected. *)
Definition settled (t : Task) : bool :=
  match t with
  | Returned _ | Thrown => true
  | _ => false
  end.

(** One call run alone on a list of inputs: the world, the task and the
    chain operations issued.  An input the task does not wait for is
    skipped. *)
Fixpoint run (w : World) (tokenId : Z) (t : Task) (inputs : list Input)
  : World * Task * list ChainOp :=
  match inputs with
  | [] => (w, t, [])
  | i :: rest =>
      match step w tokenId t i with
      | None => run w tokenId t rest
      | Some (w', t', ops) =>
          let '(w'', t'', ops') := run w' tokenId t' rest in
          (w'', t'', ops ++ ops')
      end
  end.

(** A step that only waits: the call found every signer backed off and
    will call itself again with the same [retryCount]. *)
Definition waits (t t' : Task) : bool :=
  match t, t' with
  | Queued, Entry 0 => true
  | Entry a, Entry b => (a =? b)%nat
  | _, _ => false
  end.

(** The steps of a run other than waits. *)
Fixpoint progressSteps (w : World) (tokenId : Z) (t : Task) (inputs : list Input) : nat :=
  match inputs with
  | [] => 0
  | i :: rest =>
      match step w tokenId t i with
      | None => progressSteps w tokenId t rest
      | Some (w', t', _) =>
          ((if waits t t' then 0 else 1) + progressSteps w' tokenId t' rest)%nat
      end
  end.

(** The steps other than waits a call has left at most. *)
Definition work (t : Task) : nat :=
  match t with
  | Queued => 3 * (RETRY_ATTEMPTS cfg) + 3
  | Entry retryCount => 3 * (RETRY_ATTEMPTS cfg - retryCount) + 3
  | AwaitNonce retryCount _ => 3 * (RETRY_ATTEMPTS cfg - retryCount) + 2
  | AwaitReceipt retryCount _ _ => 3 * (RETRY_ATTEMPTS cfg - retryCount) + 1
  | Returned _ | Thrown => 0
  end%nat.

(** The attempts (queries of the nonce) and the submissions a call has
    left at most. *)
Definition attemptsLeft (t : Task) : nat :=
  match t with
  | Queued => RETRY_ATTEMPTS cfg + 1
  | Entry retryCount => RETRY_ATTEMPTS cfg - retryCount + 1
  | AwaitNonce retryCount _ | AwaitReceipt retryCount _ _ => RETRY_ATTEMPTS cfg - retryCount
  | Returned _ | Thrown => 0
  end%nat.

Definition submissionsLeft (t : Task) : nat :=
  match t with
  | Queued => RETRY_ATTEMPTS cfg + 1
  | Entry retryCount | AwaitNonce retryCount _ => RETRY_ATTEMPTS cfg - retryCount + 1
  | AwaitReceipt retryCount _ _ => RETRY_ATTEMPTS cfg - retryCount
  | Returned _ | Thrown => 0
  end%nat.

End WithConfig.

Definition isAttempt (op : ChainOp) : bool :=
  match op with GetTransactionCount _ => true | _ => false end.

Definition isSubmission (op : ChainOp) : bool :=
  match op with SendTransaction _ _ _ => true | _ => false end.

(** The attempts and the submissions among the operations of a run. *)
Definition attemptsIn (ops : list ChainOp) : nat := length (List.filter isAttempt ops).

Definition submissionsIn (ops : list ChainOp) : nat := length (List.filter isSubmission ops).

(** The signer that [lastSignerIndex || 0] names for a token has its
    entries in [signerStates] and [mintLog.signerStats] (otherwise
    [handleSignerSuccess] throws). *)
Definition signerKnown (w : World) (tokenId : Z) : Prop :=
  exists i, asIndex (orZero (property w tokenId "lastSignerIndex")) = Some i
            /\ is_Some (signerStates w !! i)
            /\ is_Some (signerStats (mintLog w) !! i).

(** The signer that a stored [lastSignerIndex] names has its entries in
    [signerStates] and [mintLog.signerStats] (otherwise
    [handleSignerFailure] throws). *)
Definition storedSignerKnown (w : World) (tokenId : Z) : Prop :=
  forall v, property w tokenId "lastSignerIndex" = Some v ->
    exists i, asIndex v = Some i
              /\ is_Some (signerStates w !! i)
              /\ is_Some (signerStats (mintLog w) !! i).

(** What a step may do to the records: the record of the task's own token
    is rewritten or left alone, every other record is left alone. *)
Definition touchesOnly (tokenId : Z) (w w' : World) : Prop :=
  forall tokenId', tokenId' <> tokenId -> token w' tokenId' = token w tokenId'.

End Engine.

(** ** The durable log: what [fs.writeJson] and [fs.readJson] do *)

Module Snapshot.
Import Js Model.

(** What [JSON.parse] reads back of a value that [JSON.stringify] has
    written: [NaN] is written as [null]; every other value of a record
    comes back as it is. *)
Definition jsonValue (v : JsValue) : JsValue :=
  match v with
  | JsNaN => JsNull
  | _ => v
  end.

Definition jsonRecord (r : JsObject) : JsObject := jsonValue <$> r.

(** The log that the JSON text of [log] parses to. *)
Definition jsonLog (log : MintLog) : MintLog :=
  set_tokens log (jsonRecord <$> tokens log).

(** A log that holds no [NaN]. *)
Definition noNaN (log : MintLog) : Prop :=
  forall tokenId r name, tokens log !! tokenId = Some r -> r !! name <> Some JsNaN.

(** The content of a file of the log directory: the complete JSON text of
    a log, given by the log it parses to, or a text that stops before its
    end, [written] bytes of the JSON text of [log] (the file as an
    interrupted write leaves it; with [written = 0], an empty file). *)
Inductive FileContent :=
| Whole (log : MintLog)
| Torn (log : MintLog) (written : nat).

Abbreviation Disk := (gmap string FileContent).

(** The file operations of interest.  The scripts call [WriteJson] only;
    [Rename] is what a write through a temporary file would add. *)
Inductive FsOp :=
| WriteJson (path : string) (log : MintLog)
| Rename (source target : string).

(** An operation that runs to its end.  [fs.writeJson(path, obj)] is
    [fs.writeFile(path, JSON.stringify(obj))]: the file at [path] itself is
    opened for writing, truncated and filled with the JSON text. *)
Definition execOp (op : FsOp) (d : Disk) : Disk :=
  match op with
  | WriteJson path log => <[path := Whole (jsonLog log)]> d
  | Rename source target =>
      match d !! source with
      | Some c => <[target := c]> (delete source d)
      | None => d
      end
  end.

Definition execOps (ops : list FsOp) (d : Disk) : Disk :=
  foldl (fun d op => execOp op d) d ops.

(** The disk when the process stops while [op] runs: untouched, done, or,
    for a write in place, the target holding only what was written so
    far.  A rename is atomic. *)
Inductive crashDuring (d : Disk) : FsOp -> Disk -> Prop :=
| crash_before op : crashDuring d op d
| crash_after op : crashDuring d op (execOp op d)
| crash_torn path log written :
    crashDuring d (WriteJson path log) (<[path := Torn log written]> d).

(** The disk when the process stops somewhere in a sequence of operations. *)
Inductive crashIn (d : Disk) : list FsOp -> Disk -> Prop :=
| crash_here op ops d' : crashDuring d op d' -> crashIn d (op :: ops) d'
| crash_later op ops d' : crashIn (execOp op d) ops d' -> crashIn d (op :: ops) d'.

(** [loadExistingProgress] reading [path]: [Some None] when the file does
    not exist, [Some (Some log)] when [fs.readJson] parses it, [None] when
    [fs.readJson] throws on a text that is not complete. *)
Definition load (path : string) (d : Disk) : option (option MintLog) :=
  match d !! path with
  | None => Some None
  | Some (Whole log) => Some (Some log)
  | Some (Torn _ _) => None
  end.

(** The save at the end of [processBatchOptimized], of [main] and of the
    [SIGINT] handler: [await fs.writeJson(CONFIG.MINT_LOG_PATH, mintLog, ...)]. *)
Definition snapshot (cfg : Config) (log : MintLog) : list FsOp :=
  [WriteJson (MINT_LOG_PATH cfg) log].

(** The snapshot the specification describes: the log is written to a
    temporary location, which then replaces the log file. *)
Definition snapshot_spec (cfg : Config) (temporary : string) (log : MintLog) : list FsOp :=
  [WriteJson temporary log; Rename temporary (MINT_LOG_PATH cfg)].

(** What the specification asks of a snapshot: wherever the process
    stops, the next load finds the old log or the new one. *)
Definition crashSafe (cfg : Config) (ops : list FsOp) (log : MintLog) : Prop :=
  forall d d', crashIn d ops d' ->
    load (MINT_LOG_PATH cfg) d' = load (MINT_LOG_PATH cfg) d
    \/ load (MINT_LOG_PATH cfg) d' = Some (Some (jsonLog log)).

(** What a call of [fs.writeJson] meets.  [Written]: it runs to its end.
    [Refused]: it throws before the file is opened, with [ENOENT] when the
    directory of the path does not exist (of the scripts only
    [mint_batch_200k_300k.js] creates [output/]) or with [EACCES]; the disk
    stays as it is.  [CutShort n]: it throws after the file was opened and
    [n] bytes were written, as with [ENOSPC]. *)
Inductive FsAnswer :=
| Written
| Refused
| CutShort (written : nat).

(** [await fs.writeJson(path, log, ...)]: the disk after the call, and
    whether the call returned ([true]) or threw ([false]). *)
Definition writeJson (path : string) (log : MintLog) (a : FsAnswer) (d : Disk)
  : Disk * bool :=
  match a with
  | Written => (execOp (WriteJson path log) d, true)
  | Refused => (d, false)
  | CutShort written => (<[path := Torn log written]> d, false)
  end.

End Snapshot.

(** ** The batch scheduler: [main] and [processBatchOptimized] *)

Module Scheduler.
Import Js Model SignerPool Engine Snapshot.

(** The test of the loop that collects [pendingTokens]:
    [!mintLog.tokens[tokenId] || status === 'pending' || status === 'failed']. *)
Definition isPending (w : World) (tokenId : Z) : bool :=
  match token w tokenId with
  | None => true
  | Some r => isStr (r !! "status") "pending" || isStr (r !! "status") "failed"
  end.

(** Where [main] stands: in the batch loop, with the calls of the current
    batch and the pending tokens of the later batches; returned; or the
    process has exited with the given code. *)
Inductive Phase :=
| Batching (running : list (Z * Task)) (queue : list Z)
| Finished
| Exited (code : Z).

Record Sys := {
  world : World;
  disk : Disk;
  phase : Phase
}.

(** The state of the module when the script is loaded. *)
Definition initialWorld : World :=
  {| mintLog := initialMintLog; providers := []; signers := []; signerStates := [] |}.

(** What [initializeBlockchain] meets.  [WalletThrows]:
    [new ethers.Wallet(privateKey, provider)] throws on one of the keys (a
    text that is not a private key).  Otherwise the wallets are built, and
    [providers[0].getNetwork()] throws ([NetworkDown]) or answers
    ([NetworkUp]). *)
Inductive InitAnswer :=
| WalletThrows
| NetworkDown
| NetworkUp.

Section WithConfig.
Variable cfg : Config.

(** [loadExistingProgress]: [None] when [fs.readJson] throws. *)
Definition loadExistingProgress (d : Disk) (w : World) : option World :=
  match load (MINT_LOG_PATH cfg) d with
  | None => None
  | Some None => Some w
  | Some (Some log) => Some (set_mintLog w log)
  end.

(** The loop [for (tokenId = START_TOKEN_ID; tokenId <= END_TOKEN_ID; tokenId++)]
    of [main].  The world is returned with the list: the loop only reads. *)
Definition findPendingTokens (w : World) : list Z * World :=
  (filter (fun tokenId => isPending w tokenId = true)
          (seqZ (START_TOKEN_ID cfg) (END_TOKEN_ID cfg - START_TOKEN_ID cfg + 1)),
   w).

Definition pendingTokens (w : World) : list Z := fst (findPendingTokens w).

(** [initializeBlockchain]: the providers are created, then the signers
    (a key is represented by the address of its wallet); the signer states
    are initialised, and network and balances are queried for display; when
    the network query throws, the balances are skipped.  [None]: the
    function throws, because [new ethers.Wallet] does on a key; the
    providers are assigned by then. *)
Definition initializeBlockchain (now : Z) (init : InitAnswer) (w : World)
  : World * option (list ChainOp) :=
  let w0 := {| mintLog := mintLog w; providers := RPC_ENDPOINTS cfg;
               signers := signers w; signerStates := signerStates w |} in
  match init, SIGNER_KEYS cfg with
  | WalletThrows, _ :: _ => (w0, None)
  | _, _ =>
      let w1 := {| mintLog := mintLog w; providers := RPC_ENDPOINTS cfg;
                   signers := SIGNER_KEYS cfg; signerStates := signerStates w |} in
      let w2 := initializeSignerStates now w1 in
      (w2,
       Some match providers w2 with
            | [] => []
            | _ :: _ =>
                GetNetwork ::
                match init with
                | NetworkUp => map GetBalance (seq 0 (length (signers w2)))
                | _ => []
                end
            end)
  end.

(** The calls a batch starts: [batch.map(tokenId => mintLimit(...))]. *)
Definition startBatch (batch : list Z) : list (Z * Task) :=
  map (fun tokenId => (tokenId, Queued)) batch.

(** [main] up to the first batch.  An exception of
    [loadExistingProgress] or of [initializeBlockchain] is caught by the
    [catch] of [main], which ends the process with code 1. *)
Definition main (now : Z) (init : InitAnswer) (d : Disk) : Sys * list ChainOp :=
  match loadExistingProgress d initialWorld with
  | None => ({| world := initialWorld; disk := d; phase := Exited 1 |}, [])
  | Some w =>
      let '(pendingTokens, w) := findPendingTokens w in
      match pendingTokens with
      | [] => ({| world := w; disk := d; phase := Finished |}, [])
      | _ :: _ =>
          match initializeBlockchain now init w with
          | (w', None) => ({| world := w'; disk := d; phase := Exited 1 |}, [])
          | (w', Some ops) =>
              ({| world := w'; disk := d;
                  phase := Batching (startBatch (take (BATCH_SIZE cfg) pendingTokens))
                                    (drop (BATCH_SIZE cfg) pendingTokens) |}, ops)
          end
      end
  end.

(** The limiter [pLimit(MINT_RATE_LIMIT)]: calls start in order, and one
    starts only while fewer than [MINT_RATE_LIMIT] are under way. *)
Definition underWay (t : Task) : bool :=
  match t with
  | Queued | Returned _ | Thrown => false
  | _ => true
  end.

Definition isQueued (t : Task) : bool :=
  match t with Queued => true | _ => false end.

Definition mayRun (running : list (Z * Task)) (k : nat) (t : Task) : bool :=
  match t with
  | Queued =>
      (length (filter (fun p => underWay (snd p) = true) running) <? MINT_RATE_LIMIT cfg)%nat
      && forallb (fun p => negb (isQueued (snd p))) (take k running)
  | _ => true
  end.

Definition allReturned (running : list (Z * Task)) : bool :=
  forallb (fun p => match snd p with Returned _ => true | _ => false end) running.

Definition someThrown (running : list (Z * Task)) : bool :=
  existsb (fun p => match snd p with Thrown => true | _ => false end) running.

Definition set_completedAt (l : MintLog) (now : Z) : MintLog :=
  {| tokens := tokens l; summary := summary l; signerStats := signerStats l;
     completedAt := Some now; pausedAt := pausedAt l |}.

Definition set_pausedAt (l : MintLog) (now : Z) : MintLog :=
  {| tokens := tokens l; summary := summary l; signerStats := signerStats l;
     completedAt := completedAt l; pausedAt := Some now |}.

(** [await fs.writeJson(CONFIG.MINT_LOG_PATH, mintLog, { spaces: 2 })]. *)
Definition saveLog (a : FsAnswer) (w : World) (d : Disk) : Disk * bool :=
  writeJson (MINT_LOG_PATH cfg) (mintLog w) a d.

(** After [Promise.all] of a batch: the log is saved; then the next batch
    starts, or, after the last one, [mintLog.completedAt] is set, the log
    is saved again and [main] returns.  [a] and [a'] are what the two
    saves meet: a save that throws is caught by the [catch] of [main], which
    ends the process with code 1. *)
Definition afterBatch (now : Z) (a a' : FsAnswer) (s : Sys) (queue : list Z) : Sys :=
  let '(d, saved) := saveLog a (world s) (disk s) in
  if saved then
    match queue with
    | [] =>
        let w := set_mintLog (world s) (set_completedAt (mintLog (world s)) now) in
        let '(d', saved') := saveLog a' w d in
        {| world := w; disk := d'; phase := if saved' then Finished else Exited 1 |}
    | _ :: _ =>
        {| world := world s; disk := d;
           phase := Batching (startBatch (take (BATCH_SIZE cfg) queue))
                             (drop (BATCH_SIZE cfg) queue) |}
    end
  else {| world := world s; disk := d; phase := Exited 1 |}.

(** The [SIGINT] handler: [mintLog.pausedAt] is set, the log is saved and
    the process exits with code 0.  When the save throws, the promise of
    the handler is rejected and nothing handles the rejection: the process
    ends with code 1. *)
Definition onSigint (now : Z) (a : FsAnswer) (s : Sys) : Sys :=
  let w := set_mintLog (world s) (set_pausedAt (mintLog (world s)) now) in
  let '(d, saved) := saveLog a w (disk s) in
  {| world := w; disk := d; phase := Exited (if saved then 0 else 1) |}.

(** One step of the program, with the chain operations it issues: a call
    of the current batch moves (any interleaving the limiter allows); the
    batch ends; a rejected call makes [main] exit with code 1; the
    operator interrupts.  The last step is that of a Node.js before
    version 15, which only warns of the rejected promise of a handler
    whose save has thrown: [mintLog.pausedAt] is set and the program goes
    on. *)
Inductive sys_step : Sys -> list ChainOp -> Sys -> Prop :=
| step_task s running queue k tokenId t input w' t' ops :
    phase s = Batching running queue ->
    running !! k = Some (tokenId, t) ->
    someThrown running = false ->
    mayRun running k t = true ->
    step cfg (world s) tokenId t input = Some (w', t', ops) ->
    sys_step s ops
      {| world := w'; disk := disk s;
         phase := Batching (<[k := (tokenId, t')]> running) queue |}
| step_batch_done s running queue now a a' :
    phase s = Batching running queue ->
    allReturned running = true ->
    sys_step s [] (afterBatch now a a' s queue)
| step_rejected s running queue :
    phase s = Batching running queue ->
    someThrown running = true ->
    sys_step s [] {| world := world s; disk := disk s; phase := Exited 1 |}
| step_sigint s running queue now a :
    phase s = Batching running queue ->
    sys_step s [] (onSigint now a s)
| step_sigint_warned s running queue now a d :
    phase s = Batching running queue ->
    saveLog a (set_mintLog (world s) (set_pausedAt (mintLog (world s)) now)) (disk s)
    = (d, false) ->
    sys_step s []
      {| world := set_mintLog (world s) (set_pausedAt (mintLog (world s)) now);
         disk := d; phase := phase s |}.

(** A run: steps in sequence, with all the chain operations issued. *)
Inductive sys_steps : Sys -> list ChainOp -> Sys -> Prop :=
| steps_nil s : sys_steps s [] s
| steps_cons s1 ops1 s2 ops2 s3 :
    sys_step s1 ops1 s2 -> sys_steps s2 ops2 s3 -> sys_steps s1 (ops1 ++ ops2) s3.

(** The step of call number [k] of the current batch on an input, as a
    function: [None] when the limiter, the state of the batch or the input
    does not allow the step. *)
Definition taskStep (s : Sys) (k : nat) (input : Input) : option (Sys * list ChainOp) :=
  match phase s with
  | Batching running queue =>
      match running !! k with
      | Some (tokenId, t) =>
          if someThrown running then None
          else if mayRun running k t then
            match step cfg (world s) tokenId t input with
            | Some (w', t', ops) =>
                Some ({| world := w'; disk := disk s;
                         phase := Batching (<[k := (tokenId, t')]> running) queue |}, ops)
            | None => None
            end
          else None
      | None => None
      end
  | _ => None
  end.

(** A schedule: which call moves next, on which input. *)
Fixpoint drive (s : Sys) (schedule : list (nat * Input)) : option (Sys * list ChainOp) :=
  match schedule with
  | [] => Some (s, [])
  | (k, input) :: rest =>
      match taskStep s k input with
      | Some (s', ops) =>
          match drive s' rest with
          | Some (s'', ops') => Some (s'', ops ++ ops')
          | None => None
          end
      | None => None
      end
  end.

(** A run of the program from a disk: [main], then steps. *)
Definition runs (d : Disk) (ops : list ChainOp) (s : Sys) : Prop :=
  exists now init ops1 ops2,
    sys_steps (fst (main now init d)) ops2 s
    /\ ops1 = snd (main now init d) /\ ops = ops1 ++ ops2.

(** The record of a token says [completed]. *)
Definition completed (w : World) (tokenId : Z) : Prop :=
  status w tokenId = Some (JsStr "completed").

End WithConfig.

(** The records of the calls under way and of the tokens still queued:
    no token occurs twice, a call whose token is completed has settled, and
    no queued token is completed. *)
Definition invariant (s : Sys) : Prop :=
  match phase s with
  | Batching running queue =>
      NoDup ((fst <$> running) ++ queue)
      /\ (forall tokenId t, (tokenId, t) ∈ running ->
            completed (world s) tokenId -> settled t = true)
      /\ (forall tokenId, tokenId ∈ queue -> ~ completed (world s) tokenId)
  | _ => True
  end.

End Scheduler.

(** ** The single-wallet script [mint_batch_200k_300k.js] *)

Module Single.
Import Js JsString Classify.
Import Model (Config, Summary, START_TOKEN_ID, END_TOKEN_ID, RETRY_ATTEMPTS).

(** The globals [baseNonce] (initially [null]) and [nonceOffset]. *)
Record NonceState := {
  baseNonce : option Z;
  nonceOffset : Z
}.

(** [getNextNonce]: [baseNonce + nonceOffset], then [nonceOffset++].  A
    [null] base counts as 0 in the sum. *)
Definition getNextNonce (n : NonceState) : Z * NonceState :=
  (default 0 (baseNonce n) + nonceOffset n,
   {| baseNonce := baseNonce n; nonceOffset := nonceOffset n + 1 |}).

(** [resetNonceSequence], on the answer of
    [provider.getTransactionCount(wallet.address, 'pending')]: a count
    restarts the sequence, an error is logged and changes nothing. *)
Definition resetNonceSequence (answer : Z + string) (n : NonceState) : NonceState :=
  match answer with
  | inl count => {| baseNonce := Some count; nonceOffset := 0 |}
  | inr _ => n
  end.

(** The values of [n] successive calls of [getNextNonce]. *)
Fixpoint nextNonces (n : nat) (s : NonceState) : list Z :=
  match n with
  | O => []
  | S n' => fst (getNextNonce s) :: nextNonces n' (snd (getNextNonce s))
  end.

(** The state of the script: [mintLog.tokens], [mintLog.summary] and the
    nonce sequence. *)
Record World := {
  tokens : gmap Z JsObject;
  summary : Summary;
  nonces : NonceState
}.

(** The records [loadExistingProgress] creates when there is no log
    file: one per token of the range, with [tokenId] and [status] only. *)
Definition initialRecord (tokenId : Z) : JsObject :=
  <["tokenId" := JsStr (Z_to_string tokenId)]> (<["status" := JsStr "pending"]> ∅).

Definition initialTokens (cfg : Config) : gmap Z JsObject :=
  list_to_map (map (fun tokenId => (tokenId, initialRecord tokenId))
                   (seqZ (START_TOKEN_ID cfg) (END_TOKEN_ID cfg - START_TOKEN_ID cfg + 1))).

(** [pendingTokens] of [main]: the entries of [mintLog.tokens] whose
    status is [pending] or [failed], their keys sorted ascending. *)
Definition pendingTokens (t : gmap Z JsObject) : list Z :=
  merge_sort Z.le
    (map fst (filter (fun e => isStr (snd e !! "status") "pending"
                               || isStr (snd e !! "status") "failed" = true)
                     (map_to_list t))).

(** One call of [mintSingleToken]: about to run the body, suspended in
    the submission, suspended in [resetNonceSequence] inside the [catch]
    block, or returned. *)
Inductive Task :=
| Entry (retryCount : nat)
| AwaitTx (retryCount : nat) (nonce : Z)
| AwaitReset (retryCount : nat) (message : string)
| Returned (result : bool).

Inductive Input :=
| Resume (now : Z)
| TxAnswer (now : Z) (answer : Engine.Receipt + string)
| ResetAnswer (now : Z) (answer : Z + string).

Section WithConfig.
Variable cfg : Config.

Definition set_token (w : World) (tokenId : Z) (r : JsObject) : World :=
  {| tokens := <[tokenId := r]> (tokens w); summary := summary w; nonces := nonces w |}.

Definition countSuccess (w : World) : World :=
  let s := summary w in
  {| tokens := tokens w;
     summary := {| Model.total := Model.total s; Model.successful := Model.successful s + 1;
                   Model.failed := Model.failed s; Model.pending := Model.pending s - 1 |};
     nonces := nonces w |}.

Definition countFailure (w : World) : World :=
  let s := summary w in
  {| tokens := tokens w;
     summary := {| Model.total := Model.total s; Model.successful := Model.successful s;
                   Model.failed := Model.failed s + 1; Model.pending := Model.pending s - 1 |};
     nonces := nonces w |}.

(** The [try] block up to the submission. *)
Definition enter (w : World) (tokenId : Z) (retryCount : nat) (now : Z)
  : World * Task * list Engine.ChainOp :=
  let r := match tokens w !! tokenId with
           | Some r => r
           | None => Engine.newRecord tokenId now
           end in
  let r := <["attempts" := increment (r !! "attempts")]> r in
  let '(nonce, n) := getNextNonce (nonces w) in
  ({| tokens := <[tokenId := r]> (tokens w); summary := summary w; nonces := n |},
   AwaitTx retryCount nonce,
   [Engine.EstimateGas 0; Engine.SendTransaction tokenId 0 nonce]).

Definition completedRecord (r : JsObject) (receipt : Engine.Receipt) (nonce now : Z)
  : JsObject :=
  let r := <["status" := JsStr "completed"]> r in
  let r := <["metadataUri" := JsStr Engine.metadataUri]> r in
  let r := <["txHash" := JsStr (Engine.hash receipt)]> r in
  let r := <["blockNumber" := JsNum (Engine.blockNumber receipt)]> r in
  let r := <["gasUsed" := JsStr (Z_to_string (Engine.gasUsed receipt))]> r in
  let r := <["nonce" := JsNum nonce]> r in
  <["completedAt" := JsNum now]> r.

(** The retry logic that ends the [catch] block. *)
Definition retryOrFail (w : World) (tokenId : Z) (retryCount : nat)
    (message : string) (now : Z) : World * Task * list Engine.ChainOp :=
  if (retryCount <? RETRY_ATTEMPTS cfg)%nat then (w, Entry (S retryCount), [])
  else
    let r := default ∅ (tokens w !! tokenId) in
    (countFailure
       (set_token w tokenId
          (Engine.failedRecord r message (classifyError200k message) retryCount now)),
     Returned false, []).

(** The [catch] block up to [await resetNonceSequence()]. *)
Definition catchBlock (w : World) (tokenId : Z) (retryCount : nat)
    (message : string) (now : Z) : World * Task * list Engine.ChainOp :=
  let errorType := classifyError200k message in
  if decide (errorType = ALREADY_KNOWN) then
    let r := default ∅ (tokens w !! tokenId) in
    (countSuccess (set_token w tokenId (Engine.alreadyKnownRecord r now)),
     Returned true, [])
  else if decide (errorType = NONCE_ERROR) then
    (w, AwaitReset retryCount message, [Engine.GetTransactionCount 0])
  else retryOrFail w tokenId retryCount message now.

Definition step (w : World) (tokenId : Z) (t : Task) (i : Input)
  : option (World * Task * list Engine.ChainOp) :=
  match t, i with
  | Entry retryCount, Resume now => Some (enter w tokenId retryCount now)
  | AwaitTx retryCount nonce, TxAnswer now (inl receipt) =>
      let r := default ∅ (tokens w !! tokenId) in
      Some (countSuccess (set_token w tokenId (completedRecord r receipt nonce now)),
            Returned true, [])
  | AwaitTx retryCount nonce, TxAnswer now (inr message) =>
      Some (catchBlock w tokenId retryCount message now)
  | AwaitReset retryCount message, ResetAnswer now answer =>
      let w := {| tokens := tokens w; summary := summary w;
                  nonces := resetNonceSequence answer (nonces w) |} in
      Some (retryOrFail w tokenId retryCount message now)
  | _, _ => None
  end.

Definition settled (t : Task) : bool :=
  match t with Returned _ => true | _ => false end.

(** One call run on a list of inputs, each the one the call waits for
    (another is skipped). *)
Fixpoint run (w : World) (tokenId : Z) (t : Task) (inputs : list Input)
  : World * Task * list Engine.ChainOp :=
  match inputs with
  | [] => (w, t, [])
  | i :: rest =>
      match step w tokenId t i with
      | None => run w tokenId t rest
      | Some (w', t', ops) =>
          let '(w'', t'', ops') := run w' tokenId t' rest in
          (w'', t'', ops ++ ops')
      end
  end.

(** The inputs of a run the call takes a step on. *)
Fixpoint accepted (w : World) (tokenId : Z) (t : Task) (inputs : list Input) : nat :=
  match inputs with
  | [] => 0
  | i :: rest =>
      match step w tokenId t i with
      | None => accepted w tokenId t rest
      | Some (w', t', _) => S (accepted w' tokenId t' rest)
      end
  end.

(** The steps a call has left at most. *)
Definition work (t : Task) : nat :=
  match t with
  | Entry retryCount => 3 * (RETRY_ATTEMPTS cfg - retryCount) + 3
  | AwaitTx retryCount _ => 3 * (RETRY_ATTEMPTS cfg - retryCount) + 2
  | AwaitReset retryCount _ => 3 * (RETRY_ATTEMPTS cfg - retryCount) + 1
  | Returned _ => 0
  end%nat.

Definition submissionsLeft (t : Task) : nat :=
  match t with
  | Entry retryCount => RETRY_ATTEMPTS cfg - retryCount + 1
  | AwaitTx retryCount _ | AwaitReset retryCount _ => RETRY_ATTEMPTS cfg - retryCount
  | Returned _ => 0
  end%nat.

End WithConfig.
End Single.

(** ** The retry script [retry_failed_batch2_optimized.js] *)

Module Retry.
Import Js JsString Classify.
Import Model (Config, Summary, RETRY_ATTEMPTS).

(** The state of the script: [mintLog.tokens], keyed by the lines of the
    file of failed tokens, [mintLog.summary] and the nonce sequence. *)
Record World := {
  tokens : gmap string JsObject;
  summary : Summary;
  nonces : Single.NonceState
}.

Inductive ChainOp :=
| GetTransactionCount
| EstimateGas
| SendTransaction (tokenId : string) (nonce : Z).

Inductive Task :=
| Entry (retryCount : nat)
| AwaitTx (retryCount : nat) (nonce : Z)
| AwaitReset (retryCount : nat) (message : string)
| Returned (result : bool).

Inductive Input :=
| Resume (now : Z)
| TxAnswer (now : Z) (answer : Engine.Receipt + string)
| ResetAnswer (now : Z) (answer : Z + string).

(** The guard that opens [mintSingleTokenOptimized]:
    [mintLog.tokens[tokenId] && mintLog.tokens[tokenId].status === 'completed']. *)
Definition isCompleted (w : World) (tokenId : string) : bool :=
  match tokens w !! tokenId with
  | Some r => isStr (r !! "status") "completed"
  | None => false
  end.

(** [if (mintLog.tokens[tokenId] && status === 'pending') summary.pending--],
    evaluated after the record has been written. *)
Definition settlePending (w : World) (tokenId : string) : World :=
  let isPending := match tokens w !! tokenId with
                   | Some r => isStr (r !! "status") "pending"
                   | None => false
                   end in
  let s := summary w in
  {| tokens := tokens w;
     summary := {| Model.total := Model.total s; Model.successful := Model.successful s;
                   Model.failed := Model.failed s;
                   Model.pending := if isPending then Model.pending s - 1
                                    else Model.pending s |};
     nonces := nonces w |}.

Definition countSuccess (w : World) : World :=
  let s := summary w in
  {| tokens := tokens w;
     summary := {| Model.total := Model.total s; Model.successful := Model.successful s + 1;
                   Model.failed := Model.failed s; Model.pending := Model.pending s |};
     nonces := nonces w |}.

Definition countFailure (w : World) : World :=
  let s := summary w in
  {| tokens := tokens w;
     summary := {| Model.total := Model.total s; Model.successful := Model.successful s;
                   Model.failed := Model.failed s + 1; Model.pending := Model.pending s |};
     nonces := nonces w |}.

Definition set_token (w : World) (tokenId : string) (r : JsObject) : World :=
  {| tokens := <[tokenId := r]> (tokens w); summary := summary w; nonces := nonces w |}.

(** The records the script writes; each is a new object. *)
Definition completedRecord (tokenId : string) (receipt : Engine.Receipt) (nonce now : Z)
  : JsObject :=
  <["tokenId" := JsStr tokenId]>
    (<["status" := JsStr "completed"]>
       (<["metadataUri" := JsStr Engine.metadataUri]>
          (<["txHash" := JsStr (Engine.hash receipt)]>
             (<["blockNumber" := JsNum (Engine.blockNumber receipt)]>
                (<["gasUsed" := JsStr (Z_to_string (Engine.gasUsed receipt))]>
                   (<["nonce" := JsNum nonce]> (<["completedAt" := JsNum now]> ∅))))))).

Definition alreadyKnownRecord (tokenId : string) (now : Z) : JsObject :=
  <["tokenId" := JsStr tokenId]>
    (<["status" := JsStr "completed"]>
       (<["metadataUri" := JsStr Engine.metadataUri]>
          (<["txHash" := JsStr "already_known"]>
             (<["completedAt" := JsNum now]>
                (<["note" := JsStr "Transaction already known"]> ∅))))).

Definition failedRecord (tokenId message : string) (errorType : ErrorType)
    (retryCount : nat) (now : Z) : JsObject :=
  <["tokenId" := JsStr tokenId]>
    (<["status" := JsStr "failed"]>
       (<["error" := JsStr message]>
          (<["errorType" := JsStr (ErrorType_name errorType)]>
             (<["failedAt" := JsNum now]>
                (<["retryCount" := JsNum (Z.of_nat retryCount)]> ∅))))).

Section WithConfig.
Variable cfg : Config.

(** The [try] block up to the submission. *)
Definition enter (w : World) (tokenId : string) (retryCount : nat)
  : World * Task * list ChainOp :=
  if isCompleted w tokenId then (w, Returned true, [])
  else
    let '(nonce, n) := Single.getNextNonce (nonces w) in
    ({| tokens := tokens w; summary := summary w; nonces := n |},
     AwaitTx retryCount nonce, [EstimateGas; SendTransaction tokenId nonce]).

Definition retryOrFail (w : World) (tokenId : string) (retryCount : nat)
    (message : string) (now : Z) : World * Task * list ChainOp :=
  if (retryCount <? RETRY_ATTEMPTS cfg)%nat then (w, Entry (S retryCount), [])
  else
    (settlePending
       (countFailure
          (set_token w tokenId
             (failedRecord tokenId message (classifyError200k message) retryCount now)))
       tokenId,
     Returned false, []).

Definition catchBlock (w : World) (tokenId : string) (retryCount : nat)
    (message : string) (now : Z) : World * Task * list ChainOp :=
  let errorType := classifyError200k message in
  if decide (errorType = ALREADY_KNOWN) then
    (settlePending (countSuccess (set_token w tokenId (alreadyKnownRecord tokenId now)))
       tokenId,
     Returned true, [])
  else if decide (errorType = NONCE_ERROR) then
    (w, AwaitReset retryCount message, [GetTransactionCount])
  else retryOrFail w tokenId retryCount message now.

Definition step (w : World) (tokenId : string) (t : Task) (i : Input)
  : option (World * Task * list ChainOp) :=
  match t, i with
  | Entry retryCount, Resume now => Some (enter w tokenId retryCount)
  | AwaitTx retryCount nonce, TxAnswer now (inl receipt) =>
      Some (settlePending
              (countSuccess (set_token w tokenId (completedRecord tokenId receipt nonce now)))
              tokenId,
            Returned true, [])
  | AwaitTx retryCount nonce, TxAnswer now (inr message) =>
      Some (catchBlock w tokenId retryCount message now)
  | AwaitReset retryCount message, ResetAnswer now answer =>
      let w := {| tokens := tokens w; summary := summary w;
                  nonces := Single.resetNonceSequence answer (nonces w) |} in
      Some (retryOrFail w tokenId retryCount message now)
  | _, _ => None
  end.

(** One call run on a list of inputs, each the one the call waits for
    (another is skipped). *)
Fixpoint run (w : World) (tokenId : string) (t : Task) (inputs : list Input)
  : World * Task * list ChainOp :=
  match inputs with
  | [] => (w, t, [])
  | i :: rest =>
      match step w tokenId t i with
      | None => run w tokenId t rest
      | Some (w', t', ops) =>
          let '(w'', t'', ops') := run w' tokenId t' rest in
          (w'', t'', ops ++ ops')
      end
  end.

(** A call that has passed the guard and not returned yet. *)
Definition inFlight (t : Task) : bool :=
  match t with
  | AwaitTx _ _ | AwaitReset _ _ => true
  | _ => false
  end.

End WithConfig.
End Retry.

(** ** Small instances, used to run the definitions *)

Module Examples.
Import Js Model SignerPool Engine Snapshot Scheduler.

(** One signer, one endpoint, the token range 1..2. *)
Definition smallConfig : Config :=
  {| SIGNER_KEYS := ["0xA"]; RPC_ENDPOINTS := ["rpc"];
     START_TOKEN_ID := 1; END_TOKEN_ID := 2;
     MINT_RATE_LIMIT := 10; BATCH_SIZE := 60; RETRY_ATTEMPTS := 5;
     SIGNER_BACKOFF_THRESHOLD := 3; SIGNER_BACKOFF_DURATION := 30000;
     MINT_LOG_PATH := "log.json" |}.

(** The same with no signer key set in the environment. *)
Definition noSignerConfig : Config :=
  {| SIGNER_KEYS := []; RPC_ENDPOINTS := ["rpc"];
     START_TOKEN_ID := 1; END_TOKEN_ID := 2;
     MINT_RATE_LIMIT := 10; BATCH_SIZE := 60; RETRY_ATTEMPTS := 5;
     SIGNER_BACKOFF_THRESHOLD := 3; SIGNER_BACKOFF_DURATION := 30000;
     MINT_LOG_PATH := "log.json" |}.

(** A log in which tokens 1 and 2 are completed. *)
Definition doneRecord (tokenId : Z) : JsObject :=
  <["status" := JsStr "completed"]> (newRecord tokenId 0).

(** A record map of the single-wallet script: token 1 is completed, token
    2 has no record, token 5 has a pending one. *)
Definition gappedTokens : gmap Z JsObject :=
  <[1 := doneRecord 1]> (<[5 := Single.initialRecord 5]> ∅).

Definition doneLog : MintLog :=
  set_tokens initialMintLog (<[1 := doneRecord 1]> (<[2 := doneRecord 2]> ∅)).


(** The single signer after two, and after three, failures in a row at
    time 1000. *)
Definition failedTwice : World :=
  let fail w := default w (handleSignerFailure smallConfig 1000 0 w) in
  fail (fail (world (fst (main smallConfig 1000 NetworkUp ∅)))).

Definition backedOffWorld : World :=
  default failedTwice (handleSignerFailure smallConfig 1000 0 failedTwice).

(** The program started with no signer key, on an empty disk. *)
Definition startedNoSigner : Sys := fst (main noSignerConfig 1000 NetworkUp ∅).

(** A disk that holds the initial log. *)
Definition freshDisk : Disk := <["log.json" := Whole initialMintLog]> ∅.

(** Every provider reports the count 5 for every address. *)
Definition chainAt5 : Chain := fun _ _ => inl 5.

(** The program started on an empty disk at time 1000. *)
Definition started : Sys := fst (main smallConfig 1000 NetworkUp ∅).

Definition receipt1 : Receipt :=
  {| hash := "0xabc"; blockNumber := 77; gasUsed := 21000 |}.

(** The state a schedule leads to from [started] (and [started] itself
    when the schedule cannot run). *)
Definition after (schedule : list (nat * Input)) : Sys :=
  match drive smallConfig started schedule with
  | Some (s, _) => s
  | None => started
  end.

Definition issued (schedule : list (nat * Input)) : list ChainOp :=
  match drive smallConfig started schedule with
  | Some (_, ops) => ops
  | None => []
  end.

(** One attempt of a call: it is resumed at [now], gets the nonce and the
    submission fails with [message]. *)
Definition failingAttempt (now : Z) (message : string) : list Input :=
  [Resume now; NonceAnswer (now + 1) chainAt5; TxAnswer (now + 2) (inr message)].

(** Six attempts that fail, 40 s apart. *)
Definition sixFailures : list Input :=
  failingAttempt 40000 "boom" ++ failingAttempt 80000 "boom"
  ++ failingAttempt 120000 "boom" ++ failingAttempt 160000 "boom"
  ++ failingAttempt 200000 "boom" ++ failingAttempt 240000 "boom".

Definition noFunds : string := "insufficient funds for gas * price + value".

(** The first call mints token 1. *)
Definition mintFirst : list (nat * Input) :=
  [(0%nat, Resume 1001); (0%nat, NonceAnswer 1002 chainAt5);
   (0%nat, TxAnswer 1003 (inl receipt1))].

(** The single-wallet script after [loadExistingProgress] has found no
    log file and created the records of the range 1..2, with the nonce
    sequence at 5. *)
Definition singleStarted : Single.World :=
  {| Single.tokens := Single.initialTokens smallConfig;
     Single.summary := {| total := 2; successful := 0; failed := 0; pending := 2 |};
     Single.nonces := {| Single.baseNonce := Some 5; Single.nonceOffset := 0 |} |}.

(** A first attempt of the single-wallet script that ends in
    [already known]. *)
Definition singleAlreadyKnown : list Single.Input :=
  [Single.Resume 1000; Single.TxAnswer 1001 (inr "already known")].

(** The retry script with no record yet and the nonce sequence at 5; the
    file of failed tokens lists the token 7 twice, so that the batch holds
    two calls for it. *)
Definition retryFresh : Retry.World :=
  {| Retry.tokens := ∅;
     Retry.summary := {| total := 0; successful := 0; failed := 0; pending := 0 |};
     Retry.nonces := {| Single.baseNonce := Some 5; Single.nonceOffset := 0 |} |}.

(** The first call passes the guard and submits. *)
Definition retryFirstSent : Retry.World * Retry.Task * list Retry.ChainOp :=
  Retry.run smallConfig retryFresh "7" (Retry.Entry 0) [Retry.Resume 1000].

(** The second call passes the guard too, fails five times and submits
    for the sixth and last time. *)
Definition retrySecondInputs : list Retry.Input :=
  [Retry.Resume 1001; Retry.TxAnswer 1002 (inr "boom");
   Retry.Resume 4000; Retry.TxAnswer 4001 (inr "boom");
   Retry.Resume 8000; Retry.TxAnswer 8001 (inr "boom");
   Retry.Resume 13000; Retry.TxAnswer 13001 (inr "boom");
   Retry.Resume 20000; Retry.TxAnswer 20001 (inr "boom");
   Retry.Resume 30000].

Definition retrySecondSent : Retry.World * Retry.Task * list Retry.ChainOp :=
  Retry.run smallConfig (fst (fst retryFirstSent)) "7" (Retry.Entry 0) retrySecondInputs.

(** The transaction of the first call is confirmed. *)
Definition retryFirstConfirmed : Retry.World * Retry.Task * list Retry.ChainOp :=
  Retry.run smallConfig (fst (fst retrySecondSent)) "7" (snd (fst retryFirstSent))
    [Retry.TxAnswer 40000 (inl receipt1)].

(** The last attempt of the second call fails. *)
Definition retrySecondFailed : Retry.World * Retry.Task * list Retry.ChainOp :=
  Retry.run smallConfig (fst (fst retryFirstConfirmed)) "7" (snd (fst retrySecondSent))
    [Retry.TxAnswer 40001 (inr "boom")].

(** Both calls of the batch start, and both ask for the nonce before
    either has sent its transaction. *)
Definition overlap : list (nat * Input) :=
  [(0%nat, Resume 1001); (1%nat, Resume 1001);
   (0%nat, NonceAnswer 1002 chainAt5); (1%nat, NonceAnswer 1002 chainAt5)].

End Examples.

(** ** Rounds of the signer pool *)

Module Rounds.
Import Js Model SignerPool.

(** The pool while a series of calls of [getNextAvailableSigner] is under
    way: [handed] holds the indices handed out so far in the series, each
    stamped later than the last use of every signer not yet handed out;
    [times] are the clock readings of the calls still to come. *)
Definition midRound (handed : list nat) (times : list Z) (w : World) : Prop :=
  length (signerStates w) = length (signers w)
  /\ (forall i s, signerStates w !! i = Some s -> isBackedOff s = false)
  /\ (forall i s t, i ∉ handed -> signerStates w !! i = Some s -> t ∈ times ->
        lastUsed s < t)
  /\ (forall i s j sj, i ∈ handed -> j ∉ handed -> signerStates w !! i = Some s ->
        signerStates w !! j = Some sj -> lastUsed sj < lastUsed s)
  /\ NoDup handed
  /\ (forall i, i ∈ handed -> (i < length (signers w))%nat).

End Rounds.

(** ** Properties kept along the runs of the multi-signer script *)

Module Invariants.
Import Js Model SignerPool Engine Snapshot Scheduler.

(** A state in which [P] holds of the world, [Q] of every call of the
    current batch and [R] of every token of the later batches. *)
Definition holds (P : World -> Prop) (Q : World -> Z -> Task -> Prop)
    (R : World -> Z -> Prop) (s : Sys) : Prop :=
  P (world s)
  /\ match phase s with
     | Batching running queue =>
         (forall tokenId t, (tokenId, t) ∈ running -> Q (world s) tokenId t)
         /\ (forall tokenId, tokenId ∈ queue -> R (world s) tokenId)
     | _ => True
     end.

(** A record whose [lastSignerIndex] is absent or 0. *)
Definition recordOk (r : JsObject) : Prop :=
  r !! "lastSignerIndex" = None \/ r !! "lastSignerIndex" = Some (JsNum 0).

Definition logOk (log : MintLog) : Prop :=
  forall tokenId r, tokens log !! tokenId = Some r -> recordOk r.

(** The log file is absent, unreadable, or holds a log of such records. *)
Definition diskOk (cfg : Config) (d : Disk) : Prop :=
  match load (MINT_LOG_PATH cfg) d with
  | Some (Some log) => logOk log
  | _ => True
  end.

(** A signer that was never charged with a failure. *)
Definition quiet (s : SignerState) : Prop :=
  isBackedOff s = false /\ consecutiveFailures s = 0 /\ totalFailed s = 0.

Definition quietStat (st : SignerStat) : Prop :=
  statFailed st = 0 /\ backedOff st = 0.

(** The bookkeeping of the pool: an entry per signer in [signerStates]
    and in [mintLog.signerStats], records that name signer 0 only, and
    every other signer never charged. *)
Definition poolOk (w : World) : Prop :=
  length (signerStates w) = length (signers w)
  /\ (forall i, (i < length (signers w))%nat -> is_Some (signerStats (mintLog w) !! i))
  /\ logOk (mintLog w)
  /\ (forall i s, (1 <= i)%nat -> signerStates w !! i = Some s -> quiet s)
  /\ (forall i st, (1 <= i < length (signers w))%nat ->
        signerStats (mintLog w) !! i = Some st -> quietStat st).

(** A call that holds a signer holds a configured one and has its record;
    no call has thrown. *)
Definition callOk (w : World) (tokenId : Z) (t : Task) : Prop :=
  match t with
  | AwaitNonce _ sd | AwaitReceipt _ sd _ =>
      (index sd < length (signers w))%nat /\ is_Some (token w tokenId)
  | Thrown => False
  | _ => True
  end.

End Invariants.

(** ** What a call does to the summary and to the record of its token *)

Module Attempts.
Import Js Model SignerPool Engine.

(** A call that is not in the middle of an attempt. *)
Definition waitingToStart (t : Task) : Prop :=
  match t with
  | Queued | Entry _ => True
  | _ => False
  end.

(** The record of the token carries the numeric [attempts] [a]; or the
    token has no record yet, no attempt has been made ([a = 0]) and the
    call has not started one. *)
Definition attemptsKnown (w : World) (tokenId : Z) (t : Task) (a : Z) : Prop :=
  property w tokenId "attempts" = Some (JsNum a)
  \/ (token w tokenId = None /\ a = 0 /\ waitingToStart t).

(** What a step does to the summary: it is counted in when the call
    returns, and only then. *)
Definition summaryAfter (t' : Task) (s : Summary) : Summary :=
  match t' with
  | Returned true =>
      {| total := total s; successful := successful s + 1; failed := failed s;
         pending := pending s - 1 |}
  | Returned false =>
      {| total := total s; successful := successful s; failed := failed s + 1;
         pending := pending s - 1 |}
  | _ => s
  end.

End Attempts.

(** ** Calls under way and the pending tokens *)

Module Interrupt.
Import Js Model SignerPool Engine Snapshot Scheduler.



End Interrupt.

(** ** The batch loop of [main] *)

Module Batches.

(** [a.slice(start, stop)] for indices [0 <= start]: the elements from
    [start] up to, not including, [stop] (or the end of the array). *)
Definition slice {A} (start stop : nat) (a : list A) : list A :=
  take (stop - start) (drop start a).

(** [Math.ceil(n / size)] for [size > 0]; with [size = 0] JavaScript gives
    [Infinity] and the value here is of no use. *)
Definition ceilDiv (n size : nat) : nat := ((n + size - 1) / size)%nat.

(** [totalBatches] of [main]. *)
Definition totalBatches (batchSize : nat) (pendingTokens : list Z) : nat :=
  ceilDiv (length pendingTokens) batchSize.

(** The loop
    [for (let i = 0; i < pendingTokens.length; i += BATCH_SIZE)] from the
    index [i] on: the [batchNum] and the [batch] of every turn.  [fuel]
    bounds the number of turns; [None]: the loop has not ended within
    them. *)
Fixpoint batchLoop (fuel batchSize : nat) (pendingTokens : list Z) (i : nat)
  : option (list (nat * list Z)) :=
  match fuel with
  | O => None
  | S fuel' =>
      if (i <? length pendingTokens)%nat then
        rest ← batchLoop fuel' batchSize pendingTokens (i + batchSize);
        Some (((i / batchSize + 1)%nat, slice i (i + batchSize) pendingTokens) :: rest)
      else Some []
  end.

End Batches.

(** ** Counting the records by status: [checkStatus] and [saveMintLog] *)

Module Status.
Import Js JsString.
Import Model (Summary).

(** The order of the entries of an object with integer keys. *)
Definition keyLe (a b : Z * JsObject) : Prop := fst a <= fst b.

#[global] Instance keyLe_dec : RelDecision keyLe.
Proof. intros a b. unfold keyLe. apply _. Defined.

(** [Object.values(mintLog.tokens)]: the records in ascending order of
    their keys. *)
Definition values (tokens : gmap Z JsObject) : list JsObject :=
  map snd (merge_sort keyLe (map_to_list tokens)).

(** The property name a value used as a key is converted to.  The names
    that every object inherits ([constructor], [toString], ...) are
    outside the model: no script stores them as a status. *)
Definition propertyKey (v : option JsValue) : string :=
  match v with
  | None => "undefined"
  | Some JsNull => "null"
  | Some JsNaN => "NaN"
  | Some (JsNum z) => Z_to_string z
  | Some (JsStr s) => s
  | Some (JsBool true) => "true"
  | Some (JsBool false) => "false"
  end.

(** [statusCounts[token.status] = (statusCounts[token.status] || 0) + 1]. *)
Definition tally (statusCounts : gmap string Z) (token : JsObject) : gmap string Z :=
  let key := propertyKey (token !! "status") in
  <[key := default 0 (statusCounts !! key) + 1]> statusCounts.

Definition initialCounts : gmap string Z :=
  <["completed" := 0]> (<["pending" := 0]> (<["failed" := 0]> ∅)).

(** The [forEach] of [checkStatus]. *)
Definition statusCounts (tokens : gmap Z JsObject) : gmap string Z :=
  foldl tally initialCounts (values tokens).

(** What [checkStatus] prints for a log that it could read: the number of
    keys, the three counts, and which of the two closing messages. *)
Record Report := {
  totalTokens : nat;
  completedCount : Z;
  pendingCount : Z;
  failedCount : Z;
  tokensToMint : bool   (* "There are pending tokens that need to be minted!" *)
}.

Definition checkStatus (tokens : gmap Z JsObject) : Report :=
  let counts := statusCounts tokens in
  {| totalTokens := length (map_to_list tokens);
     completedCount := default 0 (counts !! "completed");
     pendingCount := default 0 (counts !! "pending");
     failedCount := default 0 (counts !! "failed");
     tokensToMint := 0 <? default 0 (counts !! "pending") |}.

(** [tokens.filter(t => t.status === text).length]. *)
Definition countStatus (text : string) (tokens : list JsObject) : nat :=
  length (filter (fun t => isStr (t !! "status") text = true) tokens).

(** The summary [saveMintLog] recalculates before it writes the log. *)
Definition saveMintLog (tokens : gmap Z JsObject) : Summary :=
  let tokens := values tokens in
  {| Model.total := Z.of_nat (length tokens);
     Model.successful := Z.of_nat (countStatus "completed" tokens);
     Model.failed := Z.of_nat (countStatus "failed" tokens);
     Model.pending := Z.of_nat (countStatus "pending" tokens) |}.

(** The statuses the scripts write. *)
Definition knownStatus (r : JsObject) : Prop :=
  r !! "status" = Some (JsStr "completed")
  \/ r !! "status" = Some (JsStr "failed")
  \/ r !! "status" = Some (JsStr "pending").

End Status.

(** ** The delay before a retry *)

Module Delay.

(** The two constants [calculateBackoffDelay] reads. *)
Record Delays := {
  RETRY_DELAY : Z;
  MAX_RETRY_DELAY : Z
}.

(** Their values in the [CONFIG] of the multi-signer script. *)
Definition CONFIG : Delays := {| RETRY_DELAY := 2000; MAX_RETRY_DELAY := 15000 |}.

(** [exponentialDelay] of [calculateBackoffDelay] in the multi-signer
    script: [Math.min(baseDelay * Math.pow(2, retryCount), MAX_RETRY_DELAY)],
    for integer constants with [baseDelay > 0].  (A product by a power of
    two is exact in floating point, and one too large to represent is
    [Infinity], whose minimum with the cap is the cap.)  The function
    returns this value plus a jitter [Math.random() * 1000]. *)
Definition exponentialDelay (d : Delays) (retryCount : nat) : Z :=
  Z.min (RETRY_DELAY d * 2 ^ Z.of_nat retryCount) (MAX_RETRY_DELAY d).

End Delay.

(** ** The authorization script: [authorizeSigners] *)

Module Authorize.
Import JsString.

(** An element of the array [signers]: the index of the key in
    [CONFIG.SIGNER_KEYS] and the address of its wallet (a key is
    represented by that address); [isOwner] is [index === 0]. *)
Record Signer := {
  index : nat;
  address : string;
  isOwner : bool
}.

Definition signersOf (keys : list string) : list Signer :=
  imap (fun i a => {| index := i; address := a; isOwner := (i =? 0)%nat |}) keys.

(** What the chain answers during one run of the script.  [None] and
    [inr] stand for a call that throws. *)
Record Answers := {
  networkOk : bool;                       (* provider.getNetwork() *)
  contractOwner : string + string;        (* contract.owner() *)
  balanceSufficient : option bool;        (* getBalance, then the test against 0.01 *)
  authorizedMinters : string -> option bool;
  transactionCount : Z + string;          (* getTransactionCount(owner, 'latest') *)
  estimateGas : string -> option Z        (* setAuthorizedMinter.estimateGas(address, true) *)
}.

(** A call [contract.setAuthorizedMinter(minter, true, { gasLimit, nonce })]. *)
Record Transaction := {
  minter : string;
  gasLimit : Z;
  nonce : Z
}.

Inductive Outcome :=
| Exit (code : Z)
| Returned (sent : list Transaction).

(** The owner verification: the [throw] for a wallet that is not the
    owner is inside the [try] whose [catch] only logs, so the outcome is
    one of two log lines. *)
Definition ownerVerified (ownerWallet : string) (a : Answers) : bool :=
  match contractOwner a with
  | inl owner => String.eqb (toLowerCase owner) (toLowerCase ownerWallet)
  | inr _ => false
  end.

(** The loop [for (let i = 1; i < signers.length; i++)]: a signer whose
    check answers [true] is skipped, every other one (also when the check
    throws) is pushed. *)
Definition authorizationTasks (signers : list Signer) (a : Answers) : list Signer :=
  filter (fun s => authorizedMinters a (address s) <> Some true) (drop 1 signers).

(** [authorizationTasks.map(async (signer, index) => ...)]: the calls of
    [setAuthorizedMinter] made.  The task at position [index] uses the
    nonce [nonce + index] and the gas limit [gasEstimate * 130n / 100n];
    when the gas estimation throws, the task makes no call. *)
Definition transactions (startingNonce : Z) (tasks : list Signer) (a : Answers)
  : list Transaction :=
  omap (fun p : nat * Signer =>
          match estimateGas a (address (snd p)) with
          | Some gasEstimate =>
              Some {| minter := address (snd p);
                      gasLimit := Z.quot (gasEstimate * 130) 100;
                      nonce := startingNonce + Z.of_nat (fst p) |}
          | None => None
          end)
       (imap (fun i s => (i, s)) tasks).

(** [authorizeSigners]: the transactions it sends, or the exit code of
    the outer [catch]. *)
Definition authorizeSigners (keys : list string) (a : Answers) : Outcome :=
  if negb (networkOk a) then Exit 1
  else
    match keys with
    | [] => Exit 1                      (* new ethers.Wallet(undefined) throws *)
    | ownerWallet :: _ =>
        let verified := ownerVerified ownerWallet a in
        match balanceSufficient a with
        | None | Some false => Exit 1
        | Some true =>
            match authorizationTasks (signersOf keys) a with
            | [] => Returned []
            | tasks =>
                match transactionCount a with
                | inr _ => Exit 1
                | inl n => Returned (transactions n tasks a)
                end
            end
        end
    end.

End Authorize.

(** ** Every token of the range is dealt with *)

Module Coverage.
Import Js Model SignerPool Engine Snapshot Scheduler.

(** The record of the token exists and does not ask for a further
    attempt in this run: its status is neither absent nor [pending], or
    it is [failed]. *)
Definition dealtWith (w : World) (tokenId : Z) : Prop :=
  isPending w tokenId = false \/ status w tokenId = Some (JsStr "failed").

(** Every token of the range is in the current batch, in a later batch,
    or dealt with; and the token of a call that has returned is dealt
    with. *)
Definition covered (cfg : Config) (s : Sys) : Prop :=
  match phase s with
  | Batching running queue =>
      (forall tokenId, START_TOKEN_ID cfg <= tokenId <= END_TOKEN_ID cfg ->
         tokenId ∈ fst <$> running \/ tokenId ∈ queue \/ dealtWith (world s) tokenId)
      /\ (forall tokenId b, (tokenId, Returned b) ∈ running -> dealtWith (world s) tokenId)
  | Finished =>
      forall tokenId, START_TOKEN_ID cfg <= tokenId <= END_TOKEN_ID cfg ->
        dealtWith (world s) tokenId
  | Exited _ => True
  end.

End Coverage.

(** ** Further small instances *)

Module Instances.
Import Js Model SignerPool Engine Snapshot Scheduler.

(** Two signers on two endpoints, the token range 1..3, batches of two
    tokens and a single retry. *)
Definition twoSigners : Config :=
  {| SIGNER_KEYS := ["0xA"; "0xB"]; RPC_ENDPOINTS := ["rpc0"; "rpc1"];
     START_TOKEN_ID := 1; END_TOKEN_ID := 3;
     MINT_RATE_LIMIT := 10; BATCH_SIZE := 2; RETRY_ATTEMPTS := 1;
     SIGNER_BACKOFF_THRESHOLD := 1; SIGNER_BACKOFF_DURATION := 30000;
     MINT_LOG_PATH := "log.json" |}.

(** The program started with two signers on an empty disk at time 1000. *)
Definition startedTwo : Sys := fst (main twoSigners 1000 NetworkUp ∅).

(** The first call fails twice: the first attempt is made by signer 0,
    the retry by signer 1. *)
Definition failsTwice : list (nat * Input) :=
  [(0%nat, Resume 1001); (0%nat, NonceAnswer 1002 Examples.chainAt5);
   (0%nat, TxAnswer 1003 (inr "boom"));
   (0%nat, Resume 3000); (0%nat, NonceAnswer 3001 Examples.chainAt5);
   (0%nat, TxAnswer 3002 (inr "boom"))].

Definition afterTwo (schedule : list (nat * Input)) : Sys :=
  match drive twoSigners startedTwo schedule with
  | Some (s, _) => s
  | None => startedTwo
  end.

Definition issuedTwo (schedule : list (nat * Input)) : list ChainOp :=
  match drive twoSigners startedTwo schedule with
  | Some (_, ops) => ops
  | None => []
  end.

(** A call for token 1 run alone from [Examples.started]: one attempt,
    which is confirmed. *)
Definition mintAlone : list Input :=
  [Resume 1001; NonceAnswer 1002 Examples.chainAt5; TxAnswer 1003 (inl Examples.receipt1)].

Definition mintedAlone : World :=
  fst (fst (run Examples.smallConfig (world Examples.started) 1 Queued mintAlone)).



(** What the first call of [getNextAvailableSigner] hands out with two
    signers. *)
Definition firstOfTwo : SignerData :=
  {| signer := Some "0xA"; index := 0; provider := Some "rpc0" |}.

(** A world of the single-wallet script with no record, and a call for
    token 7 whose first submission is confirmed. *)
Definition singleFresh : Single.World :=
  {| Single.tokens := ∅;
     Single.summary := {| total := 2; successful := 0; failed := 0; pending := 2 |};
     Single.nonces := {| Single.baseNonce := Some 5; Single.nonceOffset := 0 |} |}.

Definition singleMint : list Single.Input :=
  [Single.Resume 1; Single.TxAnswer 2 (inl Examples.receipt1)].

Definition singleMinted : Single.World :=
  fst (fst (Single.run Examples.smallConfig singleFresh 7 (Single.Entry 0) singleMint)).

(** Four keys; signer 1 is authorized, the gas estimation for signer 2
    throws, the owner's transaction count is 7. *)
Definition fourKeys : list string := ["0xA"; "0xB"; "0xC"; "0xD"].

Definition authAnswers : Authorize.Answers :=
  {| Authorize.networkOk := true;
     Authorize.contractOwner := inl "0xa";
     Authorize.balanceSufficient := Some true;
     Authorize.authorizedMinters :=
       fun a => if String.eqb a "0xB" then Some true else Some false;
     Authorize.transactionCount := inl 7;
     Authorize.estimateGas := fun a => if String.eqb a "0xC" then None else Some 100 |}.

(** A world of the retry script in which token ["7"] is completed. *)
Definition retryDone : Retry.World :=
  {| Retry.tokens := <["7" := Retry.alreadyKnownRecord "7" 0]> ∅;
     Retry.summary := {| total := 0; successful := 1; failed := 0; pending := 0 |};
     Retry.nonces := {| Single.baseNonce := Some 5; Single.nonceOffset := 1 |} |}.

(** Both calls of the batch of [Examples.started] are confirmed. *)
Definition mintBoth : list (nat * Input) :=
  Examples.mintFirst
  ++ [(1%nat, Resume 1004); (1%nat, NonceAnswer 1005 Examples.chainAt5);
      (1%nat, TxAnswer 1006 (inl Examples.receipt1))].

End Instances.

(** * Properties *)

(** ** Strings *)

Section StringFacts.
Import JsString.

Lemma prefix_split (p s : string) :
  String.prefix p s = true <-> exists b, s = (p ++ b)%string.
Proof.
  revert s. induction p as [|c p IH]; intros s.
  - split; [intros _; exists s; reflexivity | intros _; destruct s; reflexivity].
  - destruct s as [|d s]; simpl.
    + split; [discriminate | intros [b Hb]; discriminate].
    + destruct (Ascii.ascii_dec c d) as [->|Hcd].
      * rewrite IH. split; intros [b Hb]; exists b.
        -- simpl. rewrite Hb. reflexivity.
        -- simpl in Hb. injection Hb as ->. reflexivity.
      * split; [discriminate | intros [b Hb]]. injection Hb as Hd _. congruence.
Qed.

(** [includes] finds exactly the occurrences. *)
Lemma includes_occurs (s sub : string) :
  includes s sub = true <-> occurs_in sub s.
Proof.
  unfold occurs_in. induction s as [|c s IH]; cbn [includes].
  - destruct (String.prefix sub "") eqn:Hp.
    + apply prefix_split in Hp as [b Hb]. split; [|reflexivity].
      intros _. exists EmptyString, b. exact Hb.
    + split; [discriminate|]. intros ([|a0 a] & b & Hab); [|discriminate].
      assert (String.prefix sub "" = true) by (apply prefix_split; eauto).
      congruence.
  - destruct (String.prefix sub (String c s)) eqn:Hp.
    + apply prefix_split in Hp as [b Hb]. split; [|reflexivity].
      intros _. exists EmptyString, b. exact Hb.
    + rewrite IH. split.
      * intros (a & b & ->). exists (String c a), b. reflexivity.
      * intros ([|a0 a] & b & Hab).
        -- assert (String.prefix sub (String c s) = true)
             by (apply prefix_split; eauto).
           congruence.
        -- injection Hab as _ ->. eauto.
Qed.

Lemma includes_not_occurs (s sub : string) :
  includes s sub = false <-> ~ occurs_in sub s.
Proof.
  rewrite <- includes_occurs. destruct (includes s sub); split; congruence.
Qed.

End StringFacts.

(** ** Error classification *)

Section ClassifyFacts.
Import JsString Classify.

Lemma alreadyKnown_test (m : string) :
  includes m "already known" || includes m "transaction already exists" = true
  <-> alreadyKnownText m.
Proof.
  unfold alreadyKnownText. rewrite orb_true_iff, !includes_occurs. reflexivity.
Qed.

Lemma nonce_test (m : string) :
  includes m "nonce" && (includes m "too low" || includes m "already been used") = true
  <-> nonceText m.
Proof.
  unfold nonceText. rewrite andb_true_iff, orb_true_iff, !includes_occurs. reflexivity.
Qed.

Lemma network_test (m : string) :
  includes m "timeout" || includes m "econnreset" || includes m "network" = true
  <-> networkText m.
Proof.
  unfold networkText. rewrite !orb_true_iff, !includes_occurs. tauto.
Qed.

Lemma test_false (b : bool) (P : Prop) : (b = true <-> P) -> (b = false <-> ~ P).
Proof. intros H. rewrite <- H. destruct b; split; congruence. Qed.

(** The classifier of the multi-signer script, case by case. *)
Lemma classifyLowered_cases (m : string) :
  (alreadyKnownText m /\ classifyLowered m = ALREADY_KNOWN)
  \/ (~ alreadyKnownText m /\ nonceText m /\ classifyLowered m = NONCE_ERROR)
  \/ (~ alreadyKnownText m /\ ~ nonceText m /\ networkText m
      /\ classifyLowered m = NETWORK_ERROR)
  \/ (~ alreadyKnownText m /\ ~ nonceText m /\ ~ networkText m
      /\ occurs_in "-32000" m /\ classifyLowered m = RPC_ERROR)
  \/ (~ alreadyKnownText m /\ ~ nonceText m /\ ~ networkText m
      /\ ~ occurs_in "-32000" m /\ occurs_in "insufficient funds" m
      /\ classifyLowered m = INSUFFICIENT_FUNDS)
  \/ (~ alreadyKnownText m /\ ~ nonceText m /\ ~ networkText m
      /\ ~ occurs_in "-32000" m /\ ~ occurs_in "insufficient funds" m
      /\ classifyLowered m = UNKNOWN_ERROR).
Proof.
  unfold classifyLowered.
  destruct (includes m "already known" || includes m "transaction already exists") eqn:H1.
  { left. split; [apply alreadyKnown_test, H1 | reflexivity]. }
  apply (test_false _ _ (alreadyKnown_test m)) in H1. right.
  destruct (includes m "nonce" && (includes m "too low" || includes m "already been used")) eqn:H2.
  { left. repeat split; [exact H1 | apply nonce_test, H2 ..]. }
  apply (test_false _ _ (nonce_test m)) in H2. right.
  destruct (includes m "timeout" || includes m "econnreset" || includes m "network") eqn:H3.
  { left. repeat split; [exact H1 | exact H2 | apply network_test, H3]. }
  apply (test_false _ _ (network_test m)) in H3. right.
  destruct (includes m "-32000") eqn:H4.
  { left. repeat split; [exact H1 | exact H2 | exact H3 | apply includes_occurs, H4]. }
  apply includes_not_occurs in H4. right.
  destruct (includes m "insufficient funds") eqn:H5.
  { left. repeat split; try assumption. apply includes_occurs, H5. }
  apply includes_not_occurs in H5. right. repeat split; assumption.
Qed.

(** The classifier of [mint_batch_200k_300k.js], case by case. *)
Lemma classifyLowered200k_cases (m : string) :
  (alreadyKnownText m /\ classifyLowered200k m = ALREADY_KNOWN)
  \/ (~ alreadyKnownText m /\ nonceText m /\ classifyLowered200k m = NONCE_ERROR)
  \/ (~ alreadyKnownText m /\ ~ nonceText m /\ networkText m
      /\ classifyLowered200k m = NETWORK_ERROR)
  \/ (~ alreadyKnownText m /\ ~ nonceText m /\ ~ networkText m
      /\ occurs_in "replacement transaction underpriced" m
      /\ classifyLowered200k m = REPLACEMENT_UNDERPRICED)
  \/ (~ alreadyKnownText m /\ ~ nonceText m /\ ~ networkText m
      /\ ~ occurs_in "replacement transaction underpriced" m
      /\ classifyLowered200k m = UNKNOWN_ERROR).
Proof.
  unfold classifyLowered200k.
  destruct (includes m "already known" || includes m "transaction already exists") eqn:H1.
  { left. split; [apply alreadyKnown_test, H1 | reflexivity]. }
  apply (test_false _ _ (alreadyKnown_test m)) in H1. right.
  destruct (includes m "nonce" && (includes m "too low" || includes m "already been used")) eqn:H2.
  { left. repeat split; [exact H1 | apply nonce_test, H2 ..]. }
  apply (test_false _ _ (nonce_test m)) in H2. right.
  destruct (includes m "timeout" || includes m "econnreset" || includes m "network") eqn:H3.
  { left. repeat split; [exact H1 | exact H2 | apply network_test, H3]. }
  apply (test_false _ _ (network_test m)) in H3. right.
  destruct (includes m "replacement transaction underpriced") eqn:H4.
  { left. repeat split; [exact H1 | exact H2 | exact H3 | apply includes_occurs, H4]. }
  apply includes_not_occurs in H4. right. repeat split; assumption.
Qed.

End ClassifyFacts.

Section ClassifyTheorems.
Import JsString Classify.

(** C10.  Error classification is a function of the lowercased message
    alone (two messages with the same lowercase text get the same class,
    in both scripts), tested in a fixed order with [ALREADY_KNOWN] first:
    a message is [ALREADY_KNOWN] exactly when its lowercase text contains
    [already known] or [transaction already exists], whatever else it
    contains; it is [NONCE_ERROR] exactly when it is not [ALREADY_KNOWN]
    and its lowercase text contains [nonce] together with [too low] or
    [already been used]; it is [UNKNOWN_ERROR] exactly when its lowercase
    text matches no pattern of the script. *)
Theorem classifyError_precedence :
  (forall e1 e2 : string, toLowerCase e1 = toLowerCase e2 ->
     classifyError e1 = classifyError e2
     /\ classifyError200k e1 = classifyError200k e2)
  /\ (forall e : string,
        (classifyError e = ALREADY_KNOWN <-> alreadyKnownText (toLowerCase e))
        /\ (classifyError200k e = ALREADY_KNOWN <-> alreadyKnownText (toLowerCase e)))
  /\ (forall e : string,
        (classifyError e = NONCE_ERROR
         <-> ~ alreadyKnownText (toLowerCase e) /\ nonceText (toLowerCase e))
        /\ (classifyError200k e = NONCE_ERROR
            <-> ~ alreadyKnownText (toLowerCase e) /\ nonceText (toLowerCase e)))
  /\ (forall e : string,
        classifyError e = UNKNOWN_ERROR
        <-> ~ alreadyKnownText (toLowerCase e) /\ ~ nonceText (toLowerCase e)
            /\ ~ networkText (toLowerCase e)
            /\ ~ occurs_in "-32000" (toLowerCase e)
            /\ ~ occurs_in "insufficient funds" (toLowerCase e))
  /\ (forall e : string,
        classifyError200k e = UNKNOWN_ERROR
        <-> ~ alreadyKnownText (toLowerCase e) /\ ~ nonceText (toLowerCase e)
            /\ ~ networkText (toLowerCase e)
            /\ ~ occurs_in "replacement transaction underpriced" (toLowerCase e)).
Proof.
  split; [|split; [|split; [|split]]].
  - intros e1 e2 H. unfold classifyError, classifyError200k. rewrite H. split; reflexivity.
  - intros e. unfold classifyError, classifyError200k. split.
    + pose proof (classifyLowered_cases (toLowerCase e)) as Hc.
      split; intros H; decompose [and or] Hc; try congruence; try contradiction.
    + pose proof (classifyLowered200k_cases (toLowerCase e)) as Hc.
      split; intros H; decompose [and or] Hc; try congruence; try contradiction.
  - intros e. unfold classifyError, classifyError200k. split.
    + pose proof (classifyLowered_cases (toLowerCase e)) as Hc.
      split; [intros H|intros [H1 H2]]; decompose [and or] Hc;
        try congruence; try contradiction; auto.
    + pose proof (classifyLowered200k_cases (toLowerCase e)) as Hc.
      split; [intros H|intros [H1 H2]]; decompose [and or] Hc;
        try congruence; try contradiction; auto.
  - intros e. unfold classifyError.
    pose proof (classifyLowered_cases (toLowerCase e)) as Hc.
    split; [intros H|intros (H1 & H2 & H3 & H4 & H5)]; decompose [and or] Hc;
      try congruence; try contradiction; auto 6.
  - intros e. unfold classifyError200k.
    pose proof (classifyLowered200k_cases (toLowerCase e)) as Hc.
    split; [intros H|intros (H1 & H2 & H3 & H4)]; decompose [and or] Hc;
      try congruence; try contradiction; auto 6.
Qed.

(** A message in capitals with nonce and network keywords and
    [already known]. *)
Lemma classifyError_precedence_witness :
  classifyError "Nonce too low: ALREADY KNOWN on this Network" = ALREADY_KNOWN
  /\ classifyError200k "Nonce too low: ALREADY KNOWN on this Network" = ALREADY_KNOWN.
Proof.
  assert (alreadyKnownText (toLowerCase "Nonce too low: ALREADY KNOWN on this Network"))
    as H by (left; exists "nonce too low: ", " on this network"; reflexivity).
  destruct (proj1 (proj2 classifyError_precedence)
              "Nonce too low: ALREADY KNOWN on this Network") as [H1 H2].
  split; [apply H1, H|apply H2, H].
Defined.

End ClassifyTheorems.

(** ** The pending tokens *)

Section PendingFacts.
Import Js Model Engine Snapshot Scheduler.

Lemma StronglySorted_seqZ (m n : Z) : StronglySorted Z.lt (seqZ m n).
Proof.
  remember (Z.to_nat n) as k eqn:Hk. revert m n Hk.
  induction k as [|k IH]; intros m n Hk.
  - rewrite seqZ_nil by lia. constructor.
  - rewrite seqZ_cons by lia. constructor.
    + apply IH. lia.
    + apply Forall_seqZ. intros; lia.
Qed.

Lemma StronglySorted_filter {A} (R : A -> A -> Prop) (P : A -> Prop)
    `{forall x, Decision (P x)} (l : list A) :
  StronglySorted R l -> StronglySorted R (filter P l).
Proof.
  induction 1 as [|x l Hl IH Hx]; [constructor|].
  rewrite filter_cons. destruct (decide (P x)); [|assumption].
  constructor; [assumption|].
  apply Forall_forall. intros y [_ Hy]%list_elem_of_filter.
  rewrite Forall_forall in Hx. apply Hx, Hy.
Qed.

Lemma isPending_spec (w : World) (tokenId : Z) :
  isPending w tokenId = true <->
  token w tokenId = None
  \/ status w tokenId = Some (JsStr "pending")
  \/ status w tokenId = Some (JsStr "failed").
Proof.
  unfold isPending, status. destruct (token w tokenId) as [r|]; simpl.
  - rewrite orb_true_iff. unfold isStr.
    destruct (r !! "status") as [[| |z|s|b]|]; simpl;
      try (split; [intros [?|?]; discriminate | intros [?|[?|?]]; discriminate]).
    rewrite !String.eqb_eq. split.
    + intros [->| ->]; auto.
    + intros [?|[?|?]]; [discriminate| |]; left + right; congruence.
  - split; auto.
Qed.

Lemma completed_not_pending (w : World) (tokenId : Z) :
  completed w tokenId -> isPending w tokenId = false.
Proof.
  unfold completed. intros H. destruct (isPending w tokenId) eqn:Hp; [|reflexivity].
  apply isPending_spec in Hp as [Hp|[Hp|Hp]].
  - unfold status in H. rewrite Hp in H. discriminate.
  - rewrite Hp in H. discriminate.
  - rewrite Hp in H. discriminate.
Qed.

Lemma elem_of_pendingTokens (cfg : Config) (w : World) (tokenId : Z) :
  tokenId ∈ pendingTokens cfg w <->
  START_TOKEN_ID cfg <= tokenId <= END_TOKEN_ID cfg /\ isPending w tokenId = true.
Proof.
  unfold pendingTokens, findPendingTokens. simpl.
  rewrite list_elem_of_filter, elem_of_seqZ. intuition lia.
Qed.

Lemma NoDup_pendingTokens (cfg : Config) (w : World) : NoDup (pendingTokens cfg w).
Proof. apply NoDup_filter, NoDup_seqZ. Qed.

End PendingFacts.

(** ** Resumption *)

Section ResumeTheorems.
Import Js Model Engine Snapshot Scheduler.





End ResumeTheorems.

(** ** The signer pool *)

Section PoolFacts.
Import Js Model SignerPool.

Lemma reactivateAll_lookup (now : Z) (n : nat) (states : list SignerState) (i : nat) :
  reactivateAll now n states !! i
  = (if decide (i < n)%nat then reactivate now else id) <$> states !! i.
Proof.
  unfold reactivateAll. revert n i. induction states as [|s states IH]; intros n i.
  - rewrite take_nil, drop_nil. simpl. reflexivity.
  - destruct n as [|n]; simpl.
    + destruct (decide (i < 0)%nat); [lia|]. destruct ((s :: states) !! i); reflexivity.
    + destruct i as [|i]; simpl.
      * destruct (decide (0 < S n)%nat); [reflexivity|lia].
      * rewrite IH.
        destruct (decide (i < n)%nat), (decide (S i < S n)%nat); try lia; reflexivity.
Qed.

Lemma reactivate_active (now : Z) (s : SignerState) :
  isBackedOff (reactivate now s) = false
  <-> isBackedOff s = false \/ backoffUntil s < now.
Proof.
  unfold reactivate. destruct (isBackedOff s) eqn:Hb; simpl.
  - destruct (backoffUntil s <? now) eqn:Ht; simpl.
    + apply Z.ltb_lt in Ht. tauto.
    + apply Z.ltb_ge in Ht. rewrite Hb. split; [discriminate|]. intros [?|?]; [discriminate|lia].
  - rewrite Hb. tauto.
Qed.

Lemma elem_of_activeSigners (states : list SignerState) (i : nat) (s : SignerState) :
  (i, s) ∈ activeSigners states <-> states !! i = Some s /\ isBackedOff s = false.
Proof.
  unfold activeSigners. rewrite list_elem_of_filter, elem_of_lookup_imap. simpl. split.
  - intros [Hb (j & y & Heq & Hl)]. injection Heq as -> ->. auto.
  - intros [Hl Hb]. split; [assumption|]. eauto.
Qed.

Lemma insertByLastUsed_perm (x : nat * SignerState) (l : list (nat * SignerState)) :
  insertByLastUsed x l ≡ₚ x :: l.
Proof.
  induction l as [|y l IH]; simpl; [reflexivity|].
  destruct (lastUsed x.2 <=? lastUsed y.2); [reflexivity|].
  rewrite IH. apply Permutation_swap.
Qed.

Lemma sortByLastUsed_perm (l : list (nat * SignerState)) : sortByLastUsed l ≡ₚ l.
Proof.
  induction l as [|x l IH]; simpl; [reflexivity|].
  rewrite insertByLastUsed_perm, IH. reflexivity.
Qed.

Lemma oldestSignerIndex_Some (states : list SignerState) (i : nat) :
  oldestSignerIndex states = Some i ->
  exists s, states !! i = Some s /\ isBackedOff s = false.
Proof.
  unfold oldestSignerIndex. intros H.
  destruct (head _) as [[j s]|] eqn:Hh; [|discriminate]. simpl in H. injection H as ->.
  apply head_Some_elem_of in Hh. rewrite sortByLastUsed_perm in Hh.
  apply elem_of_activeSigners in Hh. eauto.
Qed.

Lemma oldestSignerIndex_None (states : list SignerState) :
  oldestSignerIndex states = None ->
  forall i s, states !! i = Some s -> isBackedOff s = true.
Proof.
  unfold oldestSignerIndex. intros H i s Hl.
  destruct (head _) as [p|] eqn:Hh; [discriminate|].
  apply head_None in Hh.
  destruct (isBackedOff s) eqn:Hb; [reflexivity|].
  assert ((i, s) ∈ sortByLastUsed (activeSigners states)) as Hin.
  { rewrite sortByLastUsed_perm. apply elem_of_activeSigners. auto. }
  rewrite Hh in Hin. inversion Hin.
Qed.

Lemma findLoop_Some (n : nat) (o : option nat) (i : nat) :
  findLoop n o = Some i -> o = Some i /\ (0 < n)%nat.
Proof.
  induction n as [|n IH]; simpl; [discriminate|].
  destruct o as [j|]; [intros [= ->]; split; [reflexivity|lia]|].
  intros H. apply IH in H as [? _]. discriminate.
Qed.

Lemma findLoop_None (n : nat) (o : option nat) :
  findLoop n o = None -> o = None \/ n = O.
Proof. destruct n; simpl; [auto|]. destruct o; [discriminate|auto]. Qed.

Lemma selectable_iff (now : Z) (w : World) (i : nat) (s : SignerState) :
  signerStates w !! i = Some s ->
  (selectable now w i
   <-> isBackedOff s = false \/ ((i < length (signers w))%nat /\ backoffUntil s < now)).
Proof.
  intros Hl. unfold selectable. split.
  - intros [s' Hs']. apply elem_of_activeSigners in Hs' as [Hs' Hb].
    rewrite reactivateAll_lookup, Hl in Hs'. simpl in Hs'. injection Hs' as <-.
    destruct (decide (i < length (signers w))%nat).
    + apply reactivate_active in Hb. tauto.
    + auto.
  - intros H.
    exists ((if decide (i < length (signers w))%nat then reactivate now else id) s).
    apply elem_of_activeSigners. rewrite reactivateAll_lookup, Hl. split; [reflexivity|].
    destruct (decide (i < length (signers w))%nat).
    + apply reactivate_active. tauto.
    + simpl. destruct H as [?|[? _]]; [assumption|lia].
Qed.

Lemma acquire_selectable (now : Z) (w : World) (sd : SignerData) (w' : World) :
  getNextAvailableSigner now w = (Some sd, w') -> selectable now w (index sd).
Proof.
  unfold getNextAvailableSigner.
  destruct (findLoop _ _) as [i|] eqn:Hf; [|discriminate].
  intros [= <- _]. simpl. apply findLoop_Some in Hf as [Ho _].
  apply oldestSignerIndex_Some in Ho as (s & Hs & Hb).
  exists s. apply elem_of_activeSigners. auto.
Qed.

Lemma acquire_succeeds (now : Z) (w : World) :
  signers w <> [] -> (exists i, selectable now w i) ->
  exists sd, fst (getNextAvailableSigner now w) = Some sd.
Proof.
  intros Hne [i [s Hs]]. unfold getNextAvailableSigner.
  destruct (findLoop _ _) as [j|] eqn:Hf; [eauto|].
  apply findLoop_None in Hf as [Ho|Hn].
  - apply elem_of_activeSigners in Hs as [Hs Hb].
    rewrite (oldestSignerIndex_None _ Ho _ _ Hs) in Hb. discriminate.
  - destruct (signers w); [congruence|discriminate].
Qed.

Lemma inBackoff_not_selectable (until now : Z) (w : World) (i : nat) :
  inBackoff until w i -> now <= until -> ~ selectable now w i.
Proof.
  intros (s & Hs & Hb & Hu) Hn Hsel.
  apply (selectable_iff now w i s Hs) in Hsel as [Hf|[_ Hlt]]; [congruence|lia].
Qed.

Lemma reactivate_inBackoff (until now : Z) (s : SignerState) :
  isBackedOff s = true -> until <= backoffUntil s -> now <= until ->
  reactivate now s = s.
Proof.
  intros Hb Hu Hn. unfold reactivate. rewrite Hb.
  destruct (backoffUntil s <? now) eqn:Ht; [apply Z.ltb_lt in Ht; lia|reflexivity].
Qed.

Lemma acquire_keeps_backoff (until now : Z) (w : World) (i : nat) :
  inBackoff until w i -> now <= until ->
  inBackoff until (snd (getNextAvailableSigner now w)) i
  /\ index <$> fst (getNextAvailableSigner now w) <> Some i.
Proof.
  intros Hin Hn. pose proof Hin as (s & Hs & Hb & Hu).
  assert (reactivateAll now (length (signers w)) (signerStates w) !! i = Some s) as Hr.
  { rewrite reactivateAll_lookup, Hs. simpl.
    destruct (decide _); [|reflexivity].
    rewrite (reactivate_inBackoff until now s Hb Hu Hn). reflexivity. }
  split.
  - unfold getNextAvailableSigner.
    destruct (findLoop _ _) as [j|] eqn:Hf; simpl.
    + exists s. split; [|auto]. simpl.
      rewrite list_lookup_alter. destruct (decide (j = i)) as [->|]; [|assumption].
      apply findLoop_Some in Hf as [Ho _].
      apply oldestSignerIndex_Some in Ho as (s' & Hs' & Hb'). congruence.
    + exists s. auto.
  - destruct (getNextAvailableSigner now w) as [[sd|] w'] eqn:Hg; simpl; [|discriminate].
    intros [= Hi]. apply acquire_selectable in Hg. rewrite Hi in Hg.
    exact (inBackoff_not_selectable until now w i Hin Hn Hg).
Qed.

Lemma success_keeps_backoff (until : Z) (w : World) (i j : nat) :
  inBackoff until w i -> inBackoff until (default w (handleSignerSuccess j w)) i.
Proof.
  intros (s & Hs & Hb & Hu). unfold handleSignerSuccess.
  destruct (signerStates w !! j) as [sj|] eqn:Hj; simpl; [|exists s; auto].
  destruct (signerStats (mintLog w) !! j) as [st|]; simpl; [|exists s; auto].
  unfold inBackoff. simpl. rewrite list_lookup_insert.
  destruct (decide (j = i ∧ (j < length (signerStates w))%nat)) as [[-> _]|].
  - eexists. split; [reflexivity|]. simpl. split; congruence.
  - exists s. auto.
Qed.

Lemma failure_keeps_backoff (cfg : Config) (until now : Z) (w : World) (i j : nat) :
  inBackoff until w i -> until <= now + SIGNER_BACKOFF_DURATION cfg ->
  inBackoff until (default w (handleSignerFailure cfg now j w)) i.
Proof.
  intros (s & Hs & Hb & Hu) Hn. unfold handleSignerFailure.
  destruct (signerStates w !! j) as [sj|] eqn:Hj; simpl; [|exists s; auto].
  destruct (signerStats (mintLog w) !! j) as [st|]; simpl; [|exists s; auto].
  unfold inBackoff. simpl. rewrite list_lookup_insert.
  destruct (decide (j = i ∧ (j < length (signerStates w))%nat)) as [[-> _]|].
  - eexists. split; [reflexivity|]. simpl.
    assert (sj = s) as -> by congruence.
    destruct (SIGNER_BACKOFF_THRESHOLD cfg <=? consecutiveFailures s + 1); split; auto.
  - exists s. auto.
Qed.

Lemma backoff_excludes (cfg : Config) (since until : Z) (i : nat)
    (ops : list PoolOp) (w : World) :
  until <= since + SIGNER_BACKOFF_DURATION cfg ->
  inBackoff until w i -> Forall (during since until) ops ->
  i ∉ acquired cfg ops w.
Proof.
  intros Hd Hin Hops. revert w Hin.
  induction Hops as [|op ops Hop _ IH]; intros w Hin; simpl; [apply not_elem_of_nil|].
  destruct op as [now|now j|j]; simpl in *.
  - destruct (acquire_keeps_backoff until now w i Hin) as [Hk Hne]; [lia|].
    destruct (getNextAvailableSigner now w) as [[sd|] w']; simpl in *.
    + apply not_elem_of_cons. split; [congruence|]. apply IH, Hk.
    + apply IH, Hk.
  - apply IH, failure_keeps_backoff; [assumption|lia].
  - apply IH, success_keeps_backoff, Hin.
Qed.

Lemma failure_at_threshold (cfg : Config) (now : Z) (i : nat) (w w' : World)
    (s : SignerState) :
  signerStates w !! i = Some s ->
  handleSignerFailure cfg now i w = Some w' ->
  SIGNER_BACKOFF_THRESHOLD cfg <= consecutiveFailures s + 1 ->
  exists s', signerStates w' !! i = Some s' /\ isBackedOff s' = true
             /\ backoffUntil s' = now + SIGNER_BACKOFF_DURATION cfg.
Proof.
  intros Hs Hf Ht. unfold handleSignerFailure in Hf. rewrite Hs in Hf. simpl in Hf.
  destruct (signerStats (mintLog w) !! i) as [st|]; [|discriminate].
  simpl in Hf. injection Hf as <-. simpl.
  eexists. split.
  - apply list_lookup_insert_eq. apply lookup_lt_Some in Hs. exact Hs.
  - simpl. apply Z.leb_le in Ht. rewrite Ht. auto.
Qed.

Lemma success_resets (i : nat) (w w' : World) :
  handleSignerSuccess i w = Some w' ->
  exists s', signerStates w' !! i = Some s' /\ consecutiveFailures s' = 0.
Proof.
  unfold handleSignerSuccess. intros Hf.
  destruct (signerStates w !! i) as [s|] eqn:Hs; [|discriminate]. simpl in Hf.
  destruct (signerStats (mintLog w) !! i) as [st|]; [|discriminate].
  simpl in Hf. injection Hf as <-. simpl.
  eexists. split.
  - apply list_lookup_insert_eq. apply lookup_lt_Some in Hs. exact Hs.
  - reflexivity.
Qed.

Lemma reactivation_resets (now : Z) (w : World) (i : nat) (s : SignerState) :
  signerStates w !! i = Some s -> (i < length (signers w))%nat ->
  isBackedOff s = true -> backoffUntil s < now ->
  exists s', signerStates (snd (getNextAvailableSigner now w)) !! i = Some s'
             /\ isBackedOff s' = false /\ consecutiveFailures s' = 0.
Proof.
  intros Hs Hi Hb Ht.
  assert (reactivateAll now (length (signers w)) (signerStates w) !! i
          = Some (reactivate now s)) as Hr.
  { rewrite reactivateAll_lookup, Hs. simpl. destruct (decide _); [reflexivity|lia]. }
  assert (isBackedOff (reactivate now s) = false
          /\ consecutiveFailures (reactivate now s) = 0) as [H1 H2].
  { unfold reactivate. rewrite Hb. apply Z.ltb_lt in Ht. rewrite Ht. simpl. auto. }
  unfold getNextAvailableSigner. destruct (findLoop _ _) as [j|]; simpl.
  - rewrite list_lookup_alter. destruct (decide (j = i)) as [->|].
    + rewrite Hr. simpl. eexists. split; [reflexivity|]. simpl. auto.
    + eauto.
  - eauto.
Qed.

End PoolFacts.

Section PoolTheorems.
Import Js Model SignerPool.

(** C5, as the code has it.  A signer is selectable by
    [getNextAvailableSigner] if and only if it is not flagged as backed
    off or [now > backoffUntil] (strictly; the reactivation loop then
    clears the flag), and the function returns a selectable signer
    whenever there is one.  When [handleSignerFailure] brings
    [consecutiveFailures] to the threshold, [backoffUntil] becomes
    [now + SIGNER_BACKOFF_DURATION] and no call of
    [getNextAvailableSigner] up to that time returns the signer, whatever
    other calls on the pool come in between.  [consecutiveFailures] is 0
    after a success and after the exit from backoff. *)
Theorem signer_backoff (cfg : Config) :
  (forall (now : Z) (w : World) (i : nat) (s : SignerState),
     signerStates w !! i = Some s ->
     (selectable now w i
      <-> isBackedOff s = false
          \/ ((i < length (signers w))%nat /\ backoffUntil s < now)))
  /\ (forall (now : Z) (w : World) (sd : SignerData) (w' : World),
        getNextAvailableSigner now w = (Some sd, w') -> selectable now w (index sd))
  /\ (forall (now : Z) (w : World),
        signers w <> [] -> (exists i, selectable now w i) ->
        exists sd, fst (getNextAvailableSigner now w) = Some sd)
  /\ (forall (now : Z) (i : nat) (w w' : World) (s : SignerState),
        signerStates w !! i = Some s ->
        handleSignerFailure cfg now i w = Some w' ->
        SIGNER_BACKOFF_THRESHOLD cfg <= consecutiveFailures s + 1 ->
        (exists s', signerStates w' !! i = Some s' /\ isBackedOff s' = true
                    /\ backoffUntil s' = now + SIGNER_BACKOFF_DURATION cfg)
        /\ forall ops : list PoolOp,
             Forall (during now (now + SIGNER_BACKOFF_DURATION cfg)) ops ->
             i ∉ acquired cfg ops w')
  /\ (forall (i : nat) (w w' : World),
        handleSignerSuccess i w = Some w' ->
        exists s', signerStates w' !! i = Some s' /\ consecutiveFailures s' = 0)
  /\ (forall (now : Z) (w : World) (i : nat) (s : SignerState),
        signerStates w !! i = Some s -> (i < length (signers w))%nat ->
        isBackedOff s = true -> backoffUntil s < now ->
        exists s', signerStates (snd (getNextAvailableSigner now w)) !! i = Some s'
                   /\ isBackedOff s' = false /\ consecutiveFailures s' = 0).
Proof.
  split; [|split; [|split; [|split; [|split]]]].
  - apply selectable_iff.
  - apply acquire_selectable.
  - apply acquire_succeeds.
  - intros now i w w' s Hs Hf Ht.
    destruct (failure_at_threshold cfg now i w w' s Hs Hf Ht) as (s' & Hs' & Hb & Hu).
    split; [eauto|]. intros ops Hops.
    apply (backoff_excludes cfg now (now + SIGNER_BACKOFF_DURATION cfg)); [lia| |assumption].
    exists s'. repeat split; [assumption..|lia].
  - apply success_resets.
  - apply reactivation_resets.
Qed.

(** The third failure in a row at time 1000, threshold 3 and 30 s of
    backoff: calls up to time 31000 do not return the signer. *)
Lemma signer_backoff_witness :
  0%nat ∉ acquired Examples.smallConfig
            [Acquire 1000; Failure 2000 0; Acquire 20000; Success 0; Acquire 31000]
            Examples.backedOffWorld.
Proof.
  refine (proj2 (proj1 (proj2 (proj2 (proj2 (signer_backoff Examples.smallConfig))))
                   1000 0%nat Examples.failedTwice Examples.backedOffWorld
                   {| consecutiveFailures := 2; isBackedOff := false; backoffUntil := 0;
                      totalMinted := 0; totalFailed := 2; lastUsed := 1000 |}
                   _ _ _) _ _).
  - reflexivity.
  - reflexivity.
  - simpl. lia.
  - repeat constructor; simpl; lia.
Defined.

(** C5 as stated fails at the boundary: at [now = backoffUntil] the
    signer is still in backoff, and [getNextAvailableSigner] returns
    [null] although [now >= backoffUntil]. *)
Lemma backoff_boundary_counterexample :
  (exists s, signerStates Examples.backedOffWorld !! 0%nat = Some s
             /\ isBackedOff s = true /\ backoffUntil s = 31000)
  /\ ~ selectable 31000 Examples.backedOffWorld 0
  /\ fst (getNextAvailableSigner 31000 Examples.backedOffWorld) = None
  /\ (exists sd, fst (getNextAvailableSigner 31001 Examples.backedOffWorld) = Some sd).
Proof.
  split; [|split; [|split]].
  - eexists. split; [reflexivity|]. split; reflexivity.
  - intros H.
    eapply (selectable_iff 31000 Examples.backedOffWorld 0) in H; [|reflexivity].
    simpl in H. destruct H as [H|[_ H]]; [discriminate|lia].
  - reflexivity.
  - eexists. reflexivity.
Qed.

End PoolTheorems.

(** ** The submission engine and the scheduler *)

Section EngineFacts.
Import Js JsString Classify Model SignerPool Engine Scheduler.

Lemma token_set_token (w : World) (tokenId tokenId' : Z) (r : JsObject) :
  token (set_token w tokenId r) tokenId'
  = if decide (tokenId = tokenId') then Some r else token w tokenId'.
Proof. unfold token, set_token. simpl. apply lookup_insert. Qed.

Lemma acquire_mintLog (now : Z) (w : World) :
  mintLog (snd (getNextAvailableSigner now w)) = mintLog w.
Proof. unfold getNextAvailableSigner. destruct (findLoop _ _); reflexivity. Qed.

Lemma failure_tokens (cfg : Config) (now : Z) (i : nat) (w w' : World) :
  handleSignerFailure cfg now i w = Some w' ->
  tokens (mintLog w') = tokens (mintLog w) /\ summary (mintLog w') = summary (mintLog w).
Proof.
  unfold handleSignerFailure. destruct (signerStates w !! i); [|discriminate]. simpl.
  destruct (signerStats (mintLog w) !! i); [|discriminate]. simpl.
  intros [= <-]. split; reflexivity.
Qed.

Lemma success_tokens (i : nat) (w w' : World) :
  handleSignerSuccess i w = Some w' ->
  tokens (mintLog w') = tokens (mintLog w) /\ summary (mintLog w') = summary (mintLog w).
Proof.
  unfold handleSignerSuccess. destruct (signerStates w !! i); [|discriminate]. simpl.
  destruct (signerStats (mintLog w) !! i); [|discriminate]. simpl.
  intros [= <-]. split; reflexivity.
Qed.

Lemma token_countSuccess (w : World) (tokenId : Z) :
  token (countSuccess w) tokenId = token w tokenId.
Proof. reflexivity. Qed.

Lemma token_countFailure (w : World) (tokenId : Z) :
  token (countFailure w) tokenId = token w tokenId.
Proof. reflexivity. Qed.

Lemma touchesOnly_refl (tokenId : Z) (w : World) : touchesOnly tokenId w w.
Proof. intros ? _. reflexivity. Qed.

Lemma touchesOnly_set (tokenId : Z) (w w' : World) (r : JsObject) :
  tokens (mintLog w') = tokens (mintLog w) ->
  touchesOnly tokenId w (set_token w' tokenId r).
Proof.
  intros H t Ht. rewrite token_set_token. destruct (decide (tokenId = t)); [congruence|].
  unfold token. rewrite H. reflexivity.
Qed.

Lemma enter_frame (w : World) (tokenId : Z) (rc : nat) (now : Z)
    (w' : World) (t' : Task) (ops : list ChainOp) :
  enter w tokenId rc now = (w', t', ops) ->
  touchesOnly tokenId w w'
  /\ settled t' = false
  /\ (status w' tokenId = status w tokenId
      \/ (token w tokenId = None /\ status w' tokenId = Some (JsStr "pending"))).
Proof.
  unfold enter. pose proof (acquire_mintLog now w) as Hm.
  destruct (getNextAvailableSigner now w) as [[sd|] w1]; simpl in Hm; intros [= <- <- <-].
  - split; [apply touchesOnly_set; congruence|]. split; [reflexivity|].
    unfold status. rewrite token_set_token. destruct (decide _); [|congruence]. simpl.
    unfold token. rewrite Hm. destruct (tokens (mintLog w) !! tokenId) as [r|] eqn:Hr; simpl.
    + left. rewrite lookup_insert_ne by done. reflexivity.
    + right. split; [reflexivity|]. reflexivity.
  - split; [|split; [reflexivity|left]].
    + intros t _. unfold token. rewrite Hm. reflexivity.
    + unfold status, token. rewrite Hm. reflexivity.
Qed.

Lemma catchBlock_frame (cfg : Config) (w : World) (tokenId : Z) (rc : nat)
    (message : string) (now : Z) (w' : World) (t' : Task) (ops : list ChainOp) :
  catchBlock cfg w tokenId rc message now = (w', t', ops) ->
  touchesOnly tokenId w w'
  /\ ops = []
  /\ (settled t' = true \/ (t' = Entry (S rc) /\ status w' tokenId = status w tokenId)).
Proof.
  unfold catchBlock.
  destruct (decide (classifyError message = ALREADY_KNOWN)).
  - destruct (asIndex _ ≫= _) as [w1|] eqn:H1; intros [= <- <- <-].
    + apply bind_Some in H1 as (i & _ & H1). apply success_tokens in H1 as [H1 _].
      split; [|split; [reflexivity|left; reflexivity]].
      intros t Ht. rewrite token_countSuccess. apply touchesOnly_set; assumption.
    + split; [apply touchesOnly_refl|]. split; [reflexivity|left; reflexivity].
  - set (stored := token w tokenId ≫= _).
    destruct (match stored with Some v => _ | None => Some w end) as [w1|] eqn:H1.
    + assert (tokens (mintLog w1) = tokens (mintLog w)) as Ht1.
      { destruct stored as [v|]; [|congruence].
        apply bind_Some in H1 as (i & _ & H1). apply failure_tokens in H1 as [H1 _].
        exact H1. }
      destruct (token w1 tokenId) as [r|] eqn:Hr.
      * destruct (rc <? RETRY_ATTEMPTS cfg)%nat; intros [= <- <- <-].
        -- split; [apply touchesOnly_set; assumption|]. split; [reflexivity|right].
           split; [reflexivity|]. unfold status. rewrite token_set_token.
           destruct (decide _); [|congruence]. simpl.
           rewrite lookup_insert_ne by done.
           unfold token in *. rewrite Ht1 in Hr. rewrite Hr. reflexivity.
        -- split; [|split; [reflexivity|left; reflexivity]].
           intros t Ht. rewrite token_countFailure, token_set_token.
           destruct (decide _); [congruence|]. rewrite token_set_token.
           destruct (decide _); [congruence|]. unfold token. rewrite Ht1. reflexivity.
      * intros [= <- <- <-].
        split; [apply touchesOnly_refl|]. split; [reflexivity|left; reflexivity].
    + intros [= <- <- <-].
      split; [apply touchesOnly_refl|]. split; [reflexivity|left; reflexivity].
Qed.

Lemma onReceipt_frame (cfg : Config) (w : World) (tokenId : Z) (rc : nat)
    (sd : SignerData) (nonce : Z) (receipt : Receipt) (now : Z)
    (w' : World) (t' : Task) (ops : list ChainOp) :
  onReceipt cfg w tokenId rc sd nonce receipt now = (w', t', ops) ->
  touchesOnly tokenId w w'
  /\ ops = []
  /\ (settled t' = true \/ (t' = Entry (S rc) /\ status w' tokenId = status w tokenId)).
Proof.
  unfold onReceipt. destruct (handleSignerSuccess (index sd) w) as [w1|] eqn:H1.
  - intros [= <- <- <-]. apply success_tokens in H1 as [H1 _].
    split; [|split; [reflexivity|left; reflexivity]].
    intros t Ht. rewrite token_countSuccess. apply touchesOnly_set; assumption.
  - apply catchBlock_frame.
Qed.

(** One step of a call: other records are untouched, and unless the call
    settles the status of its own record stays, or a missing record is
    created as [pending]. *)
Lemma step_frame (cfg : Config) (w : World) (tokenId : Z) (t : Task) (i : Input)
    (w' : World) (t' : Task) (ops : list ChainOp) :
  step cfg w tokenId t i = Some (w', t', ops) ->
  settled t = false
  /\ touchesOnly tokenId w w'
  /\ (settled t' = true
      \/ status w' tokenId = status w tokenId
      \/ (token w tokenId = None /\ status w' tokenId = Some (JsStr "pending"))).
Proof.
  destruct t as [|rc|rc sd|rc sd nonce|b|]; destruct i as [now|now chain|now [receipt|message]];
    simpl; try discriminate.
  - intros [= H]. apply enter_frame in H as (H1 & H2 & H3). tauto.
  - intros [= H]. apply enter_frame in H as (H1 & H2 & H3). tauto.
  - destruct (getFreshNonce chain w (index sd)) as [nonce|message].
    + intros [= <- <- <-]. split; [reflexivity|]. split; [apply touchesOnly_refl|auto].
    + intros [= H]. apply catchBlock_frame in H as (H1 & _ & [H3|[_ H3]]); (split; [reflexivity|tauto]).
  - intros [= H]. apply onReceipt_frame in H as (H1 & _ & [H3|[_ H3]]); (split; [reflexivity|tauto]).
  - intros [= H]. apply catchBlock_frame in H as (H1 & _ & [H3|[_ H3]]); (split; [reflexivity|tauto]).
Qed.

End EngineFacts.

Section SchedulerFacts.
Import Js JsString Classify Model SignerPool Engine Snapshot Scheduler.

Lemma map_fst_startBatch (batch : list Z) : fst <$> startBatch batch = batch.
Proof.
  unfold startBatch. induction batch as [|x batch IH]; [reflexivity|].
  cbn [map fmap list_fmap fst] in *. rewrite IH. reflexivity.
Qed.

Lemma elem_of_startBatch (batch : list Z) (tokenId : Z) (t : Task) :
  (tokenId, t) ∈ startBatch batch -> tokenId ∈ batch /\ t = Queued.
Proof.
  unfold startBatch. intros H%list_elem_of_In%in_map_iff.
  destruct H as (x & [= -> <-] & Hx%list_elem_of_In). auto.
Qed.

Lemma next_batch_invariant (cfg : Config) (w : World) (d : Disk) (l : list Z) :
  NoDup l -> (forall tokenId, tokenId ∈ l -> ~ completed w tokenId) ->
  invariant {| world := w; disk := d;
               phase := Batching (startBatch (take (BATCH_SIZE cfg) l))
                                 (drop (BATCH_SIZE cfg) l) |}.
Proof.
  intros Hnd Hc. unfold invariant. simpl. rewrite map_fst_startBatch, take_drop.
  split; [assumption|]. split.
  - intros tokenId t [Hin ->]%elem_of_startBatch Hcomp.
    exfalso. eapply Hc; [|eassumption]. eapply elem_of_sublist; [exact Hin|apply sublist_take].
  - intros tokenId Hin. apply Hc. eapply elem_of_sublist; [exact Hin|apply sublist_drop].
Qed.

Lemma initializeBlockchain_tokens (cfg : Config) (now : Z) (ok : InitAnswer) (w : World) :
  tokens (mintLog (fst (initializeBlockchain cfg now ok w))) = tokens (mintLog w).
Proof. unfold initializeBlockchain. destruct ok, (SIGNER_KEYS cfg); reflexivity. Qed.

(** [initializeBlockchain] throws, with the providers assigned, or sets
    up the signers. *)
Lemma initializeBlockchain_cases (cfg : Config) (now : Z) (init : InitAnswer) (w : World) :
  initializeBlockchain cfg now init w
  = ({| mintLog := mintLog w; providers := RPC_ENDPOINTS cfg;
        signers := signers w; signerStates := signerStates w |}, None)
  \/ exists ops,
       initializeBlockchain cfg now init w
       = (initializeSignerStates now
            {| mintLog := mintLog w; providers := RPC_ENDPOINTS cfg;
               signers := SIGNER_KEYS cfg; signerStates := signerStates w |}, Some ops).
Proof.
  unfold initializeBlockchain. destruct init, (SIGNER_KEYS cfg); eauto.
Qed.

Lemma main_invariant (cfg : Config) (now : Z) (init : InitAnswer) (d : Disk) :
  invariant (fst (main cfg now init d)).
Proof.
  unfold main. destruct (loadExistingProgress cfg d initialWorld) as [w|]; [|exact I].
  pose proof (NoDup_pendingTokens cfg w) as Hnd.
  assert (forall tokenId, tokenId ∈ pendingTokens cfg w -> ~ completed w tokenId) as Hc.
  { intros tokenId Hin Hcomp. apply elem_of_pendingTokens in Hin as [_ Hp].
    rewrite (completed_not_pending _ _ Hcomp) in Hp. discriminate. }
  unfold pendingTokens in *. destruct (findPendingTokens cfg w) as [p w0] eqn:Hf.
  assert (w0 = w) as -> by (unfold findPendingTokens in Hf; congruence).
  simpl in *. destruct p as [|x p]; [exact I|].
  destruct (initializeBlockchain_cases cfg now init w) as [H|[ops H]]; rewrite H;
    [exact I|].
  cbn [fst]. apply next_batch_invariant; [assumption|].
  intros tokenId Hin Hcomp. apply (Hc tokenId Hin). exact Hcomp.
Qed.

Lemma completed_status (w w' : World) (tokenId : Z) :
  token w' tokenId = token w tokenId -> completed w tokenId -> completed w' tokenId.
Proof. unfold completed, status. intros ->. auto. Qed.

Lemma step_task_keeps (cfg : Config) (s : Sys) (running : list (Z * Task))
    (queue : list Z) (k : nat) (tokenId : Z) (t : Task) (input : Input)
    (w' : World) (t' : Task) (ops : list ChainOp) :
  invariant s ->
  phase s = Batching running queue ->
  running !! k = Some (tokenId, t) ->
  step cfg (world s) tokenId t input = Some (w', t', ops) ->
  invariant {| world := w'; disk := disk s;
               phase := Batching (<[k := (tokenId, t')]> running) queue |}
  /\ forall tokenId', completed (world s) tokenId' ->
       token w' tokenId' = token (world s) tokenId'.
Proof.
  intros Hinv Hph Hk Hstep. unfold invariant in Hinv. rewrite Hph in Hinv.
  destruct Hinv as (Hnd & Hrun & Hq).
  apply step_frame in Hstep as (Hns & Hto & Hst).
  assert (~ completed (world s) tokenId) as Hnc.
  { intros Hc. apply list_elem_of_lookup_2 in Hk.
    rewrite (Hrun _ _ Hk Hc) in Hns. discriminate. }
  assert (forall tokenId', completed (world s) tokenId' ->
            token w' tokenId' = token (world s) tokenId') as Hkeep.
  { intros tokenId' Hc. apply Hto. intros ->. contradiction. }
  split; [|exact Hkeep].
  assert (fst <$> <[k := (tokenId, t')]> running = fst <$> running) as Hfst.
  { rewrite list_fmap_insert. simpl. apply list_insert_id.
    rewrite list_lookup_fmap, Hk. reflexivity. }
  unfold invariant. simpl. rewrite Hfst. split; [assumption|].
  apply NoDup_app in Hnd as (Hnd1 & Hdisj & Hnd2). split.
  - intros tokenId' t'' Hin Hc.
    apply list_elem_of_lookup_1 in Hin as [j Hj].
    rewrite list_lookup_insert in Hj.
    destruct (decide (k = j ∧ (k < length running)%nat)) as [[<- _]|Hne].
    + injection Hj as <- <-.
      destruct Hst as [Hst|[Hst|[_ Hst]]]; [assumption| |];
        unfold completed in *; rewrite Hst in Hc; [contradiction|discriminate].
    + assert (k <> j) as Hkj.
      { intros <-. apply Hne. split; [reflexivity|]. eapply lookup_lt_Some, Hk. }
      assert (tokenId' <> tokenId) as Hneq.
      { intros ->. apply Hkj. eapply (NoDup_lookup _ _ _ _ Hnd1).
        - rewrite list_lookup_fmap, Hk. reflexivity.
        - rewrite list_lookup_fmap, Hj. reflexivity. }
      apply (Hrun tokenId' t''); [eapply list_elem_of_lookup_2, Hj|].
      unfold completed, status in *. rewrite <- (Hto _ Hneq). exact Hc.
  - intros tokenId' Hin Hc. apply (Hq tokenId' Hin).
    assert (tokenId' <> tokenId) as Hneq.
    { intros ->. apply (Hdisj tokenId); [|assumption].
      apply list_elem_of_fmap.
      exists (tokenId, t). split; [reflexivity|]. eapply list_elem_of_lookup_2, Hk. }
    unfold completed, status in *. rewrite <- (Hto _ Hneq). exact Hc.
Qed.

(** What a save of the log does, by what it meets. *)
Lemma saveLog_cases (cfg : Config) (a : FsAnswer) (w : World) (d : Disk) :
  (a = Written
   /\ saveLog cfg a w d = (<[MINT_LOG_PATH cfg := Whole (jsonLog (mintLog w))]> d, true))
  \/ (a <> Written /\ snd (saveLog cfg a w d) = false).
Proof. destruct a; [left|right|right]; split; (reflexivity || discriminate). Qed.

(** The three ways a batch ends: a save throws and the process exits; the
    next batch starts; [main] returns. *)
Lemma afterBatch_cases (cfg : Config) (now : Z) (a a' : FsAnswer) (s : Sys)
    (queue : list Z) :
  (phase (afterBatch cfg now a a' s queue) = Exited 1
   /\ (a <> Written \/ (queue = [] /\ a' <> Written))
   /\ (world (afterBatch cfg now a a' s queue) = world s
       \/ world (afterBatch cfg now a a' s queue)
          = set_mintLog (world s) (set_completedAt (mintLog (world s)) now)))
  \/ (a = Written /\ queue <> []
      /\ afterBatch cfg now a a' s queue
         = {| world := world s;
              disk := <[MINT_LOG_PATH cfg := Whole (jsonLog (mintLog (world s)))]> (disk s);
              phase := Batching (startBatch (take (BATCH_SIZE cfg) queue))
                                (drop (BATCH_SIZE cfg) queue) |})
  \/ (a = Written /\ a' = Written /\ queue = []
      /\ phase (afterBatch cfg now a a' s queue) = Finished
      /\ world (afterBatch cfg now a a' s queue)
         = set_mintLog (world s) (set_completedAt (mintLog (world s)) now)).
Proof.
  unfold afterBatch.
  destruct (saveLog_cases cfg a (world s) (disk s)) as [[-> H]|[Ha H]].
  - rewrite H. destruct queue as [|x queue].
    + cbv zeta.
      destruct (saveLog_cases cfg a'
                  (set_mintLog (world s) (set_completedAt (mintLog (world s)) now))
                  (<[MINT_LOG_PATH cfg := Whole (jsonLog (mintLog (world s)))]> (disk s)))
        as [[-> H']|[Ha' H']].
      * rewrite H'. right. right. auto.
      * destruct (saveLog cfg a' _ _) as [d' saved']. simpl in H'. subst saved'.
        left. auto.
    + right. left. split; [reflexivity|]. split; [discriminate|reflexivity].
  - destruct (saveLog cfg a (world s) (disk s)) as [d saved]. simpl in H. subst saved.
    left. auto.
Qed.

(** The invariant reads the records only. *)
Lemma invariant_tokens (s s' : Sys) :
  phase s' = phase s -> tokens (mintLog (world s')) = tokens (mintLog (world s)) ->
  invariant s -> invariant s'.
Proof.
  unfold invariant, completed, status, token. intros -> ->. auto.
Qed.

(** A step of the program keeps the invariant and the record of every
    completed token. *)
Lemma sys_step_keeps (cfg : Config) (s : Sys) (ops : list ChainOp) (s' : Sys) :
  invariant s -> sys_step cfg s ops s' ->
  invariant s'
  /\ forall tokenId, completed (world s) tokenId ->
       token (world s') tokenId = token (world s) tokenId.
Proof.
  intros Hinv Hstep. destruct Hstep as
    [s running queue k tokenId t input w' t' ops Hph Hk _ _ Hstep
    |s running queue now a a' Hph _
    |s running queue Hph _
    |s running queue now a Hph
    |s running queue now a d Hph _].
  - exact (step_task_keeps cfg s running queue k tokenId t input w' t' ops
             Hinv Hph Hk Hstep).
  - destruct (afterBatch_cases cfg now a a' s queue)
      as [(Hp & _ & Ht)|[(_ & Hq & ->)|(_ & _ & _ & Hp & Hw)]].
    + split; [unfold invariant; rewrite Hp; exact I|].
      intros tokenId _. destruct Ht as [-> | ->]; reflexivity.
    + split; [|reflexivity].
      unfold invariant in Hinv. rewrite Hph in Hinv. destruct Hinv as (Hnd & _ & Hc).
      apply next_batch_invariant; [|exact Hc].
      apply NoDup_app in Hnd as (_ & _ & Hnd). exact Hnd.
    + split; [unfold invariant; rewrite Hp; exact I|].
      intros tokenId _. rewrite Hw. reflexivity.
  - split; [exact I|reflexivity].
  - split; [|unfold onSigint; destruct (saveLog cfg a _ _); reflexivity].
    unfold invariant, onSigint. destruct (saveLog cfg a _ _). exact I.
  - split; [|reflexivity].
    eapply invariant_tokens; [| |exact Hinv]; reflexivity.
Qed.

Lemma sys_steps_keep (cfg : Config) (s : Sys) (ops : list ChainOp) (s' : Sys) :
  invariant s -> sys_steps cfg s ops s' ->
  invariant s'
  /\ forall tokenId, completed (world s) tokenId ->
       token (world s') tokenId = token (world s) tokenId.
Proof.
  intros Hinv Hsteps. induction Hsteps as [s|s1 ops1 s2 ops2 s3 H1 _ IH].
  - split; [assumption|reflexivity].
  - destruct (sys_step_keeps cfg s1 ops1 s2 Hinv H1) as [Hinv2 Hk1].
    destruct (IH Hinv2) as [Hinv3 Hk2]. split; [assumption|].
    intros tokenId Hc. rewrite Hk2; [apply Hk1, Hc|].
    eapply completed_status; [apply Hk1, Hc|exact Hc].
Qed.

End SchedulerFacts.

Section RunFacts.
Import Js Model SignerPool Engine Snapshot Scheduler.

Lemma taskStep_sound (cfg : Config) (s : Sys) (k : nat) (input : Input)
    (s' : Sys) (ops : list ChainOp) :
  taskStep cfg s k input = Some (s', ops) -> sys_step cfg s ops s'.
Proof.
  unfold taskStep. destruct (phase s) as [running queue| |] eqn:Hph; try discriminate.
  destruct (running !! k) as [[tokenId t]|] eqn:Hk; [|discriminate].
  destruct (someThrown running) eqn:Hth; [discriminate|].
  destruct (mayRun cfg running k t) eqn:Hm; [|discriminate].
  destruct (step cfg (world s) tokenId t input) as [[[w' t'] ops']|] eqn:Hs; [|discriminate].
  intros [= <- <-]. eapply step_task; eassumption.
Qed.

Lemma drive_sound (cfg : Config) (schedule : list (nat * Input)) (s s' : Sys)
    (ops : list ChainOp) :
  drive cfg s schedule = Some (s', ops) -> sys_steps cfg s ops s'.
Proof.
  revert s ops. induction schedule as [|[k input] rest IH]; intros s ops; simpl.
  - intros [= <- <-]. constructor.
  - destruct (taskStep cfg s k input) as [[s1 ops1]|] eqn:H1; [|discriminate].
    destruct (drive cfg s1 rest) as [[s2 ops2]|] eqn:H2; [|discriminate].
    intros [= <- <-]. econstructor; [eapply taskStep_sound, H1|apply IH, H2].
Qed.

Lemma sys_steps_app (cfg : Config) (s1 s2 s3 : Sys) (ops1 ops2 : list ChainOp) :
  sys_steps cfg s1 ops1 s2 -> sys_steps cfg s2 ops2 s3 ->
  sys_steps cfg s1 (ops1 ++ ops2) s3.
Proof.
  induction 1 as [s|s1 o1 s2 o2 s3' H1 _ IH]; intros H2; [exact H2|].
  rewrite <- app_assoc. econstructor; [exact H1|apply IH, H2].
Qed.

Lemma runs_invariant (cfg : Config) (d : Disk) (ops : list ChainOp) (s : Sys) :
  runs cfg d ops s -> invariant s.
Proof.
  intros (now & init & ops1 & ops2 & Hs & _ & _).
  exact (proj1 (sys_steps_keep cfg _ _ _ (main_invariant cfg now init d) Hs)).
Qed.

End RunFacts.

(** ** Nonces *)

Section NonceFacts.
Import Js Model SignerPool Engine Snapshot Scheduler.

Lemma nextNonces_run (n : nat) (s : Single.NonceState) :
  Single.nextNonces n s
  = map (fun k => default 0 (Single.baseNonce s) + Single.nonceOffset s + Z.of_nat k)
        (seq 0 n).
Proof.
  revert s. induction n as [|n IH]; intros s; [reflexivity|].
  cbn [Single.nextNonces seq map]. rewrite IH. simpl. f_equal; [lia|].
  rewrite <- seq_shift, map_map. apply map_ext. intros k. lia.
Qed.

Lemma run_sorted (b : Z) (n : nat) (m : nat) :
  StronglySorted Z.lt (map (fun k => b + Z.of_nat k) (seq m n)).
Proof.
  revert m. induction n as [|n IH]; intros m; simpl; constructor; [apply IH|].
  apply Forall_forall. intros x Hx%list_elem_of_In%in_map_iff.
  destruct Hx as (k & <- & Hk%in_seq). lia.
Qed.

Lemma sorted_NoDup (l : list Z) : StronglySorted Z.lt l -> NoDup l.
Proof.
  induction 1 as [|x l _ IH Hx]; constructor; [|assumption].
  intros Hin. rewrite Forall_forall in Hx. specialize (Hx x Hin). lia.
Qed.

End NonceFacts.

Section NonceTheorems.
Import Js Model SignerPool Engine Snapshot Scheduler.

(** C1, as the code has it.  In the single-wallet script [getNextNonce]
    hands out [baseNonce + nonceOffset] and increments the offset: between
    two resets of the sequence the values of successive calls are a
    contiguous increasing run without duplicates.  In the multi-signer
    script [getFreshNonce] returns what the signer's provider reports and
    keeps no cursor: its value does not depend on the state of the pool or
    of the log, so calls that see the same count return the same value. *)
Theorem nonce_allocation :
  (forall (n : nat) (s : Single.NonceState),
     Single.nextNonces n s
     = map (fun k => default 0 (Single.baseNonce s) + Single.nonceOffset s + Z.of_nat k)
           (seq 0 n)
     /\ StronglySorted Z.lt (Single.nextNonces n s)
     /\ NoDup (Single.nextNonces n s))
  /\ (forall (chain : Chain) (w w' : World) (i : nat),
        providers w' = providers w -> signers w' = signers w ->
        getFreshNonce chain w' i = getFreshNonce chain w i)
  /\ (forall (chain : Chain) (w : World) (i : nat) (p a : string),
        providers w !! (i mod length (providers w))%nat = Some p ->
        signers w !! i = Some a ->
        getFreshNonce chain w i = chain p a).
Proof.
  split; [|split].
  - intros n s. rewrite nextNonces_run.
    assert (StronglySorted Z.lt
              (map (fun k => default 0 (Single.baseNonce s) + Single.nonceOffset s
                             + Z.of_nat k) (seq 0 n))) as H by apply run_sorted.
    split; [reflexivity|]. split; [exact H|apply sorted_NoDup, H].
  - intros chain w w' i Hp Hs. unfold getFreshNonce. rewrite Hp, Hs. reflexivity.
  - intros chain w i p a Hp Hs. unfold getFreshNonce. rewrite Hp, Hs. reflexivity.
Qed.

(** The single signer of the small instance, on a chain that reports 5. *)
Lemma nonce_allocation_witness :
  getFreshNonce Examples.chainAt5 (world Examples.started) 0 = inl 5.
Proof.
  apply (proj2 (proj2 nonce_allocation) Examples.chainAt5 (world Examples.started)
           0%nat "rpc" "0xA"); reflexivity.
Defined.

(** C1 as stated fails in the multi-signer script: with one signer, the
    two calls of a batch both hold signer 0, both ask for its nonce before
    either has sent its transaction, both get 5, and both submit with
    nonce 5. *)
Lemma nonce_reuse_counterexample :
  exists sd : SignerData,
    index sd = 0%nat
    /\ phase (Examples.after Examples.overlap)
       = Batching [(1, AwaitReceipt 0 sd 5); (2, AwaitReceipt 0 sd 5)] []
    /\ Examples.issued Examples.overlap
       = [GetTransactionCount 0; GetTransactionCount 0;
          EstimateGas 0; SendTransaction 1 0 5;
          EstimateGas 0; SendTransaction 2 0 5]
    /\ runs Examples.smallConfig ∅
         ([GetNetwork; GetBalance 0] ++ Examples.issued Examples.overlap)
         (Examples.after Examples.overlap).
Proof.
  eexists. split; [|split; [|split]].
  2: vm_compute; reflexivity.
  - reflexivity.
  - vm_compute. reflexivity.
  - exists 1000, NetworkUp, [GetNetwork; GetBalance 0], (Examples.issued Examples.overlap).
    split; [|split; reflexivity].
    apply (drive_sound Examples.smallConfig Examples.overlap).
    vm_compute. reflexivity.
Qed.

End NonceTheorems.

(** ** The snapshot *)

Section SnapshotTheorems.
Import Js Model Snapshot.

Lemma jsonRecord_noNaN (r : JsObject) :
  (forall name, r !! name <> Some JsNaN) -> jsonRecord r = r.
Proof.
  intros H. apply map_eq. intros name. unfold jsonRecord. rewrite lookup_fmap.
  specialize (H name). destruct (r !! name) as [[| |z|t|b]|]; try reflexivity.
  congruence.
Qed.

(** JSON writes a log that holds no [NaN] as it is. *)
Lemma jsonLog_noNaN (log : MintLog) : noNaN log -> jsonLog log = log.
Proof.
  intros H. unfold jsonLog.
  assert (jsonRecord <$> tokens log = tokens log) as ->.
  { apply map_eq. intros tokenId. rewrite lookup_fmap.
    destruct (tokens log !! tokenId) as [r|] eqn:Hr; [|reflexivity].
    simpl. rewrite jsonRecord_noNaN; [reflexivity|].
    intros name. exact (H tokenId r name Hr). }
  destruct log. reflexivity.
Qed.

Lemma crashIn_snapshot (cfg : Config) (log : MintLog) (d d' : Disk) :
  crashIn d (snapshot cfg log) d' ->
  d' = d \/ d' = execOps (snapshot cfg log) d
  \/ exists written, d' = <[MINT_LOG_PATH cfg := Torn log written]> d.
Proof.
  unfold snapshot. intros H. inversion H as [op ops d1 Hc|op ops d1 Hl]; subst.
  - inversion Hc; subst; eauto.
  - inversion Hl.
Qed.

Lemma snapshot_spec_safe (cfg : Config) (temporary : string) (log : MintLog) :
  temporary <> MINT_LOG_PATH cfg ->
  crashSafe cfg (snapshot_spec cfg temporary log) log.
Proof.
  intros Hne d d' H. unfold snapshot_spec in H. unfold load.
  inversion H as [op ops d1 Hc|op ops d1 Hl]; subst.
  - left. inversion Hc; subst; [reflexivity|simpl|]; rewrite lookup_insert_ne by done;
      reflexivity.
  - inversion Hl as [op ops d1 Hc|op ops d1 Hl']; subst; [|inversion Hl'].
    simpl in Hc. inversion Hc as [op| |]; subst.
    + left. simpl. rewrite lookup_insert_ne by done. reflexivity.
    + right. simpl. rewrite lookup_insert_eq, lookup_insert_eq. reflexivity.
Qed.

(** C4, as the code has it.  The snapshot is one [writeJson] of the whole
    log onto the log file itself, with no temporary file and no rename.
    Once it has run, the next load reads the new log, as JSON writes it
    (the log itself when it holds no [NaN]); running it again changes
    nothing; no other file is touched.  If the process stops during the
    snapshot, the disk holds the old content, the new log, or a log file
    cut short.  (The sequence the specification describes, write to a
    temporary file and rename, would be crash safe.) *)
Theorem snapshot_in_place (cfg : Config) (log : MintLog) (d : Disk) :
  snapshot cfg log = [WriteJson (MINT_LOG_PATH cfg) log]
  /\ load (MINT_LOG_PATH cfg) (execOps (snapshot cfg log) d) = Some (Some (jsonLog log))
  /\ (noNaN log ->
      load (MINT_LOG_PATH cfg) (execOps (snapshot cfg log) d) = Some (Some log))
  /\ execOps (snapshot cfg log) (execOps (snapshot cfg log) d)
     = execOps (snapshot cfg log) d
  /\ (forall path : string,
        path <> MINT_LOG_PATH cfg -> execOps (snapshot cfg log) d !! path = d !! path)
  /\ (forall d' : Disk,
        crashIn d (snapshot cfg log) d' ->
        d' = d \/ d' = execOps (snapshot cfg log) d
        \/ exists written, d' = <[MINT_LOG_PATH cfg := Torn log written]> d)
  /\ (forall temporary : string,
        temporary <> MINT_LOG_PATH cfg ->
        crashSafe cfg (snapshot_spec cfg temporary log) log).
Proof.
  split; [reflexivity|]. split; [|split; [|split; [|split; [|split]]]].
  - unfold load. simpl. rewrite lookup_insert_eq. reflexivity.
  - intros Hn. unfold load. simpl. rewrite lookup_insert_eq, (jsonLog_noNaN log Hn).
    reflexivity.
  - simpl. apply insert_insert_eq.
  - intros path Hne. simpl. apply lookup_insert_ne. congruence.
  - apply crashIn_snapshot.
  - intros temporary. apply snapshot_spec_safe.
Qed.

(** The sequence of the specification on the small instance. *)
Lemma snapshot_in_place_witness :
  crashSafe Examples.smallConfig
    (snapshot_spec Examples.smallConfig "log.json.tmp" Examples.doneLog) Examples.doneLog.
Proof.
  apply (proj2 (proj2 (proj2 (proj2 (proj2 (proj2
           (snapshot_in_place Examples.smallConfig Examples.doneLog ∅))))))).
  discriminate.
Defined.

(** C4 as stated fails: when the process stops after the log file has
    been opened for writing and before the text is written, the file is
    empty; the next load finds neither the old log nor the new one, and
    [fs.readJson] throws. *)
Lemma snapshot_crash_counterexample :
  load "log.json" Examples.freshDisk = Some (Some initialMintLog)
  /\ crashIn Examples.freshDisk (snapshot Examples.smallConfig Examples.doneLog)
       (<["log.json" := Torn Examples.doneLog 0]> Examples.freshDisk)
  /\ load "log.json" (<["log.json" := Torn Examples.doneLog 0]> Examples.freshDisk) = None
  /\ ~ crashSafe Examples.smallConfig
         (snapshot Examples.smallConfig Examples.doneLog) Examples.doneLog.
Proof.
  assert (crashIn Examples.freshDisk (snapshot Examples.smallConfig Examples.doneLog)
            (<["log.json" := Torn Examples.doneLog 0]> Examples.freshDisk)) as Hc.
  { apply crash_here. apply (crash_torn _ "log.json"). }
  split; [reflexivity|]. split; [exact Hc|]. split; [reflexivity|].
  intros Hsafe. destruct (Hsafe _ _ Hc) as [H|H]; vm_compute in H; discriminate.
Qed.

End SnapshotTheorems.

Section RetryFacts.
Import Js JsString Classify Model SignerPool Engine Scheduler.

Lemma attemptsIn_app (a b : list ChainOp) :
  attemptsIn (a ++ b) = (attemptsIn a + attemptsIn b)%nat.
Proof. unfold attemptsIn. rewrite List.filter_app, length_app. reflexivity. Qed.

Lemma submissionsIn_app (a b : list ChainOp) :
  submissionsIn (a ++ b) = (submissionsIn a + submissionsIn b)%nat.
Proof. unfold submissionsIn. rewrite List.filter_app, length_app. reflexivity. Qed.

Ltac measure :=
  unfold attemptsIn, submissionsIn; simpl; rewrite ?Nat.eqb_refl;
  split; [lia|split; [lia|]];
  first [left; split; [reflexivity|lia] | right; split; [reflexivity|lia]].

Lemma enter_cases (w : World) (tokenId : Z) (rc : nat) (now : Z) :
  (fst (getNextAvailableSigner now w) = None
   /\ enter w tokenId rc now = (snd (getNextAvailableSigner now w), Entry rc, []))
  \/ (exists sd w', fst (getNextAvailableSigner now w) = Some sd
        /\ enter w tokenId rc now = (w', AwaitNonce rc sd, [GetTransactionCount (index sd)])).
Proof.
  unfold enter. destruct (getNextAvailableSigner now w) as [[sd|] w1]; simpl; eauto.
Qed.

Lemma catchBlock_cases (cfg : Config) (w : World) (tokenId : Z) (rc : nat)
    (message : string) (now : Z) :
  exists w',
    (catchBlock cfg w tokenId rc message now = (w', Thrown, [])
     \/ (classifyError message = ALREADY_KNOWN
         /\ catchBlock cfg w tokenId rc message now = (w', Returned true, []))
     \/ (classifyError message <> ALREADY_KNOWN /\ (rc < RETRY_ATTEMPTS cfg)%nat
         /\ catchBlock cfg w tokenId rc message now = (w', Entry (S rc), []))
     \/ (classifyError message <> ALREADY_KNOWN /\ (RETRY_ATTEMPTS cfg <= rc)%nat
         /\ catchBlock cfg w tokenId rc message now = (w', Returned false, []))).
Proof.
  unfold catchBlock. destruct (decide (classifyError message = ALREADY_KNOWN)) as [Hc|Hc].
  - destruct (asIndex _ ≫= _) as [w1|]; eauto 6.
  - destruct (match token w tokenId ≫= _ with Some v => _ | None => Some w end) as [w1|];
      [|eauto].
    destruct (token w1 tokenId) as [r|]; [|eauto].
    destruct (rc <? RETRY_ATTEMPTS cfg)%nat eqn:Hr.
    + apply Nat.ltb_lt in Hr. eauto 8.
    + apply Nat.ltb_ge in Hr. eauto 8.
Qed.

Lemma onReceipt_cases (cfg : Config) (w : World) (tokenId : Z) (rc : nat)
    (sd : SignerData) (nonce : Z) (receipt : Receipt) (now : Z) :
  exists w' t',
    onReceipt cfg w tokenId rc sd nonce receipt now = (w', t', [])
    /\ (settled t' = true \/ ((rc < RETRY_ATTEMPTS cfg)%nat /\ t' = Entry (S rc))).
Proof.
  unfold onReceipt. destruct (handleSignerSuccess (index sd) w) as [w1|].
  - eauto 6.
  - destruct (catchBlock_cases cfg w tokenId rc
                "Cannot set properties of undefined (setting 'consecutiveFailures')" now)
      as (w' & [H|[[_ H]|[(_ & Hr & H)|(_ & _ & H)]]]); rewrite H; eauto 8.
Qed.

(** One step: the measures of what is left do not grow, attempts and
    submissions are paid for, and the step is a wait or uses up work. *)
Lemma step_measures (cfg : Config) (w : World) (tokenId : Z) (t : Task) (i : Input)
    (w' : World) (t' : Task) (ops : list ChainOp) :
  step cfg w tokenId t i = Some (w', t', ops) ->
  (attemptsIn ops + attemptsLeft cfg t' <= attemptsLeft cfg t)%nat
  /\ (submissionsIn ops + submissionsLeft cfg t' <= submissionsLeft cfg t)%nat
  /\ ((waits t t' = true /\ work cfg t' = work cfg t)
      \/ (waits t t' = false /\ work cfg t' < work cfg t)%nat).
Proof.
  destruct t as [|rc|rc sd|rc sd nonce|b|];
    destruct i as [now|now chain|now [receipt|message]]; simpl; try discriminate.
  - destruct (enter_cases w tokenId 0 now) as [[_ H]|(sd & w1 & _ & H)];
      rewrite H; intros [= <- <- <-]; measure.
  - destruct (enter_cases w tokenId rc now) as [[_ H]|(sd & w1 & _ & H)];
      rewrite H; intros [= <- <- <-]; measure.
  - destruct (getFreshNonce chain w (index sd)) as [nonce|message].
    + intros [= <- <- <-]. measure.
    + destruct (catchBlock_cases cfg w tokenId rc message now)
        as (w1 & [H|[[_ H]|[(_ & Hr & H)|(_ & _ & H)]]]);
        rewrite H; intros [= <- <- <-]; measure.
  - destruct (onReceipt_cases cfg w tokenId rc sd nonce receipt now)
      as (w1 & t1 & H & Ht). rewrite H. intros [= <- <- <-].
    destruct Ht as [Ht|[Hr ->]]; [destruct t1; try discriminate|]; measure.
  - destruct (catchBlock_cases cfg w tokenId rc message now)
      as (w1 & [H|[[_ H]|[(_ & Hr & H)|(_ & _ & H)]]]);
      rewrite H; intros [= <- <- <-]; measure.
Qed.

Lemma run_measures (cfg : Config) (inputs : list Input) (w : World) (tokenId : Z)
    (t : Task) :
  let '(w', t', ops) := run cfg w tokenId t inputs in
  (attemptsIn ops + attemptsLeft cfg t' <= attemptsLeft cfg t)%nat
  /\ (submissionsIn ops + submissionsLeft cfg t' <= submissionsLeft cfg t)%nat
  /\ (progressSteps cfg w tokenId t inputs + work cfg t' <= work cfg t)%nat.
Proof.
  revert w t. induction inputs as [|i rest IH]; intros w t; simpl.
  - unfold attemptsIn, submissionsIn. simpl. lia.
  - destruct (step cfg w tokenId t i) as [[[w1 t1] ops1]|] eqn:Hs; [|apply IH].
    specialize (IH w1 t1). destruct (run cfg w1 tokenId t1 rest) as [[w2 t2] ops2].
    apply step_measures in Hs as (Ha & Hb & Hc).
    rewrite attemptsIn_app, submissionsIn_app.
    destruct IH as (Ia & Ib & Ic).
    destruct Hc as [[-> Hc]|[-> Hc]]; repeat split; lia.
Qed.

Lemma work_settled (cfg : Config) (t : Task) : work cfg t = O -> settled t = true.
Proof. destruct t; simpl; intros; try reflexivity; lia. Qed.

Lemma unsettled_accepts (cfg : Config) (w : World) (tokenId : Z) (t : Task) :
  settled t = false -> exists i, is_Some (step cfg w tokenId t i).
Proof.
  destruct t as [|rc|rc sd|rc sd nonce|b|]; try discriminate; intros _.
  - exists (Resume 0). simpl. eauto.
  - exists (Resume 0). simpl. eauto.
  - exists (NonceAnswer 0 (fun _ _ => inl 0)). simpl.
    destruct (getFreshNonce _ w (index sd)); eauto.
  - exists (TxAnswer 0 (inr "")). simpl. eauto.
Qed.

Lemma no_signer_waits (w : World) (tokenId : Z) (inputs : list Input) (t : Task)
    (cfg : Config) :
  signers w = [] -> t = Queued \/ t = Entry 0 ->
  let t' := snd (fst (run cfg w tokenId t inputs)) in t' = Queued \/ t' = Entry 0.
Proof.
  intros Hs. revert w t Hs. induction inputs as [|i rest IH]; intros w t Hs Ht; simpl.
  - exact Ht.
  - assert (forall now, enter w tokenId 0 now
              = (set_signerStates w (reactivateAll now 0 (signerStates w)), Entry 0, []))
      as He.
    { intros now. unfold enter, getNextAvailableSigner. rewrite Hs. reflexivity. }
    destruct Ht as [-> | ->]; destruct i as [now|now chain|now answer]; simpl;
      try (apply IH; auto); rewrite He; simpl;
      specialize (IH (set_signerStates w (reactivateAll now 0 (signerStates w)))
                     (Entry 0) Hs (or_intror eq_refl));
      destruct (run cfg _ tokenId (Entry 0) rest) as [[w2 t2] ops2]; exact IH.
Qed.

End RetryFacts.

Section AlreadyKnownFacts.
Import Js JsString Classify Model SignerPool Engine Scheduler.

Lemma alreadyKnownRecord_lookup (r : JsObject) (now : Z) :
  alreadyKnownRecord r now !! "status" = Some (JsStr "completed")
  /\ alreadyKnownRecord r now !! "txHash" = Some (JsStr "already_known")
  /\ alreadyKnownRecord r now !! "attempts" = r !! "attempts".
Proof.
  unfold alreadyKnownRecord. repeat split.
  - rewrite !lookup_insert_ne by done. apply lookup_insert_eq.
  - rewrite !lookup_insert_ne by done. apply lookup_insert_eq.
  - rewrite !lookup_insert_ne by done. reflexivity.
Qed.

Lemma property_set_token (w : World) (tokenId : Z) (r : JsObject) (name : string) :
  property (set_token w tokenId r) tokenId name = r !! name.
Proof.
  unfold property. rewrite token_set_token. destruct (decide _); [reflexivity|congruence].
Qed.

Lemma success_summary (i : nat) (w w' : World) :
  handleSignerSuccess i w = Some w' -> mintLog w' = set_signerStats (mintLog w) (signerStats (mintLog w')).
Proof.
  unfold handleSignerSuccess. destruct (signerStates w !! i); [|discriminate]. simpl.
  destruct (signerStats (mintLog w) !! i); [|discriminate]. simpl.
  intros [= <-]. reflexivity.
Qed.

(** The [catch] block on an error classified [ALREADY_KNOWN]. *)
Lemma catchBlock_already_known (cfg : Config) (w : World) (tokenId : Z) (rc : nat)
    (message : string) (now : Z) :
  classifyError message = ALREADY_KNOWN ->
  signerKnown w tokenId ->
  exists w',
    catchBlock cfg w tokenId rc message now = (w', Returned true, [])
    /\ status w' tokenId = Some (JsStr "completed")
    /\ property w' tokenId "txHash" = Some (JsStr "already_known")
    /\ property w' tokenId "attempts" = property w tokenId "attempts"
    /\ successful (summary (mintLog w')) = successful (summary (mintLog w)) + 1.
Proof.
  intros Hc (i & Hi & [s Hs] & [st Hst]). unfold catchBlock.
  destruct (decide (classifyError message = ALREADY_KNOWN)); [|contradiction].
  fold (property w tokenId "lastSignerIndex"). rewrite Hi. simpl.
  destruct (handleSignerSuccess i w) as [w1|] eqn:H1.
  2:{ unfold handleSignerSuccess in H1. rewrite Hs, Hst in H1. discriminate. }
  pose proof (success_tokens i w w1 H1) as [Ht Hsum].
  eexists. split; [reflexivity|].
  destruct (alreadyKnownRecord_lookup (default ∅ (token w1 tokenId)) now) as (L1 & L2 & L3).
  split; [|split; [|split]].
  - change (property (countSuccess (set_token w1 tokenId
              (alreadyKnownRecord (default ∅ (token w1 tokenId)) now))) tokenId "status"
            = Some (JsStr "completed")).
    unfold property. rewrite token_countSuccess, token_set_token.
    destruct (decide _); [exact L1|congruence].
  - unfold property. rewrite token_countSuccess, token_set_token.
    destruct (decide _); [exact L2|congruence].
  - unfold property. rewrite token_countSuccess, token_set_token.
    destruct (decide _); [|congruence]. simpl. rewrite L3.
    unfold token. rewrite Ht. destruct (tokens (mintLog w) !! tokenId); reflexivity.
  - simpl. rewrite Hsum. reflexivity.
Qed.

Lemma acquire_keeps_entries (now : Z) (w : World) (i : nat) :
  is_Some (signerStates w !! i) ->
  is_Some (signerStates (snd (getNextAvailableSigner now w)) !! i).
Proof.
  intros [s Hs].
  assert (is_Some (reactivateAll now (length (signers w)) (signerStates w) !! i)) as Hr.
  { rewrite reactivateAll_lookup, Hs. simpl. eauto. }
  unfold getNextAvailableSigner. destruct (findLoop _ _) as [j|]; simpl; [|exact Hr].
  rewrite list_lookup_alter. destruct (decide (j = i)) as [->|]; [|exact Hr].
  destruct Hr as [x ->]. simpl. eauto.
Qed.

(** A first attempt that ends in [ALREADY_KNOWN]. *)
Lemma first_attempt_already_known (cfg : Config) (w : World) (tokenId : Z)
    (now0 now1 now2 : Z) (chain : Chain) (sd : SignerData) (nonce : Z)
    (message : string) :
  token w tokenId = None ->
  fst (getNextAvailableSigner now0 w) = Some sd ->
  getFreshNonce chain w (index sd) = inl nonce ->
  classifyError message = ALREADY_KNOWN ->
  is_Some (signerStates w !! 0%nat) ->
  is_Some (signerStats (mintLog w) !! 0%nat) ->
  exists w',
    run cfg w tokenId Queued
      [Resume now0; NonceAnswer now1 chain; TxAnswer now2 (inr message)]
    = (w', Returned true,
       [GetTransactionCount (index sd); EstimateGas (index sd);
        SendTransaction tokenId (index sd) nonce])
    /\ status w' tokenId = Some (JsStr "completed")
    /\ property w' tokenId "txHash" = Some (JsStr "already_known")
    /\ property w' tokenId "attempts" = Some (JsNum 1).
Proof.
  intros Hnone Hsd Hnonce Hc Hs0 Hst0.
  pose proof (acquire_mintLog now0 w) as Hm.
  pose proof (acquire_keeps_entries now0 w 0 Hs0) as Hs1.
  assert (providers (snd (getNextAvailableSigner now0 w)) = providers w
          /\ signers (snd (getNextAvailableSigner now0 w)) = signers w) as [Hp Hsg].
  { unfold getNextAvailableSigner. destruct (findLoop _ _); split; reflexivity. }
  destruct (getNextAvailableSigner now0 w) as [o w1] eqn:Hg. simpl in *. subst o.
  set (r1 := <["attempts" := increment (newRecord tokenId now0 !! "attempts")]>
               (newRecord tokenId now0)).
  set (w2 := set_token w1 tokenId r1).
  assert (enter w tokenId 0 now0 = (w2, AwaitNonce 0 sd, [GetTransactionCount (index sd)]))
    as He.
  { unfold enter. rewrite Hg. unfold token. rewrite Hm.
    unfold token in Hnone. rewrite Hnone. reflexivity. }
  assert (getFreshNonce chain w2 (index sd) = inl nonce) as Hn2.
  { rewrite <- Hnonce. unfold getFreshNonce. simpl. rewrite Hp, Hsg. reflexivity. }
  assert (property w2 tokenId "lastSignerIndex" = None) as Hl.
  { unfold w2. rewrite property_set_token. reflexivity. }
  assert (signerKnown w2 tokenId) as Hk.
  { exists 0%nat. rewrite Hl. split; [reflexivity|]. split; [exact Hs1|].
    simpl. rewrite Hm. exact Hst0. }
  destruct (catchBlock_already_known cfg w2 tokenId 0 message now2 Hc Hk)
    as (w3 & Hcb & H1 & H2 & H3 & _).
  exists w3. simpl. rewrite He. simpl. rewrite Hn2. simpl. rewrite Hcb.
  split; [reflexivity|]. split; [exact H1|]. split; [exact H2|].
  rewrite H3. unfold w2. rewrite property_set_token. reflexivity.
Qed.

Lemma single_already_known (cfg : Config) (w : Single.World) (tokenId : Z) (rc : nat)
    (nonce : Z) (message : string) (now : Z) :
  classifyError200k message = ALREADY_KNOWN ->
  exists w',
    Single.step cfg w tokenId (Single.AwaitTx rc nonce) (Single.TxAnswer now (inr message))
    = Some (w', Single.Returned true, [])
    /\ (r ← Single.tokens w' !! tokenId; r !! "status") = Some (JsStr "completed")
    /\ (r ← Single.tokens w' !! tokenId; r !! "txHash") = Some (JsStr "already_known")
    /\ (r ← Single.tokens w' !! tokenId; r !! "attempts")
       = (r ← Single.tokens w !! tokenId; r !! "attempts")
    /\ successful (Single.summary w') = successful (Single.summary w) + 1.
Proof.
  intros Hc. simpl. unfold Single.catchBlock.
  destruct (decide (classifyError200k message = ALREADY_KNOWN)); [|contradiction].
  eexists. split; [reflexivity|]. simpl. rewrite lookup_insert_eq. simpl.
  destruct (alreadyKnownRecord_lookup (default ∅ (Single.tokens w !! tokenId)) now)
    as (L1 & L2 & L3).
  split; [exact L1|]. split; [exact L2|]. split; [|reflexivity].
  rewrite L3. destruct (Single.tokens w !! tokenId); reflexivity.
Qed.

End AlreadyKnownFacts.

Section OtherErrorFacts.
Import Js JsString Classify Model SignerPool Engine Scheduler.

Lemma failedRecord_lookup (r : JsObject) (message : string) (e : ErrorType)
    (rc : nat) (now : Z) :
  failedRecord r message e rc now !! "status" = Some (JsStr "failed")
  /\ failedRecord r message e rc now !! "errorType" = Some (JsStr (ErrorType_name e)).
Proof.
  unfold failedRecord. split.
  - rewrite !lookup_insert_ne by done. apply lookup_insert_eq.
  - rewrite !lookup_insert_ne by done. apply lookup_insert_eq.
Qed.

Lemma failure_entry (cfg : Config) (now : Z) (i : nat) (w w' : World) (s : SignerState) :
  signerStates w !! i = Some s ->
  handleSignerFailure cfg now i w = Some w' ->
  exists s', signerStates w' !! i = Some s'
             /\ consecutiveFailures s' = consecutiveFailures s + 1
             /\ isBackedOff s'
                = (if SIGNER_BACKOFF_THRESHOLD cfg <=? consecutiveFailures s + 1
                   then true else isBackedOff s).
Proof.
  intros Hs Hf. unfold handleSignerFailure in Hf. rewrite Hs in Hf. simpl in Hf.
  destruct (signerStats (mintLog w) !! i) as [st|]; [|discriminate].
  simpl in Hf. injection Hf as <-. simpl. eexists. split.
  - apply list_lookup_insert_eq. apply lookup_lt_Some in Hs. exact Hs.
  - split; reflexivity.
Qed.

(** The [catch] block on an error that is not [ALREADY_KNOWN], whatever
    its class: it is retried while [retryCount < RETRY_ATTEMPTS] and marked
    failed afterwards, and the signer states change only through
    [handleSignerFailure] on the recorded [lastSignerIndex]. *)
Lemma catchBlock_other (cfg : Config) (w : World) (tokenId : Z) (rc : nat)
    (message : string) (now : Z) (w' : World) (t' : Task) (ops : list ChainOp) :
  classifyError message <> ALREADY_KNOWN ->
  catchBlock cfg w tokenId rc message now = (w', t', ops) ->
  ops = []
  /\ (t' = Thrown
      \/ ((rc < RETRY_ATTEMPTS cfg)%nat /\ t' = Entry (S rc)
          /\ status w' tokenId = status w tokenId)
      \/ ((RETRY_ATTEMPTS cfg <= rc)%nat /\ t' = Returned false
          /\ status w' tokenId = Some (JsStr "failed")
          /\ property w' tokenId "errorType"
             = Some (JsStr (ErrorType_name (classifyError message)))))
  /\ (property w tokenId "lastSignerIndex" = None -> signerStates w' = signerStates w)
  /\ (forall v i s,
        property w tokenId "lastSignerIndex" = Some v -> asIndex v = Some i ->
        signerStates w !! i = Some s -> t' <> Thrown ->
        exists s', signerStates w' !! i = Some s'
                   /\ consecutiveFailures s' = consecutiveFailures s + 1
                   /\ isBackedOff s'
                      = (if SIGNER_BACKOFF_THRESHOLD cfg <=? consecutiveFailures s + 1
                         then true else isBackedOff s)).
Proof.
  intros Hc. unfold catchBlock.
  destruct (decide (classifyError message = ALREADY_KNOWN)); [contradiction|].
  fold (property w tokenId "lastSignerIndex").
  destruct (property w tokenId "lastSignerIndex") as [v|] eqn:Hv.
  - destruct (asIndex v ≫= _) as [w1|] eqn:H1.
    2:{ intros [= <- <- <-]. split; [reflexivity|]. split; [auto|].
        split; [discriminate|]. intros ? ? ? _ _ _ Hn. contradiction. }
    apply bind_Some in H1 as (i & Hi & H1).
    pose proof (failure_tokens cfg now i w w1 H1) as [Ht _].
    destruct (token w1 tokenId) as [r|] eqn:Hr.
    2:{ intros [= <- <- <-]. split; [reflexivity|]. split; [auto|].
        split; [discriminate|]. intros ? ? ? _ _ _ Hn. contradiction. }
    assert (forall v0 i0 s, Some v = Some v0 -> asIndex v0 = Some i0 ->
              signerStates w !! i0 = Some s ->
              exists s', signerStates w1 !! i0 = Some s'
                /\ consecutiveFailures s' = consecutiveFailures s + 1
                /\ isBackedOff s'
                   = (if SIGNER_BACKOFF_THRESHOLD cfg <=? consecutiveFailures s + 1
                      then true else isBackedOff s)) as Hsig.
    { intros v0 i0 s [= <-] Hi0 Hs. assert (i0 = i) as -> by congruence.
      exact (failure_entry cfg now i w w1 s Hs H1). }
    destruct (rc <? RETRY_ATTEMPTS cfg)%nat eqn:Hlt; intros [= <- <- <-].
    + apply Nat.ltb_lt in Hlt. split; [reflexivity|]. split.
      * right. left. split; [assumption|]. split; [reflexivity|].
        unfold status. rewrite token_set_token. destruct (decide _); [|congruence].
        simpl. rewrite lookup_insert_ne by done.
        unfold token in *. rewrite Ht in Hr. rewrite Hr. reflexivity.
      * split; [discriminate|]. intros v0 i0 s H2 H3 H4 _. exact (Hsig v0 i0 s H2 H3 H4).
    + apply Nat.ltb_ge in Hlt. split; [reflexivity|]. split.
      * right. right. split; [assumption|]. split; [reflexivity|].
        destruct (failedRecord_lookup (<["lastSignerIndex" := orZero (Some v)]> r)
                    message (classifyError message) rc now) as [L1 L2].
        unfold status, property. rewrite !token_countFailure, !token_set_token.
        destruct (decide _); [|congruence]. simpl. auto.
      * split; [discriminate|]. intros v0 i0 s H2 H3 H4 _. exact (Hsig v0 i0 s H2 H3 H4).
  - destruct (token w tokenId) as [r|] eqn:Hr.
    2:{ intros [= <- <- <-]. split; [reflexivity|]. split; [auto|].
        split; [reflexivity|]. discriminate. }
    destruct (rc <? RETRY_ATTEMPTS cfg)%nat eqn:Hlt; intros [= <- <- <-].
    + apply Nat.ltb_lt in Hlt. split; [reflexivity|]. split.
      * right. left. split; [assumption|]. split; [reflexivity|].
        unfold status. rewrite token_set_token. destruct (decide _); [|congruence].
        simpl. rewrite lookup_insert_ne by done. rewrite Hr. reflexivity.
      * split; [reflexivity|discriminate].
    + apply Nat.ltb_ge in Hlt. split; [reflexivity|]. split.
      * right. right. split; [assumption|]. split; [reflexivity|].
        destruct (failedRecord_lookup (<["lastSignerIndex" := orZero None]> r)
                    message (classifyError message) rc now) as [L1 L2].
        unfold status, property. rewrite !token_countFailure, !token_set_token.
        destruct (decide _); [|congruence]. simpl. auto.
      * split; [reflexivity|discriminate].
Qed.

End OtherErrorFacts.

Section SingleFacts.
Import Js JsString Classify Model Engine.

Lemma single_retryOrFail_cases (cfg : Config) (w : Single.World) (tokenId : Z)
    (rc : nat) (message : string) (now : Z) :
  exists w',
    ((rc < RETRY_ATTEMPTS cfg)%nat
     /\ Single.retryOrFail cfg w tokenId rc message now = (w', Single.Entry (S rc), []))
    \/ ((RETRY_ATTEMPTS cfg <= rc)%nat
        /\ Single.retryOrFail cfg w tokenId rc message now = (w', Single.Returned false, [])).
Proof.
  unfold Single.retryOrFail. destruct (rc <? RETRY_ATTEMPTS cfg)%nat eqn:Hlt.
  - apply Nat.ltb_lt in Hlt. eauto.
  - apply Nat.ltb_ge in Hlt. eauto.
Qed.

(** Every step of a call of [mintSingleToken] uses up work, and every
    submission uses up one of the attempts. *)
Lemma single_step_measures (cfg : Config) (w : Single.World) (tokenId : Z)
    (t : Single.Task) (i : Single.Input) (w' : Single.World) (t' : Single.Task)
    (ops : list ChainOp) :
  Single.step cfg w tokenId t i = Some (w', t', ops) ->
  (submissionsIn ops + Single.submissionsLeft cfg t' <= Single.submissionsLeft cfg t)%nat
  /\ (Single.work cfg t' < Single.work cfg t)%nat.
Proof.
  destruct t as [rc|rc nonce|rc message|b];
    destruct i as [now|now [receipt|message']|now answer]; simpl; try discriminate.
  - unfold Single.enter. destruct (Single.getNextNonce _) as [nonce n].
    intros [= <- <- <-]. unfold submissionsIn. simpl. lia.
  - intros [= <- <- <-]. unfold submissionsIn. simpl. lia.
  - unfold Single.catchBlock.
    destruct (decide _); [intros [= <- <- <-]; unfold submissionsIn; simpl; lia|].
    destruct (decide _); [intros [= <- <- <-]; unfold submissionsIn; simpl; lia|].
    destruct (single_retryOrFail_cases cfg w tokenId rc message' now)
      as (w1 & [[Hr H]|[Hr H]]); rewrite H; intros [= <- <- <-];
      unfold submissionsIn; simpl; lia.
  - match goal with |- context [Single.retryOrFail cfg ?w0 _ _ _ _] =>
      destruct (single_retryOrFail_cases cfg w0 tokenId rc message now)
        as (w1 & [[Hr H]|[Hr H]]) end;
      rewrite H; intros [= <- <- <-]; unfold submissionsIn; simpl; lia.
Qed.

Lemma single_run_measures (cfg : Config) (inputs : list Single.Input)
    (w : Single.World) (tokenId : Z) (t : Single.Task) :
  let '(w', t', ops) := Single.run cfg w tokenId t inputs in
  (submissionsIn ops + Single.submissionsLeft cfg t' <= Single.submissionsLeft cfg t)%nat
  /\ (Single.accepted cfg w tokenId t inputs + Single.work cfg t' <= Single.work cfg t)%nat.
Proof.
  revert w t. induction inputs as [|i rest IH]; intros w t; simpl.
  - unfold submissionsIn. simpl. lia.
  - destruct (Single.step cfg w tokenId t i) as [[[w1 t1] ops1]|] eqn:Hs; [|apply IH].
    specialize (IH w1 t1). destruct (Single.run cfg w1 tokenId t1 rest) as [[w2 t2] ops2].
    apply single_step_measures in Hs as (Ha & Hb).
    rewrite submissionsIn_app. lia.
Qed.

Lemma single_work_settled (cfg : Config) (t : Single.Task) :
  Single.work cfg t = O -> Single.settled t = true.
Proof. destruct t; simpl; intros; try reflexivity; lia. Qed.

Lemma single_unsettled_accepts (cfg : Config) (w : Single.World) (tokenId : Z)
    (t : Single.Task) :
  Single.settled t = false -> exists i, is_Some (Single.step cfg w tokenId t i).
Proof.
  destruct t as [rc|rc nonce|rc message|b]; try discriminate; intros _.
  - exists (Single.Resume 0). simpl. eauto.
  - exists (Single.TxAnswer 0 (inr "")). simpl. eauto.
  - exists (Single.ResetAnswer 0 (inl 0)). simpl. eauto.
Qed.

End SingleFacts.

(** ** The engine's handling of errors and retries *)

Section EngineTheorems.
Import Js JsString Classify Model SignerPool Engine Scheduler.

(** What holds of the short circuit on [ALREADY_KNOWN] in both scripts.
    A submission whose error is classified [ALREADY_KNOWN] completes the
    token at once: the record gets status [completed] and [txHash]
    [already_known] and keeps its [attempts], the call returns [true] and
    is counted as successful, and it takes no further step (no other
    submission).  In the multi-signer script a first attempt on a token
    without a record leaves [attempts] at 1. *)
Lemma already_known_short_circuit (cfg : Config) :
  (forall (w : World) (tokenId : Z) (rc : nat) (sd : SignerData) (nonce : Z)
          (message : string) (now : Z),
     classifyError message = ALREADY_KNOWN ->
     signerKnown w tokenId ->
     exists w',
       step cfg w tokenId (AwaitReceipt rc sd nonce) (TxAnswer now (inr message))
       = Some (w', Returned true, [])
       /\ status w' tokenId = Some (JsStr "completed")
       /\ property w' tokenId "txHash" = Some (JsStr "already_known")
       /\ property w' tokenId "attempts" = property w tokenId "attempts"
       /\ successful (summary (mintLog w')) = successful (summary (mintLog w)) + 1
       /\ forall input, step cfg w' tokenId (Returned true) input = None)
  /\ (forall (w : World) (tokenId now0 now1 now2 : Z) (chain : Chain)
             (sd : SignerData) (nonce : Z) (message : string),
        token w tokenId = None ->
        fst (getNextAvailableSigner now0 w) = Some sd ->
        getFreshNonce chain w (index sd) = inl nonce ->
        classifyError message = ALREADY_KNOWN ->
        is_Some (signerStates w !! 0%nat) ->
        is_Some (signerStats (mintLog w) !! 0%nat) ->
        exists w',
          run cfg w tokenId Queued
            [Resume now0; NonceAnswer now1 chain; TxAnswer now2 (inr message)]
          = (w', Returned true,
             [GetTransactionCount (index sd); EstimateGas (index sd);
              SendTransaction tokenId (index sd) nonce])
          /\ status w' tokenId = Some (JsStr "completed")
          /\ property w' tokenId "txHash" = Some (JsStr "already_known")
          /\ property w' tokenId "attempts" = Some (JsNum 1))
  /\ (forall (w : Single.World) (tokenId : Z) (rc : nat) (nonce : Z)
             (message : string) (now : Z),
        classifyError200k message = ALREADY_KNOWN ->
        exists w',
          Single.step cfg w tokenId (Single.AwaitTx rc nonce)
            (Single.TxAnswer now (inr message))
          = Some (w', Single.Returned true, [])
          /\ (r ← Single.tokens w' !! tokenId; r !! "status") = Some (JsStr "completed")
          /\ (r ← Single.tokens w' !! tokenId; r !! "txHash")
             = Some (JsStr "already_known")
          /\ (r ← Single.tokens w' !! tokenId; r !! "attempts")
             = (r ← Single.tokens w !! tokenId; r !! "attempts")
          /\ successful (Single.summary w') = successful (Single.summary w) + 1
          /\ forall input, Single.step cfg w' tokenId (Single.Returned true) input = None).
Proof.
  split; [|split].
  - intros w tokenId rc sd nonce message now Hc Hk.
    destruct (catchBlock_already_known cfg w tokenId rc message now Hc Hk)
      as (w' & H0 & H1 & H2 & H3 & H4).
    exists w'. simpl. rewrite H0. repeat split; assumption.
  - apply first_attempt_already_known.
  - intros w tokenId rc nonce message now Hc.
    destruct (single_already_known cfg w tokenId rc nonce message now Hc)
      as (w' & H0 & H1 & H2 & H3 & H4).
    exists w'. repeat split; assumption.
Qed.

(** A first attempt on token 1 of the small instance that ends in
    [already known]. *)
Lemma already_known_short_circuit_witness :
  exists w',
    run Examples.smallConfig (world Examples.started) 1 Queued
      [Resume 1001; NonceAnswer 1002 Examples.chainAt5;
       TxAnswer 1003 (inr "already known")]
    = (w', Returned true,
       [GetTransactionCount 0; EstimateGas 0; SendTransaction 1 0 5])
    /\ status w' 1 = Some (JsStr "completed")
    /\ property w' 1 "txHash" = Some (JsStr "already_known")
    /\ property w' 1 "attempts" = Some (JsNum 1).
Proof.
  refine (proj1 (proj2 (already_known_short_circuit Examples.smallConfig))
            (world Examples.started) 1 1001 1002 1003 Examples.chainAt5
            {| signer := Some "0xA"; index := 0; provider := Some "rpc" |} 5
            "already known" _ _ _ _ _ _).
  - reflexivity.
  - reflexivity.
  - reflexivity.
  - reflexivity.
  - eexists. reflexivity.
  - eexists. reflexivity.
Defined.

(** C8 as stated fails: on the small instance the first submission for
    token 1 fails with [insufficient funds]; the call goes on to a second
    attempt and submits again, and the signer is not in backoff. *)
Lemma insufficient_funds_counterexample :
  classifyError Examples.noFunds = INSUFFICIENT_FUNDS
  /\ snd (fst (run Examples.smallConfig (world Examples.started) 1 Queued
                 (Examples.failingAttempt 1001 Examples.noFunds)))
     = Entry 1
  /\ (isBackedOff
        <$> signerStates
              (fst (fst (run Examples.smallConfig (world Examples.started) 1 Queued
                           (Examples.failingAttempt 1001 Examples.noFunds)))) !! 0%nat)
     = Some false
  /\ snd (run Examples.smallConfig (world Examples.started) 1 Queued
            (Examples.failingAttempt 1001 Examples.noFunds
             ++ [Resume 5000; NonceAnswer 5001 Examples.chainAt5]))
     = [GetTransactionCount 0; EstimateGas 0; SendTransaction 1 0 5;
        GetTransactionCount 0; EstimateGas 0; SendTransaction 1 0 5].
Proof. repeat split; vm_compute; reflexivity. Qed.

(** C9, as the code has it.  Whatever the answers of the chain and the
    state of the signers, a call of [mintSingleTokenOptimized] makes at
    most [RETRY_ATTEMPTS + 1] attempts and submissions and takes at most
    [3 * RETRY_ATTEMPTS + 3] steps other than waits for a signer; once it
    has taken that many it has returned; and a call that has not returned
    can always take a step.  A call of [mintSingleToken] of the
    single-wallet script, which has no signer pool, returns after at most
    [3 * RETRY_ATTEMPTS + 3] steps and [RETRY_ATTEMPTS + 1] submissions. *)
Theorem retry_is_bounded (cfg : Config) :
  (forall (w : World) (tokenId : Z) (inputs : list Input),
     let '(w', t', ops) := run cfg w tokenId Queued inputs in
     (attemptsIn ops <= RETRY_ATTEMPTS cfg + 1)%nat
     /\ (submissionsIn ops <= RETRY_ATTEMPTS cfg + 1)%nat
     /\ (progressSteps cfg w tokenId Queued inputs <= 3 * RETRY_ATTEMPTS cfg + 3)%nat
     /\ ((3 * RETRY_ATTEMPTS cfg + 3 <= progressSteps cfg w tokenId Queued inputs)%nat ->
         settled t' = true))
  /\ (forall (w : World) (tokenId : Z) (t : Task),
        settled t = false -> exists i, is_Some (step cfg w tokenId t i))
  /\ (forall (w : Single.World) (tokenId : Z) (inputs : list Single.Input),
        let '(w', t', ops) := Single.run cfg w tokenId (Single.Entry 0) inputs in
        (submissionsIn ops <= RETRY_ATTEMPTS cfg + 1)%nat
        /\ (Single.accepted cfg w tokenId (Single.Entry 0) inputs
            <= 3 * RETRY_ATTEMPTS cfg + 3)%nat
        /\ ((3 * RETRY_ATTEMPTS cfg + 3
             <= Single.accepted cfg w tokenId (Single.Entry 0) inputs)%nat ->
            Single.settled t' = true))
  /\ (forall (w : Single.World) (tokenId : Z) (t : Single.Task),
        Single.settled t = false -> exists i, is_Some (Single.step cfg w tokenId t i)).
Proof.
  split; [|split; [|split]].
  - intros w tokenId inputs. pose proof (run_measures cfg inputs w tokenId Queued) as H.
    destruct (run cfg w tokenId Queued inputs) as [[w' t'] ops].
    destruct H as (Ha & Hb & Hc). simpl in Ha, Hb, Hc.
    repeat split; try lia. intros Hp. apply (work_settled cfg). lia.
  - apply unsettled_accepts.
  - intros w tokenId inputs.
    pose proof (single_run_measures cfg inputs w tokenId (Single.Entry 0)) as H.
    destruct (Single.run cfg w tokenId (Single.Entry 0) inputs) as [[w' t'] ops].
    destruct H as (Ha & Hb). simpl in Ha, Hb.
    repeat split; try lia. intros Hp. apply (single_work_settled cfg). lia.
  - apply single_unsettled_accepts.
Qed.

(** Six failing attempts, 40 s apart, on token 1 of the small instance
    ([RETRY_ATTEMPTS] is 5): the call has returned. *)
Lemma retry_is_bounded_witness :
  settled (snd (fst (run Examples.smallConfig (world Examples.started) 1 Queued
                       Examples.sixFailures))) = true.
Proof.
  pose proof (proj1 (retry_is_bounded Examples.smallConfig)
                (world Examples.started) 1 Examples.sixFailures) as H.
  destruct (run Examples.smallConfig (world Examples.started) 1 Queued
              Examples.sixFailures) as [[w' t'] ops].
  destruct H as (_ & _ & _ & H). apply H. vm_compute. reflexivity.
Defined.

(** C9 as stated fails: with no signer key set, [main] starts the batch
    with an empty pool; [getNextAvailableSigner] returns [null] every
    time, and the call sleeps and calls itself with the same [retryCount]
    for ever: on no sequence of inputs does it return. *)
Lemma no_signer_counterexample :
  signers (world Examples.startedNoSigner) = []
  /\ phase Examples.startedNoSigner = Batching [(1, Queued); (2, Queued)] []
  /\ forall inputs : list Input,
       settled (snd (fst (run Examples.noSignerConfig (world Examples.startedNoSigner)
                            1 Queued inputs))) = false.
Proof.
  split; [reflexivity|]. split; [reflexivity|]. intros inputs.
  destruct (no_signer_waits (world Examples.startedNoSigner) 1 inputs Queued
              Examples.noSignerConfig eq_refl (or_introl eq_refl)) as [-> | ->];
    reflexivity.
Qed.

End EngineTheorems.

(** ** The single-wallet script: pending tokens and first attempts *)

Section SinglePending.
Import Js JsString Classify Model Engine.

Lemma isStr_true (v : option JsValue) (text : string) :
  isStr v text = true <-> v = Some (JsStr text).
Proof.
  unfold isStr. destruct v as [[| |z|s|b]|]; try (split; [discriminate|congruence]).
  rewrite String.eqb_eq. split; congruence.
Qed.

(** The pending tokens of [mint_batch_200k_300k.js]: the ids that have a
    record with status [pending] or [failed], in ascending order.  An id
    without a record is not among them. *)
Lemma single_pendingTokens_spec (t : gmap Z JsObject) :
  (forall tokenId : Z,
     tokenId ∈ Single.pendingTokens t <->
     exists r, t !! tokenId = Some r
               /\ (r !! "status" = Some (JsStr "pending")
                   \/ r !! "status" = Some (JsStr "failed")))
  /\ Sorted Z.le (Single.pendingTokens t).
Proof.
  split.
  - intros tokenId. unfold Single.pendingTokens.
    rewrite merge_sort_Permutation. split.
    + intros Hin%list_elem_of_In%in_map_iff. destruct Hin as ([k r] & <- & Hin%list_elem_of_In).
      apply list_elem_of_filter in Hin as [Hp Hin]. apply elem_of_map_to_list in Hin.
      simpl in *. exists r. split; [assumption|].
      apply orb_true_iff in Hp as [Hp|Hp]; apply isStr_true in Hp; auto.
    + intros (r & Hr & Hs). apply list_elem_of_In, in_map_iff. exists (tokenId, r).
      split; [reflexivity|]. apply list_elem_of_In, list_elem_of_filter. split.
      * simpl. apply orb_true_iff. destruct Hs as [Hs|Hs]; [left|right];
          apply isStr_true, Hs.
      * apply elem_of_map_to_list, Hr.
  - apply Sorted_merge_sort. intros x y. lia.
Qed.

Lemma single_pendingTokens_elem (t : gmap Z JsObject) (tokenId : Z) :
  tokenId ∈ Single.pendingTokens t <->
  exists r, t !! tokenId = Some r
            /\ (r !! "status" = Some (JsStr "pending")
                \/ r !! "status" = Some (JsStr "failed")).
Proof.
  unfold Single.pendingTokens. rewrite merge_sort_Permutation. split.
  - intros Hin%list_elem_of_In%in_map_iff. destruct Hin as ([k r] & <- & Hin%list_elem_of_In).
    apply list_elem_of_filter in Hin as [Hp Hin]. apply elem_of_map_to_list in Hin.
    simpl in *. exists r. split; [assumption|].
    apply orb_true_iff in Hp as [Hp|Hp]; apply isStr_true in Hp; auto.
  - intros (r & Hr & Hs). apply list_elem_of_In, in_map_iff. exists (tokenId, r).
    split; [reflexivity|]. apply list_elem_of_In, list_elem_of_filter. split.
    + simpl. apply orb_true_iff. destruct Hs as [Hs|Hs]; [left|right];
        apply isStr_true, Hs.
    + apply elem_of_map_to_list, Hr.
Qed.

Lemma sorted_le_NoDup_lt (l : list Z) :
  StronglySorted Z.le l -> NoDup l -> StronglySorted Z.lt l.
Proof.
  induction 1 as [|x l _ IH Hx]; intros Hnd; [constructor|].
  apply NoDup_cons in Hnd as [Hnin Hnd]. constructor; [apply IH, Hnd|].
  rewrite Forall_forall in *. intros y Hy.
  assert (x <> y) by (intros ->; contradiction).
  specialize (Hx y Hy). lia.
Qed.

(** The keys of an object are distinct: the sorted pending tokens are
    strictly ascending. *)
Lemma single_pendingTokens_sorted (t : gmap Z JsObject) :
  StronglySorted Z.lt (Single.pendingTokens t).
Proof.
  apply sorted_le_NoDup_lt.
  - apply Sorted_StronglySorted; [intros x y z; lia|].
    apply Sorted_merge_sort. intros x y. lia.
  - unfold Single.pendingTokens. rewrite merge_sort_Permutation.
    change (map fst ?l) with (fst <$> l).
    eapply sublist_NoDup; [apply (NoDup_fst_map_to_list t)|].
    apply fmap_sublist, sublist_filter.
Qed.

Lemma initialTokens_lookup (cfg : Config) (tokenId : Z) :
  START_TOKEN_ID cfg <= tokenId <= END_TOKEN_ID cfg ->
  Single.initialTokens cfg !! tokenId = Some (Single.initialRecord tokenId).
Proof.
  intros Hr. unfold Single.initialTokens.
  apply elem_of_list_to_map_1.
  - assert (forall l : list Z,
              (map (fun tokenId => (tokenId, Single.initialRecord tokenId)) l).*1 = l)
      as Hfst.
    { induction l as [|x l IH]; [reflexivity|]. cbn [map fmap list_fmap fst] in *.
      rewrite IH. reflexivity. }
    rewrite Hfst. apply NoDup_seqZ.
  - apply list_elem_of_In, in_map_iff. exists tokenId. split; [reflexivity|].
    apply list_elem_of_In, elem_of_seqZ. lia.
Qed.

Lemma initialTokens_range (cfg : Config) (tokenId : Z) (r : JsObject) :
  Single.initialTokens cfg !! tokenId = Some r ->
  START_TOKEN_ID cfg <= tokenId <= END_TOKEN_ID cfg.
Proof.
  unfold Single.initialTokens. intros H%elem_of_list_to_map_2.
  apply list_elem_of_In, in_map_iff in H as (x & [= <- _] & Hx).
  apply list_elem_of_In, elem_of_seqZ in Hx. lia.
Qed.

End SinglePending.

Section PendingTheorems.
Import Js Model Engine Snapshot Scheduler.

(** C3, as the code has it.  In the multi-signer script the computation
    of the pending tokens returns, for every range and every record map,
    exactly the ids of the range whose record is absent or has status
    [pending] or [failed], in ascending order; a completed id is never
    included.  In [mint_batch_200k_300k.js] it returns exactly the ids that
    have a record with status [pending] or [failed], in ascending order,
    whatever the range: an id without a record is not included, and
    neither is a completed one.  On the records that its
    [loadExistingProgress] creates when there is no log file these are the
    ids of the range. *)
Theorem pendingTokens_spec (cfg : Config) :
  (forall w : World,
     (forall tokenId : Z,
        tokenId ∈ pendingTokens cfg w <->
        START_TOKEN_ID cfg <= tokenId <= END_TOKEN_ID cfg
        /\ (token w tokenId = None
            \/ status w tokenId = Some (JsStr "pending")
            \/ status w tokenId = Some (JsStr "failed")))
     /\ StronglySorted Z.lt (pendingTokens cfg w)
     /\ (forall tokenId : Z, completed w tokenId -> tokenId ∉ pendingTokens cfg w))
  /\ (forall t : gmap Z JsObject,
        (forall tokenId : Z,
           tokenId ∈ Single.pendingTokens t <->
           exists r, t !! tokenId = Some r
                     /\ (r !! "status" = Some (JsStr "pending")
                         \/ r !! "status" = Some (JsStr "failed")))
        /\ StronglySorted Z.lt (Single.pendingTokens t)
        /\ (forall (tokenId : Z) (r : JsObject),
              t !! tokenId = Some r -> r !! "status" = Some (JsStr "completed") ->
              tokenId ∉ Single.pendingTokens t))
  /\ (forall tokenId : Z,
        tokenId ∈ Single.pendingTokens (Single.initialTokens cfg) <->
        START_TOKEN_ID cfg <= tokenId <= END_TOKEN_ID cfg).
Proof.
  split; [|split].
  - intros w. split; [|split].
    + intros tokenId. rewrite elem_of_pendingTokens, isPending_spec. reflexivity.
    + apply StronglySorted_filter, StronglySorted_seqZ.
    + intros tokenId Hc Hin. apply elem_of_pendingTokens in Hin as [_ Hp].
      rewrite (completed_not_pending _ _ Hc) in Hp. discriminate.
  - intros t. split; [|split].
    + apply single_pendingTokens_elem.
    + apply single_pendingTokens_sorted.
    + intros tokenId r Hr Hc Hin. apply single_pendingTokens_elem in Hin as (r' & Hr' & Hs).
      assert (r' = r) as -> by congruence. rewrite Hc in Hs.
      destruct Hs as [Hs|Hs]; discriminate.
  - intros tokenId. rewrite single_pendingTokens_elem. split.
    + intros (r & Hr & _). exact (initialTokens_range cfg tokenId r Hr).
    + intros Hr. exists (Single.initialRecord tokenId).
      split; [apply initialTokens_lookup, Hr|]. left. reflexivity.
Qed.

(** The log with tokens 1 and 2 completed: token 1 is not pending. *)
Lemma pendingTokens_spec_witness :
  1 ∉ pendingTokens Examples.smallConfig (set_mintLog initialWorld Examples.doneLog).
Proof.
  apply (proj2 (proj2 (proj1 (pendingTokens_spec Examples.smallConfig)
                         (set_mintLog initialWorld Examples.doneLog)))).
  reflexivity.
Defined.

(** C3 as stated fails in [mint_batch_200k_300k.js]: for the range 1..2
    and a record map in which token 1 is completed, token 2 has no record
    and token 5 has a pending one, the pending tokens are [5] alone: token
    2, of the range and without a record, is left out, and token 5, outside
    the range, is included. *)
Lemma pendingTokens_entries_counterexample :
  Single.pendingTokens Examples.gappedTokens = [5]
  /\ Examples.gappedTokens !! 2 = None
  /\ START_TOKEN_ID Examples.smallConfig <= 2 <= END_TOKEN_ID Examples.smallConfig
  /\ ~ (forall tokenId : Z,
          tokenId ∈ Single.pendingTokens Examples.gappedTokens <->
          START_TOKEN_ID Examples.smallConfig <= tokenId <= END_TOKEN_ID Examples.smallConfig
          /\ (Examples.gappedTokens !! tokenId = None
              \/ (r ← Examples.gappedTokens !! tokenId; r !! "status")
                 = Some (JsStr "pending")
              \/ (r ← Examples.gappedTokens !! tokenId; r !! "status")
                 = Some (JsStr "failed"))).
Proof.
  assert (Single.pendingTokens Examples.gappedTokens = [5]) as H5
    by (vm_compute; reflexivity).
  split; [exact H5|]. split; [reflexivity|]. split; [simpl; lia|].
  intros H. specialize (H 2). rewrite H5 in H.
  assert (2 ∈ [5]) as Hin.
  { apply H. split; [simpl; lia|]. left. reflexivity. }
  apply list_elem_of_singleton in Hin. discriminate.
Qed.

End PendingTheorems.

Section SingleTheorems.
Import Js JsString Classify Model Engine.

(** On a first run of [mint_batch_200k_300k.js] the records that
    [loadExistingProgress] creates have no [attempts] property: the first
    attempt on such a record stores [NaN] in [attempts], where a record
    created by [mintSingleToken] itself would count 1. *)
Theorem single_first_attempt_counts (cfg : Config) (w : Single.World)
    (tokenId : Z) (retryCount : nat) (now : Z) :
  (r ← Single.tokens
         (fst (fst (Single.enter
                      (Single.set_token w tokenId (Single.initialRecord tokenId))
                      tokenId retryCount now))) !! tokenId;
   r !! "attempts") = Some JsNaN
  /\ (Single.tokens w !! tokenId = None ->
      (r ← Single.tokens (fst (fst (Single.enter w tokenId retryCount now))) !! tokenId;
       r !! "attempts") = Some (JsNum 1)).
Proof.
  split.
  - unfold Single.enter. destruct (Single.getNextNonce _) as [nonce n]. simpl.
    rewrite !lookup_insert_eq. simpl. rewrite lookup_insert_eq. reflexivity.
  - intros Hn. unfold Single.enter. destruct (Single.getNextNonce _) as [nonce n]. simpl.
    rewrite Hn, lookup_insert_eq. simpl. rewrite lookup_insert_eq. reflexivity.
Qed.

(** A token without a record, in a state with an empty log. *)
Lemma single_first_attempt_counts_witness :
  (r ← Single.tokens
         (fst (fst (Single.enter
                      {| Single.tokens := ∅; Single.summary := summary initialMintLog;
                         Single.nonces := {| Single.baseNonce := Some 5;
                                             Single.nonceOffset := 0 |} |}
                      7 0 1000))) !! 7;
   r !! "attempts") = Some (JsNum 1).
Proof.
  apply (proj2 (single_first_attempt_counts Examples.smallConfig
                  {| Single.tokens := ∅; Single.summary := summary initialMintLog;
                     Single.nonces := {| Single.baseNonce := Some 5;
                                         Single.nonceOffset := 0 |} |}
                  7 0 1000)).
  reflexivity.
Defined.

End SingleTheorems.

Section SignerIndexTheorems.
Import Js JsString Classify Model SignerPool Engine Scheduler.

Lemma failedRecord_keeps (r : JsObject) (message : string) (e : ErrorType)
    (rc : nat) (now : Z) :
  failedRecord r message e rc now !! "lastSignerIndex" = r !! "lastSignerIndex".
Proof. unfold failedRecord. rewrite !lookup_insert_ne by done. reflexivity. Qed.

(** The [catch] block never learns which signer was used: when a
    submission fails for a token whose record has no [lastSignerIndex]
    yet, no signer state changes, whichever signer made the submission,
    and the index recorded for the following failures is 0. *)
Theorem first_failure_charges_no_signer (cfg : Config) (w : World) (tokenId : Z)
    (rc : nat) (sd : SignerData) (nonce : Z) (message : string) (now : Z)
    (w' : World) (t' : Task) (ops : list ChainOp) :
  property w tokenId "lastSignerIndex" = None ->
  classifyError message <> ALREADY_KNOWN ->
  step cfg w tokenId (AwaitReceipt rc sd nonce) (TxAnswer now (inr message))
  = Some (w', t', ops) ->
  signerStates w' = signerStates w
  /\ (t' <> Thrown -> property w' tokenId "lastSignerIndex" = Some (JsNum 0)).
Proof.
  intros Hp Hc. simpl. intros [= Hcb].
  split; [exact (proj1 (proj2 (proj2 (catchBlock_other cfg w tokenId rc message now
                                        w' t' ops Hc Hcb))) Hp)|].
  revert Hcb. unfold catchBlock.
  destruct (decide (classifyError message = ALREADY_KNOWN)); [contradiction|].
  fold (property w tokenId "lastSignerIndex"). rewrite Hp.
  destruct (token w tokenId) as [r|] eqn:Hr; [|intros [= <- <- <-] Hn; contradiction].
  destruct (rc <? RETRY_ATTEMPTS cfg)%nat; intros [= <- <- <-] _.
  - rewrite property_set_token. apply lookup_insert_eq.
  - unfold property. rewrite token_countFailure, token_set_token.
    destruct (decide _); [|congruence]. simpl.
    rewrite failedRecord_keeps. apply lookup_insert_eq.
Qed.

(** The first failure of token 1 on the small instance. *)
Lemma first_failure_charges_no_signer_witness :
  signerStates
    (fst (fst (run Examples.smallConfig (world Examples.started) 1 Queued
                 (Examples.failingAttempt 1001 "boom"))))
  = signerStates
      (fst (fst (run Examples.smallConfig (world Examples.started) 1 Queued
                   [Resume 1001; NonceAnswer 1002 Examples.chainAt5]))).
Proof.
  refine (proj1 (first_failure_charges_no_signer Examples.smallConfig
                   (fst (fst (run Examples.smallConfig (world Examples.started) 1 Queued
                                [Resume 1001; NonceAnswer 1002 Examples.chainAt5])))
                   1 0 {| signer := Some "0xA"; index := 0; provider := Some "rpc" |} 5
                   "boom" 1003 _ (Entry 1) [] _ _ _)).
  - reflexivity.
  - discriminate.
  - vm_compute. reflexivity.
Defined.

End SignerIndexTheorems.

(** ** The constants of the scripts *)

Section ConfigFacts.
Import Js JsString Classify Model SignerPool Engine Snapshot Scheduler.

(** With the constants of the multi-signer script a call makes at most
    six attempts and six submissions. *)
Lemma CONFIG_six_attempts (keys : list string) (w : World) (tokenId : Z)
    (inputs : list Input) :
  (attemptsIn (snd (run (CONFIG keys) w tokenId Queued inputs)) <= 6)%nat
  /\ (submissionsIn (snd (run (CONFIG keys) w tokenId Queued inputs)) <= 6)%nat.
Proof.
  pose proof (run_measures (CONFIG keys) inputs w tokenId Queued) as H.
  destruct (run (CONFIG keys) w tokenId Queued inputs) as [[w' t'] ops].
  destruct H as (Ha & Hb & _). simpl in *. lia.
Qed.

(** On an empty disk the small instance has work to do: [main] connects
    and starts the batch of tokens 1 and 2. *)
Lemma main_on_empty_disk :
  snd (main Examples.smallConfig 1000 NetworkUp ∅) = [GetNetwork; GetBalance 0]
  /\ phase Examples.started = Batching [(1, Queued); (2, Queued)] [].
Proof. split; reflexivity. Qed.

(** In the single-wallet script a reset of the sequence hands out
    nonces again.  A reset restarts the sequence at the count the
    provider reports, whatever has been handed out: a nonce [n] that
    [getNextNonce] handed out before, and that the provider does not count
    yet ([count <= n]: its transaction is not yet sent, or not yet seen),
    is returned once more, by call number [n - count + 1] after the
    reset. *)
Theorem reset_reissues_nonce (s s' : Single.NonceState) (j : nat) (n count : Z) :
  n ∈ Single.nextNonces j s -> count <= n ->
  Single.nextNonces (S (Z.to_nat (n - count)))
    (Single.resetNonceSequence (inl count) s') !! Z.to_nat (n - count)
  = Some n.
Proof.
  intros _ Hle. rewrite nextNonces_run. change (map ?f ?l) with (f <$> l).
  rewrite list_lookup_fmap, lookup_seq_lt by lia. simpl. f_equal. lia.
Qed.

(** Nonce 5 is handed out; the provider still reports 5 when the sequence
    is reset; the next call returns 5 again. *)
Lemma reset_reissues_nonce_witness :
  Single.nextNonces (S (Z.to_nat (5 - 5)))
    (Single.resetNonceSequence (inl 5)
       (snd (Single.getNextNonce {| Single.baseNonce := Some 5; Single.nonceOffset := 0 |})))
  !! Z.to_nat (5 - 5)
  = Some 5.
Proof.
  apply (reset_reissues_nonce {| Single.baseNonce := Some 5; Single.nonceOffset := 0 |}
           (snd (Single.getNextNonce
                   {| Single.baseNonce := Some 5; Single.nonceOffset := 0 |}))
           1 5 5).
  - vm_compute. apply list_elem_of_here.
  - lia.
Defined.

End ConfigFacts.

(** ** The retry script *)

Section RetryScriptTheorems.
Import Js JsString Classify Model.

Lemma retry_settlePending_written (w : Retry.World) (tokenId : string) (r : JsObject) :
  r !! "status" <> Some (JsStr "pending") ->
  pending (Retry.summary (Retry.settlePending (Retry.set_token w tokenId r) tokenId))
  = pending (Retry.summary w).
Proof.
  intros Hs. unfold Retry.settlePending. simpl. rewrite lookup_insert_eq.
  destruct (isStr (r !! "status") "pending") eqn:Hp; [|reflexivity].
  apply isStr_true in Hp. contradiction.
Qed.

(** In [retry_failed_batch2_optimized.js] a call of
    [mintSingleTokenOptimized] on a token whose record is completed
    returns [true] at once: no nonce is taken, nothing is submitted and
    the log stays as it is. *)
Theorem retry_guard_skips_completed (cfg : Config) (w : Retry.World)
    (tokenId : string) (retryCount : nat) (now : Z) :
  Retry.isCompleted w tokenId = true ->
  Retry.step cfg w tokenId (Retry.Entry retryCount) (Retry.Resume now)
  = Some (w, Retry.Returned true, []).
Proof. intros H. simpl. unfold Retry.enter. rewrite H. reflexivity. Qed.

(** A completed record for the token 7. *)
Lemma retry_guard_skips_completed_witness :
  Retry.step Examples.smallConfig
    {| Retry.tokens := <["7" := Retry.alreadyKnownRecord "7" 0]> ∅;
       Retry.summary := summary initialMintLog;
       Retry.nonces := {| Single.baseNonce := Some 5; Single.nonceOffset := 0 |} |}
    "7" (Retry.Entry 0) (Retry.Resume 1000)
  = Some ({| Retry.tokens := <["7" := Retry.alreadyKnownRecord "7" 0]> ∅;
             Retry.summary := summary initialMintLog;
             Retry.nonces := {| Single.baseNonce := Some 5; Single.nonceOffset := 0 |} |},
          Retry.Returned true, []).
Proof.
  apply (retry_guard_skips_completed Examples.smallConfig). reflexivity.
Defined.

(** In [retry_failed_batch2_optimized.js] no step of a call changes
    [summary.pending]: the test [status === 'pending'] that guards the
    decrement reads the record the call has just written, whose status is
    [completed] or [failed]. *)
Theorem retry_pending_never_counted (cfg : Config) (w : Retry.World)
    (tokenId : string) (t : Retry.Task) (i : Retry.Input) :
  match Retry.step cfg w tokenId t i with
  | Some (w', _, _) => pending (Retry.summary w') = pending (Retry.summary w)
  | None => True
  end.
Proof.
  destruct t as [rc|rc nonce|rc message|b];
    destruct i as [now|now [receipt|message']|now answer]; simpl; try exact I.
  - unfold Retry.enter. destruct (Retry.isCompleted w tokenId); [reflexivity|].
    destruct (Single.getNextNonce _). reflexivity.
  - unfold Retry.settlePending. simpl. rewrite lookup_insert_eq. reflexivity.
  - unfold Retry.catchBlock. destruct (decide _).
    + unfold Retry.settlePending. simpl. rewrite lookup_insert_eq. reflexivity.
    + destruct (decide _); [reflexivity|]. unfold Retry.retryOrFail.
      destruct (rc <? RETRY_ATTEMPTS cfg)%nat; [reflexivity|].
      unfold Retry.settlePending. simpl. rewrite lookup_insert_eq. reflexivity.
  - unfold Retry.retryOrFail. destruct (rc <? RETRY_ATTEMPTS cfg)%nat; [reflexivity|].
    unfold Retry.settlePending. simpl. rewrite lookup_insert_eq. reflexivity.
Qed.

End RetryScriptTheorems.

Section LruFacts.
Import Js Model SignerPool.

(** The head of the sorted keys: every key before it in the unsorted
    array was used strictly later, every key after it not earlier. *)
Lemma insertByLastUsed_head (x : nat * SignerState) (l : list (nat * SignerState)) :
  head (insertByLastUsed x l)
  = match head l with
    | Some y => if lastUsed (snd x) <=? lastUsed (snd y) then Some x else Some y
    | None => Some x
    end.
Proof.
  destruct l as [|y l]; simpl; [reflexivity|].
  destruct (lastUsed x.2 <=? lastUsed y.2); reflexivity.
Qed.

Lemma sortByLastUsed_head (l : list (nat * SignerState)) (h : nat * SignerState) :
  head (sortByLastUsed l) = Some h ->
  exists l1 l2, l = l1 ++ h :: l2
    /\ (forall y, y ∈ l1 -> lastUsed (snd h) < lastUsed (snd y))
    /\ (forall y, y ∈ l2 -> lastUsed (snd h) <= lastUsed (snd y)).
Proof.
  revert h. induction l as [|x l IH]; intros h; simpl; [discriminate|].
  rewrite insertByLastUsed_head.
  destruct (head (sortByLastUsed l)) as [y|] eqn:Hy.
  - destruct (IH y eq_refl) as (l1 & l2 & -> & H1 & H2).
    destruct (lastUsed x.2 <=? lastUsed y.2) eqn:Hc; intros [= <-].
    + apply Z.leb_le in Hc. exists [], (l1 ++ y :: l2). split; [reflexivity|].
      split; [intros z Hz; inversion Hz|].
      intros z Hz. apply elem_of_app in Hz as [Hz|Hz].
      * specialize (H1 z Hz). lia.
      * apply elem_of_cons in Hz as [->|Hz]; [lia|]. specialize (H2 z Hz). lia.
    + apply Z.leb_gt in Hc. exists (x :: l1), l2. split; [reflexivity|].
      split; [|exact H2].
      intros z Hz. apply elem_of_cons in Hz as [->|Hz]; [lia|]. apply H1, Hz.
  - intros [= <-]. exists [], l. split; [reflexivity|].
    split; [intros z Hz; inversion Hz|].
    intros z Hz. exfalso.
    assert (z ∈ sortByLastUsed l) as Hin by (rewrite sortByLastUsed_perm; exact Hz).
    apply head_None in Hy. rewrite Hy in Hin. inversion Hin.
Qed.

Lemma imap_keys_sorted {A} (k : nat) (states : list A) :
  StronglySorted (fun a b : nat * A => (fst a < fst b)%nat)
    (imap (fun i s => ((k + i)%nat, s)) states).
Proof.
  revert k. induction states as [|s states IH]; intros k; simpl; [constructor|].
  constructor.
  - rewrite (imap_ext _ (fun i s => ((S k + i)%nat, s))).
    + apply IH.
    + intros i x _. simpl. f_equal. lia.
  - apply Forall_forall. intros [j sj] Hin.
    apply elem_of_lookup_imap in Hin as (i & y & Heq & _). simpl in Heq.
    injection Heq as -> ->. simpl. lia.
Qed.

Lemma activeSigners_sorted (states : list SignerState) :
  StronglySorted (fun a b : nat * SignerState => (fst a < fst b)%nat)
    (activeSigners states).
Proof.
  unfold activeSigners. apply StronglySorted_filter.
  exact (imap_keys_sorted 0 states).
Qed.

Lemma oldestSignerIndex_least (states : list SignerState) (i : nat) :
  oldestSignerIndex states = Some i ->
  exists s, states !! i = Some s /\ isBackedOff s = false
    /\ forall j sj, states !! j = Some sj -> isBackedOff sj = false ->
         lastUsed s < lastUsed sj \/ (lastUsed s = lastUsed sj /\ (i <= j)%nat).
Proof.
  unfold oldestSignerIndex. intros H.
  destruct (head _) as [[i' s]|] eqn:Hh; [|discriminate]. simpl in H. injection H as ->.
  destruct (sortByLastUsed_head _ _ Hh) as (l1 & l2 & Hl & H1 & H2).
  assert ((i, s) ∈ activeSigners states) as Hin.
  { rewrite Hl. apply elem_of_app. right. apply elem_of_cons. auto. }
  apply elem_of_activeSigners in Hin as [Hs Hb].
  exists s. split; [assumption|]. split; [assumption|].
  intros j sj Hj Hbj.
  assert ((j, sj) ∈ activeSigners states) as Hjin by (apply elem_of_activeSigners; auto).
  pose proof (activeSigners_sorted states) as Hsorted. rewrite Hl in Hsorted, Hjin.
  apply elem_of_app in Hjin as [Hjin|Hjin].
  - left. exact (H1 _ Hjin).
  - apply elem_of_cons in Hjin as [[= -> ->]|Hjin]; [right; split; [reflexivity|lia]|].
    pose proof (H2 _ Hjin) as Hle. simpl in Hle.
    apply StronglySorted_app_1_r in Hsorted. inversion Hsorted as [|? ? _ Hall]; subst.
    rewrite Forall_forall in Hall. specialize (Hall _ Hjin). simpl in Hall.
    destruct (decide (lastUsed s = lastUsed sj)); [right; split; [assumption|lia]|left; lia].
Qed.

Lemma reactivate_lastUsed (now : Z) (s : SignerState) :
  lastUsed (reactivate now s) = lastUsed s.
Proof. unfold reactivate. destruct (_ && _); reflexivity. Qed.

End LruFacts.

Section LruTheorems.
Import Js Model SignerPool.

(** [getNextAvailableSigner] hands out the least recently used of the
    selectable signers, the one with the lowest index among those used at
    the same time, and stamps it with the time of the call. *)
Theorem acquire_least_recently_used (now : Z) (w : World) (sd : SignerData) (w' : World) :
  getNextAvailableSigner now w = (Some sd, w') ->
  exists s,
    signerStates w !! index sd = Some s
    /\ (forall j sj, signerStates w !! j = Some sj -> selectable now w j ->
          lastUsed s < lastUsed sj
          \/ (lastUsed s = lastUsed sj /\ (index sd <= j)%nat))
    /\ (exists s', signerStates w' !! index sd = Some s' /\ lastUsed s' = now).
Proof.
  unfold getNextAvailableSigner.
  destruct (findLoop _ _) as [i|] eqn:Hf; [|discriminate].
  intros [= <- <-]. simpl. apply findLoop_Some in Hf as [Ho _].
  apply oldestSignerIndex_least in Ho as (s & Hs & Hb & Hmin).
  pose proof Hs as Hs0. rewrite reactivateAll_lookup in Hs0.
  destruct (signerStates w !! i) as [s0|] eqn:Hs0'; [|discriminate].
  simpl in Hs0. injection Hs0 as Hs0.
  assert (lastUsed s = lastUsed s0) as Hlu.
  { rewrite <- Hs0. destruct (decide _); [apply reactivate_lastUsed|reflexivity]. }
  exists s0. split; [reflexivity|]. split.
  - intros j sj Hj [sj' Hsel]. apply elem_of_activeSigners in Hsel as [Hj' Hbj].
    specialize (Hmin j sj' Hj' Hbj).
    assert (lastUsed sj' = lastUsed sj) as Hluj.
    { rewrite reactivateAll_lookup, Hj in Hj'. simpl in Hj'. injection Hj' as <-.
      destruct (decide _); [apply reactivate_lastUsed|reflexivity]. }
    rewrite Hlu, Hluj in Hmin. exact Hmin.
  - exists (touch now s). split; [|reflexivity].
    rewrite list_lookup_alter, Hs. destruct (decide (i = i)); [reflexivity|congruence].
Qed.

(** Two signers last used at 1000: the call at 1001 hands out signer 0. *)
Lemma acquire_least_recently_used_witness :
  exists s,
    signerStates (Scheduler.world Instances.startedTwo) !! 0%nat = Some s
    /\ (forall j sj,
          signerStates (Scheduler.world Instances.startedTwo) !! j = Some sj ->
          selectable 1001 (Scheduler.world Instances.startedTwo) j ->
          lastUsed s < lastUsed sj \/ (lastUsed s = lastUsed sj /\ (0 <= j)%nat))
    /\ (exists s',
          signerStates
            (snd (getNextAvailableSigner 1001 (Scheduler.world Instances.startedTwo)))
          !! 0%nat = Some s'
          /\ lastUsed s' = 1001).
Proof.
  apply (acquire_least_recently_used 1001 (Scheduler.world Instances.startedTwo)
           Instances.firstOfTwo
           (snd (getNextAvailableSigner 1001 (Scheduler.world Instances.startedTwo)))).
  vm_compute. reflexivity.
Defined.

End LruTheorems.

Section RoundRobinFacts.
Import Js Model SignerPool Rounds.

Lemma reactivateAll_none_backed_off (now : Z) (n : nat) (states : list SignerState) :
  (forall i s, states !! i = Some s -> isBackedOff s = false) ->
  reactivateAll now n states = states.
Proof.
  intros H. apply list_eq. intros i. rewrite reactivateAll_lookup.
  destruct (states !! i) as [s|] eqn:Hs; [|reflexivity]. simpl.
  destruct (decide _); [|reflexivity].
  unfold reactivate. rewrite (H i s Hs). reflexivity.
Qed.

(** An index below [n] outside a duplicate-free list shorter than [n]. *)
Lemma fresh_index (n : nat) (A : list nat) :
  NoDup A -> (forall i, i ∈ A -> (i < n)%nat) -> (length A < n)%nat ->
  exists j, (j < n)%nat /\ j ∉ A.
Proof.
  intros Hnd Hlt Hlen.
  destruct (decide (Forall (fun j => j ∈ A) (seq 0 n))) as [Hall|Hex].
  - exfalso. rewrite Forall_forall in Hall.
    assert (seq 0 n ⊆+ A) as Hsub.
    { apply NoDup_submseteq; [apply NoDup_seq|]. exact Hall. }
    apply submseteq_length in Hsub. rewrite length_seq in Hsub. lia.
  - apply not_Forall_Exists in Hex; [|intros j; apply _].
    apply Exists_exists in Hex as (j & Hj & Hn). exists j. split; [|exact Hn].
    apply elem_of_seq in Hj. lia.
Qed.

Lemma acquire_in_round (A : list nat) (t : Z) (times : list Z) (w : World) :
  midRound A (t :: times) w -> (length A < length (signers w))%nat ->
  exists sd w', getNextAvailableSigner t w = (Some sd, w')
    /\ (index sd ∉ A) /\ midRound (index sd :: A) times w'.
Proof.
  intros (Hlen & Hact & Hold & Hnew & Hnd & Hlt) Hroom.
  destruct (fresh_index _ A Hnd Hlt Hroom) as (j & Hj & HjA).
  destruct (lookup_lt_is_Some_2 (signerStates w) j) as [sj Hsj]; [lia|].
  assert (signers w <> []) as Hne by (destruct (signers w); [simpl in Hj; lia|discriminate]).
  assert (selectable t w j) as Hsel.
  { apply (selectable_iff t w j sj Hsj). left. exact (Hact j sj Hsj). }
  destruct (acquire_succeeds t w Hne (ex_intro _ j Hsel)) as [sd Hsd].
  destruct (getNextAvailableSigner t w) as [o w'] eqn:Hg. simpl in Hsd. subst o.
  exists sd, w'. split; [reflexivity|].
  destruct (acquire_least_recently_used t w sd w' Hg) as (s & Hs & Hmin & _).
  assert (index sd ∉ A) as HiA.
  { intros Hin. specialize (Hnew _ _ _ _ Hin HjA Hs Hsj).
    destruct (Hmin j sj Hsj Hsel) as [?|[? _]]; lia. }
  split; [exact HiA|].
  assert (signers w' = signers w /\ signerStates w' = alter (touch t) (index sd) (signerStates w))
    as [Hsig Hst].
  { unfold getNextAvailableSigner in Hg.
    rewrite (reactivateAll_none_backed_off _ _ _ Hact) in Hg.
    destruct (findLoop _ _); [|discriminate]. injection Hg as <- <-. simpl. auto. }
  assert (forall k sk, signerStates w' !! k = Some sk ->
            exists sk0, signerStates w !! k = Some sk0
              /\ isBackedOff sk = isBackedOff sk0
              /\ (k = index sd -> lastUsed sk = t)
              /\ (k <> index sd -> lastUsed sk = lastUsed sk0)) as Hlook.
  { intros k sk. rewrite Hst, list_lookup_alter.
    destruct (decide (index sd = k)) as [<-|Hk].
    - rewrite Hs. simpl. intros [= <-]. exists s. simpl. tauto.
    - intros Hk'. exists sk. split; [assumption|]. split; [reflexivity|]. split; congruence. }
  unfold midRound. rewrite Hsig. split; [|split; [|split; [|split; [|split]]]].
  - rewrite Hst, length_alter. exact Hlen.
  - intros k sk Hk. destruct (Hlook k sk Hk) as (sk0 & Hk0 & Hb & _). rewrite Hb.
    exact (Hact _ _ Hk0).
  - intros k sk t' HkA Hk Ht'. apply not_elem_of_cons in HkA as [Hne' HkA].
    destruct (Hlook k sk Hk) as (sk0 & Hk0 & _ & _ & Hlu). rewrite (Hlu Hne').
    apply (Hold k sk0 t' HkA Hk0). apply elem_of_cons. auto.
  - intros k sk k' sk' HkA Hk'A Hk Hk'.
    apply not_elem_of_cons in Hk'A as [Hne' Hk'A].
    destruct (Hlook k' sk' Hk') as (sk0' & Hk0' & _ & _ & Hlu'). rewrite (Hlu' Hne').
    destruct (Hlook k sk Hk) as (sk0 & Hk0 & _ & Heq & Hlu).
    apply elem_of_cons in HkA as [->|HkA].
    + rewrite (Heq eq_refl). apply (Hold k' sk0' t Hk'A Hk0'). apply elem_of_cons. auto.
    + assert (k <> index sd) as Hki by (intros ->; contradiction).
      rewrite (Hlu Hki). exact (Hnew _ _ _ _ HkA Hk'A Hk0 Hk0').
  - constructor; assumption.
  - intros k Hk. apply elem_of_cons in Hk as [->|Hk]; [|apply Hlt, Hk].
    rewrite <- Hlen. eapply lookup_lt_Some, Hs.
Qed.

Lemma round_acquired (cfg : Config) (times : list Z) (A : list nat) (w : World) :
  midRound A times w -> (length A + length times <= length (signers w))%nat ->
  NoDup (acquired cfg (map Acquire times) w ++ A)
  /\ length (acquired cfg (map Acquire times) w) = length times.
Proof.
  revert A w. induction times as [|t times IH]; intros A w Hmid Hlen; simpl.
  - split; [apply Hmid|reflexivity].
  - simpl in Hlen.
    destruct (acquire_in_round A t times w Hmid) as (sd & w' & Hg & HiA & Hmid'); [lia|].
    rewrite Hg. simpl.
    assert (signers w' = signers w) as Hsig.
    { unfold getNextAvailableSigner in Hg. destruct (findLoop _ _); injection Hg as _ <-;
        reflexivity. }
    destruct (IH (index sd :: A) w' Hmid') as [Hnd Hl].
    { rewrite Hsig. simpl. lia. }
    split; [|simpl; rewrite Hl; reflexivity].
    apply NoDup_app in Hnd as (Hnd1 & Hdisj & Hnd2).
    apply NoDup_cons. split.
    + intros Hin. apply elem_of_app in Hin as [Hin|Hin]; [|contradiction].
      apply (Hdisj _ Hin). apply elem_of_cons. auto.
    + apply NoDup_app. split; [assumption|]. split; [|apply NoDup_cons in Hnd2; tauto].
      intros x Hx HxA. apply (Hdisj x Hx). apply elem_of_cons. auto.
Qed.

End RoundRobinFacts.

Section RoundRobinTheorems.
Import Js Model SignerPool.

(** Round robin.  When no signer is backed off and the pool has an entry
    per signer, a series of at most [signers.length] calls of
    [getNextAvailableSigner], each made later than the last use of every
    signer before the series, hands out that many signers, all
    different. *)
Theorem acquire_round_robin (cfg : Config) (w : World) (times : list Z) :
  length (signerStates w) = length (signers w) ->
  Forall (fun s => isBackedOff s = false) (signerStates w) ->
  Forall (fun s => Forall (fun t => lastUsed s < t) times) (signerStates w) ->
  (length times <= length (signers w))%nat ->
  NoDup (acquired cfg (map Acquire times) w)
  /\ length (acquired cfg (map Acquire times) w) = length times.
Proof.
  intros Hlen Hact Hold Hn.
  rewrite Forall_lookup in Hact. rewrite Forall_lookup in Hold.
  destruct (round_acquired cfg times [] w) as [Hnd Hl].
  - split; [assumption|]. split; [assumption|]. split.
    { intros i s t _ Hs Ht. specialize (Hold i s Hs). rewrite Forall_forall in Hold.
      exact (Hold t Ht). }
    split; [intros ? ? ? ? Hin; inversion Hin|]. split; [constructor|].
    intros ? Hin; inversion Hin.
  - simpl. lia.
  - rewrite app_nil_r in Hnd. auto.
Qed.

(** Two signers last used at 1000, and two calls at 1001 and 1002. *)
Lemma acquire_round_robin_witness :
  NoDup (acquired Instances.twoSigners (map Acquire [1001; 1002])
           (Scheduler.world Instances.startedTwo))
  /\ length (acquired Instances.twoSigners (map Acquire [1001; 1002])
               (Scheduler.world Instances.startedTwo))
     = length [1001; 1002].
Proof.
  apply (acquire_round_robin Instances.twoSigners (Scheduler.world Instances.startedTwo)
           [1001; 1002]).
  - reflexivity.
  - vm_compute. repeat constructor.
  - vm_compute. repeat constructor.
  - vm_compute. lia.
Defined.

End RoundRobinTheorems.

Section SignerDataTheorems.
Import Js Model SignerPool Engine.

(** When the pool has an entry per signer, what [getNextAvailableSigner]
    hands out is one of the configured signers, with its wallet and, if
    any endpoint is configured, the provider [index % providers.length];
    [getFreshNonce] then asks exactly that provider about exactly that
    wallet. *)
Theorem acquire_signer_is_configured (now : Z) (w : World) (sd : SignerData) (w' : World) :
  length (signerStates w) = length (signers w) ->
  getNextAvailableSigner now w = (Some sd, w') ->
  (index sd < length (signers w))%nat
  /\ is_Some (signer sd)
  /\ (providers w <> [] -> is_Some (provider sd))
  /\ forall chain p a, provider sd = Some p -> signer sd = Some a ->
       getFreshNonce chain w' (index sd) = chain p a.
Proof.
  intros Hlen. unfold getNextAvailableSigner.
  destruct (findLoop _ _) as [i|] eqn:Hf; [|discriminate].
  intros [= <- <-]. simpl. apply findLoop_Some in Hf as [Ho _].
  apply oldestSignerIndex_Some in Ho as (s & Hs & _).
  assert (i < length (signers w))%nat as Hi.
  { rewrite <- Hlen. apply lookup_lt_Some in Hs.
    unfold reactivateAll in Hs. rewrite length_app, length_map, length_take, length_drop in Hs.
    lia. }
  split; [exact Hi|]. split; [apply lookup_lt_is_Some_2, Hi|]. split.
  - intros Hp. apply lookup_lt_is_Some_2. apply Nat.mod_upper_bound.
    destruct (providers w); [congruence|discriminate].
  - intros chain p a Hp Ha. unfold getFreshNonce. simpl. rewrite Hp, Ha. reflexivity.
Qed.

Lemma acquire_signer_is_configured_witness :
  (0 < length (signers (Scheduler.world Instances.startedTwo)))%nat
  /\ is_Some (Some "0xA")
  /\ (providers (Scheduler.world Instances.startedTwo) <> [] -> is_Some (Some "rpc0"))
  /\ forall chain p a, Some "rpc0" = Some p -> Some "0xA" = Some a ->
       getFreshNonce chain
         (snd (getNextAvailableSigner 1001 (Scheduler.world Instances.startedTwo))) 0
       = chain p a.
Proof.
  apply (acquire_signer_is_configured 1001 (Scheduler.world Instances.startedTwo)
           Instances.firstOfTwo
           (snd (getNextAvailableSigner 1001 (Scheduler.world Instances.startedTwo)))).
  - reflexivity.
  - vm_compute. reflexivity.
Defined.

End SignerDataTheorems.

(** ** Properties kept along a run *)

Section Lifting.
Import Js Model SignerPool Engine Snapshot Scheduler Invariants.

Variable cfg : Config.
Variable P : World -> Prop.
Variable Q : World -> Z -> Task -> Prop.
Variable R : World -> Z -> Prop.

Hypothesis step_own : forall w tokenId t i w' t' ops,
  P w -> Q w tokenId t -> step cfg w tokenId t i = Some (w', t', ops) ->
  P w' /\ Q w' tokenId t'.
Hypothesis step_other : forall w tokenId t i w' t' ops tokenId',
  P w -> Q w tokenId t -> step cfg w tokenId t i = Some (w', t', ops) ->
  tokenId' <> tokenId ->
  (forall t'', Q w tokenId' t'' -> Q w' tokenId' t'')
  /\ (R w tokenId' -> R w' tokenId').
Hypothesis start : forall w tokenId, P w -> R w tokenId -> Q w tokenId Queued.
Hypothesis stamp_completed : forall w now,
  P w -> P (set_mintLog w (set_completedAt (mintLog w) now)).
Hypothesis stamp_paused : forall w now,
  P w -> P (set_mintLog w (set_pausedAt (mintLog w) now)).
Hypothesis stamp_paused_call : forall w now tokenId t,
  Q w tokenId t -> Q (set_mintLog w (set_pausedAt (mintLog w) now)) tokenId t.
Hypothesis stamp_paused_token : forall w now tokenId,
  R w tokenId -> R (set_mintLog w (set_pausedAt (mintLog w) now)) tokenId.

Lemma holds_next_batch (w : World) (d : Disk) (l : list Z) :
  P w -> (forall tokenId, tokenId ∈ l -> R w tokenId) ->
  holds P Q R {| world := w; disk := d;
                 phase := Batching (startBatch (take (BATCH_SIZE cfg) l))
                                   (drop (BATCH_SIZE cfg) l) |}.
Proof.
  intros HP HR. split; [exact HP|]. simpl. split.
  - intros tokenId t [Hin ->]%elem_of_startBatch. apply start; [exact HP|].
    apply HR. eapply elem_of_sublist; [exact Hin|apply sublist_take].
  - intros tokenId Hin. apply HR. eapply elem_of_sublist; [exact Hin|apply sublist_drop].
Qed.

Lemma holds_step (s : Sys) (ops : list ChainOp) (s' : Sys) :
  invariant s -> holds P Q R s -> sys_step cfg s ops s' -> holds P Q R s'.
Proof.
  intros Hinv [HP HQR] Hstep. destruct Hstep as
    [s running queue k tokenId t input w' t' ops Hph Hk _ _ Hstep
    |s running queue now a a' Hph _
    |s running queue Hph _
    |s running queue now a Hph
    |s running queue now a d Hph _].
  - rewrite Hph in HQR. destruct HQR as [HQ HR].
    unfold invariant in Hinv. rewrite Hph in Hinv. destruct Hinv as (Hnd & _ & _).
    apply NoDup_app in Hnd as (Hnd1 & Hdisj & _).
    assert (Q (world s) tokenId t) as HQt by (eapply HQ, list_elem_of_lookup_2, Hk).
    destruct (step_own _ _ _ _ _ _ _ HP HQt Hstep) as [HP' HQ'].
    split; [exact HP'|]. simpl. split.
    + intros tokenId' t'' Hin. apply list_elem_of_lookup_1 in Hin as [j Hj].
      rewrite list_lookup_insert in Hj.
      destruct (decide (k = j ∧ (k < length running)%nat)) as [[<- _]|Hne].
      * injection Hj as <- <-. exact HQ'.
      * assert (k <> j) as Hkj.
        { intros <-. apply Hne. split; [reflexivity|]. eapply lookup_lt_Some, Hk. }
        assert (tokenId' <> tokenId) as Hneq.
        { intros ->. apply Hkj. eapply (NoDup_lookup _ _ _ _ Hnd1).
          - rewrite list_lookup_fmap, Hk. reflexivity.
          - rewrite list_lookup_fmap, Hj. reflexivity. }
        apply (proj1 (step_other _ _ _ _ _ _ _ tokenId' HP HQt Hstep Hneq)).
        eapply HQ, list_elem_of_lookup_2, Hj.
    + intros tokenId' Hin.
      assert (tokenId' <> tokenId) as Hneq.
      { intros ->. apply (Hdisj tokenId); [|assumption].
        apply list_elem_of_fmap. exists (tokenId, t). split; [reflexivity|].
        eapply list_elem_of_lookup_2, Hk. }
      apply (proj2 (step_other _ _ _ _ _ _ _ tokenId' HP HQt Hstep Hneq)).
      apply HR, Hin.
  - rewrite Hph in HQR. destruct HQR as [_ HR].
    destruct (afterBatch_cases cfg now a a' s queue)
      as [(Hp & _ & Hw)|[(_ & Hq & ->)|(_ & _ & _ & Hp & Hw)]].
    + split; [|rewrite Hp; exact I].
      destruct Hw as [-> | ->]; [exact HP|apply stamp_completed, HP].
    + apply holds_next_batch; assumption.
    + split; [|rewrite Hp; exact I]. rewrite Hw. apply stamp_completed, HP.
  - split; [exact HP|exact I].
  - unfold onSigint. destruct (saveLog cfg a _ _).
    split; [apply stamp_paused, HP|exact I].
  - split; [apply stamp_paused, HP|]. simpl. rewrite Hph in *.
    destruct HQR as [HQ HR]. split.
    + intros tokenId t Hin. apply stamp_paused_call, HQ, Hin.
    + intros tokenId Hin. apply stamp_paused_token, HR, Hin.
Qed.

Lemma holds_steps (s : Sys) (ops : list ChainOp) (s' : Sys) :
  invariant s -> holds P Q R s -> sys_steps cfg s ops s' -> holds P Q R s'.
Proof.
  intros Hinv Hh Hsteps. induction Hsteps as [s|s1 ops1 s2 ops2 s3 H1 _ IH]; [exact Hh|].
  apply IH.
  - exact (proj1 (sys_step_keeps cfg s1 ops1 s2 Hinv H1)).
  - exact (holds_step s1 ops1 s2 Hinv Hh H1).
Qed.

End Lifting.

Section BookkeepingFacts.
Import Js JsString Classify Model SignerPool Engine Snapshot Scheduler Invariants.

Lemma recordOk_insert (r : JsObject) (k : string) (v : JsValue) :
  k <> "lastSignerIndex" -> recordOk r -> recordOk (<[k := v]> r).
Proof. unfold recordOk. intros Hk H. rewrite lookup_insert_ne by exact Hk. exact H. Qed.

Lemma recordOk_last (r : JsObject) : recordOk (<["lastSignerIndex" := JsNum 0]> r).
Proof. right. apply lookup_insert_eq. Qed.

Lemma recordOk_empty : recordOk ∅.
Proof. left. apply lookup_empty. Qed.

Lemma recordOk_newRecord (tokenId now : Z) : recordOk (newRecord tokenId now).
Proof. unfold newRecord. repeat (apply recordOk_insert; [discriminate|]). apply recordOk_empty. Qed.

Lemma recordOk_completedRecord (r : JsObject) (receipt : Receipt) (sd : SignerData)
    (nonce now : Z) :
  recordOk r -> recordOk (completedRecord r receipt sd nonce now).
Proof.
  intros H. unfold completedRecord. cbv zeta.
  repeat (apply recordOk_insert; [discriminate|]).
  destruct (signer sd); repeat (apply recordOk_insert; [discriminate|]); exact H.
Qed.

Lemma recordOk_alreadyKnownRecord (r : JsObject) (now : Z) :
  recordOk r -> recordOk (alreadyKnownRecord r now).
Proof.
  intros H. unfold alreadyKnownRecord. cbv zeta.
  repeat (apply recordOk_insert; [discriminate|]). exact H.
Qed.

Lemma recordOk_failedRecord (r : JsObject) (message : string) (e : ErrorType)
    (rc : nat) (now : Z) :
  recordOk r -> recordOk (failedRecord r message e rc now).
Proof.
  intros H. unfold failedRecord. cbv zeta.
  repeat (apply recordOk_insert; [discriminate|]). exact H.
Qed.

Lemma orZero_recordOk (r : JsObject) :
  recordOk r -> orZero (r !! "lastSignerIndex") = JsNum 0.
Proof. intros [H|H]; rewrite H; reflexivity. Qed.

Lemma poolOk_token (w : World) (tokenId : Z) (r : JsObject) :
  poolOk w -> token w tokenId = Some r -> recordOk r.
Proof. intros (_ & _ & H & _) Hr. exact (H tokenId r Hr). Qed.

Lemma poolOk_set_token (w : World) (tokenId : Z) (r : JsObject) :
  poolOk w -> recordOk r -> poolOk (set_token w tokenId r).
Proof.
  intros (H1 & H2 & H3 & H4 & H5) Hr. unfold poolOk. simpl.
  split; [exact H1|]. split; [exact H2|]. split; [|split; assumption].
  intros t r'. simpl. rewrite lookup_insert. destruct (decide (tokenId = t)).
  - intros [= <-]. exact Hr.
  - apply H3.
Qed.

Lemma poolOk_countSuccess (w : World) : poolOk w -> poolOk (countSuccess w).
Proof. intros H. exact H. Qed.

Lemma poolOk_countFailure (w : World) : poolOk w -> poolOk (countFailure w).
Proof. intros H. exact H. Qed.

Lemma acquire_signers (now : Z) (w : World) :
  signers (snd (getNextAvailableSigner now w)) = signers w.
Proof. unfold getNextAvailableSigner. destruct (findLoop _ _); reflexivity. Qed.

Lemma reactivate_quiet (now : Z) (s : SignerState) : quiet s -> reactivate now s = s.
Proof. intros (Hb & _). unfold reactivate. rewrite Hb. reflexivity. Qed.

Lemma length_reactivateAll (now : Z) (n : nat) (states : list SignerState) :
  length (reactivateAll now n states) = length states.
Proof.
  unfold reactivateAll. rewrite length_app, length_map, length_take, length_drop. lia.
Qed.

Lemma poolOk_acquire (now : Z) (w : World) :
  poolOk w -> poolOk (snd (getNextAvailableSigner now w)).
Proof.
  intros (H1 & H2 & H3 & H4 & H5).
  assert (forall i s, (1 <= i)%nat ->
            reactivateAll now (length (signers w)) (signerStates w) !! i = Some s -> quiet s)
    as Hq.
  { intros i s Hi. rewrite reactivateAll_lookup.
    destruct (signerStates w !! i) as [s0|] eqn:Hs0; [|discriminate]. simpl.
    intros [= <-]. pose proof (H4 i s0 Hi Hs0) as Hq0.
    destruct (decide _); [rewrite reactivate_quiet by exact Hq0|]; exact Hq0. }
  unfold getNextAvailableSigner. destruct (findLoop _ _) as [j|]; unfold poolOk; simpl.
  - split; [rewrite length_alter, length_reactivateAll; exact H1|].
    split; [exact H2|]. split; [exact H3|]. split; [|exact H5].
    intros i s Hi. rewrite list_lookup_alter. destruct (decide (j = i)) as [->|_].
    + destruct (reactivateAll _ _ _ !! i) as [s0|] eqn:Hs0; [|discriminate]. simpl.
      intros [= <-]. exact (Hq i s0 Hi Hs0).
    + apply Hq, Hi.
  - split; [rewrite length_reactivateAll; exact H1|].
    split; [exact H2|]. split; [exact H3|]. split; [exact Hq|exact H5].
Qed.

Lemma success_defined (i : nat) (w : World) :
  poolOk w -> (i < length (signers w))%nat -> is_Some (handleSignerSuccess i w).
Proof.
  intros (H1 & H2 & _) Hi. unfold handleSignerSuccess.
  destruct (lookup_lt_is_Some_2 (signerStates w) i) as [s ->]; [lia|].
  destruct (H2 i Hi) as [st ->]. simpl. eauto.
Qed.

Lemma failure_defined (cfg : Config) (now : Z) (i : nat) (w : World) :
  poolOk w -> (i < length (signers w))%nat -> is_Some (handleSignerFailure cfg now i w).
Proof.
  intros (H1 & H2 & _) Hi. unfold handleSignerFailure.
  destruct (lookup_lt_is_Some_2 (signerStates w) i) as [s ->]; [lia|].
  destruct (H2 i Hi) as [st ->]. simpl. eauto.
Qed.

Lemma poolOk_success (i : nat) (w w' : World) :
  poolOk w -> handleSignerSuccess i w = Some w' ->
  poolOk w' /\ signers w' = signers w /\ tokens (mintLog w') = tokens (mintLog w).
Proof.
  intros (H1 & H2 & H3 & H4 & H5). unfold handleSignerSuccess.
  destruct (signerStates w !! i) as [s|] eqn:Hs; [|discriminate]. simpl.
  destruct (signerStats (mintLog w) !! i) as [st|] eqn:Hst; [|discriminate]. simpl.
  intros [= <-]. split; [|split; reflexivity]. unfold poolOk. simpl.
  split; [rewrite length_insert; exact H1|]. split; [|split; [exact H3|split]].
  - intros j Hj. rewrite lookup_insert. destruct (decide (i = j)); [eauto|apply H2, Hj].
  - intros j sj Hj. rewrite list_lookup_insert.
    destruct (decide (i = j ∧ (i < length (signerStates w))%nat)) as [[<- _]|_].
    + intros [= <-]. destruct (H4 i s Hj Hs) as (Ha & Hb & Hc). repeat split; assumption.
    + apply H4, Hj.
  - intros j stj Hj. rewrite lookup_insert. destruct (decide (i = j)) as [<-|_].
    + intros [= <-]. exact (H5 i st Hj Hst).
    + apply H5, Hj.
Qed.

Lemma poolOk_failure_first (cfg : Config) (now : Z) (w w' : World) :
  poolOk w -> handleSignerFailure cfg now 0 w = Some w' ->
  poolOk w' /\ signers w' = signers w /\ tokens (mintLog w') = tokens (mintLog w).
Proof.
  intros (H1 & H2 & H3 & H4 & H5). unfold handleSignerFailure.
  destruct (signerStates w !! 0%nat) as [s|] eqn:Hs; [|discriminate]. simpl.
  destruct (signerStats (mintLog w) !! 0%nat) as [st|] eqn:Hst; [|discriminate]. simpl.
  intros [= <-]. split; [|split; reflexivity]. unfold poolOk. simpl.
  split; [rewrite length_insert; exact H1|]. split; [|split; [exact H3|split]].
  - intros j Hj. rewrite lookup_insert. destruct (decide (0%nat = j)); [eauto|apply H2, Hj].
  - intros j sj Hj. rewrite list_lookup_insert_ne by lia. apply H4, Hj.
  - intros j stj Hj. rewrite lookup_insert_ne by lia. apply H5, Hj.
Qed.

Lemma catchBlock_ok (cfg : Config) (w : World) (tokenId : Z) (rc : nat)
    (message : string) (now : Z) (w' : World) (t' : Task) (ops : list ChainOp) :
  poolOk w -> (0 < length (signers w))%nat -> is_Some (token w tokenId) ->
  catchBlock cfg w tokenId rc message now = (w', t', ops) ->
  poolOk w' /\ callOk w' tokenId t' /\ signers w' = signers w.
Proof.
  intros HP Hn [r Hr]. pose proof (poolOk_token w tokenId r HP Hr) as Hrok.
  unfold catchBlock. rewrite Hr. simpl. rewrite (orZero_recordOk r Hrok). simpl.
  destruct (decide (classifyError message = ALREADY_KNOWN)).
  - destruct (success_defined 0 w HP Hn) as [w1 Hw1]. change (Z.to_nat 0) with O. rewrite Hw1.
    destruct (poolOk_success 0 w w1 HP Hw1) as (HP1 & Hs1 & Ht1).
    intros [= <- <- <-]. split; [|split; [exact I|exact Hs1]].
    apply poolOk_countSuccess, poolOk_set_token; [exact HP1|].
    apply recordOk_alreadyKnownRecord.
    destruct (token w1 tokenId) as [r1|] eqn:Hr1; [|apply recordOk_empty].
    exact (poolOk_token w1 tokenId r1 HP1 Hr1).
  - assert (exists w1, match r !! "lastSignerIndex" with
                       | Some v => asIndex v ≫= fun i => handleSignerFailure cfg now i w
                       | None => Some w
                       end = Some w1
                       /\ poolOk w1 /\ signers w1 = signers w
                       /\ tokens (mintLog w1) = tokens (mintLog w))
      as (w1 & -> & HP1 & Hs1 & Ht1).
    { destruct Hrok as [->| ->]; [exists w; auto|]. simpl. change (Z.to_nat 0) with O.
      destruct (failure_defined cfg now 0 w HP Hn) as [w1 Hw1]. exists w1.
      split; [exact Hw1|]. exact (poolOk_failure_first cfg now w w1 HP Hw1). }
    unfold token in *. rewrite Ht1, Hr.
    destruct (rc <? RETRY_ATTEMPTS cfg)%nat; intros [= <- <- <-].
    + split; [|split; [exact I|exact Hs1]].
      apply poolOk_set_token; [exact HP1|apply recordOk_last].
    + split; [|split; [exact I|exact Hs1]].
      apply poolOk_countFailure, poolOk_set_token.
      * apply poolOk_set_token; [exact HP1|apply recordOk_last].
      * apply recordOk_failedRecord, recordOk_last.
Qed.

Lemma acquire_index_bound (now : Z) (w : World) (sd : SignerData) (w' : World) :
  length (signerStates w) = length (signers w) ->
  getNextAvailableSigner now w = (Some sd, w') -> (index sd < length (signers w))%nat.
Proof.
  intros Hlen. unfold getNextAvailableSigner.
  destruct (findLoop _ _) as [i|] eqn:Hf; [|discriminate].
  intros [= <- <-]. simpl. apply findLoop_Some in Hf as [Ho _].
  apply oldestSignerIndex_Some in Ho as (s & Hs & _).
  rewrite <- Hlen. apply lookup_lt_Some in Hs. rewrite length_reactivateAll in Hs. exact Hs.
Qed.

Lemma enter_ok (w : World) (tokenId : Z) (rc : nat) (now : Z)
    (w' : World) (t' : Task) (ops : list ChainOp) :
  poolOk w -> enter w tokenId rc now = (w', t', ops) ->
  poolOk w' /\ callOk w' tokenId t' /\ signers w' = signers w.
Proof.
  intros HP. unfold enter.
  pose proof (poolOk_acquire now w HP) as HP1.
  pose proof (acquire_signers now w) as Hs1.
  pose proof (acquire_index_bound now w) as Hb.
  destruct (getNextAvailableSigner now w) as [[sd|] w1]; simpl in *; intros [= <- <- <-].
  - split; [|split; [|exact Hs1]].
    + apply poolOk_set_token; [exact HP1|]. apply recordOk_insert; [discriminate|].
      destruct (token w1 tokenId) as [r|] eqn:Hr; [|apply recordOk_newRecord].
      exact (poolOk_token w1 tokenId r HP1 Hr).
    + simpl. split.
      * rewrite Hs1. apply (Hb sd w1); [apply HP|reflexivity].
      * unfold token. simpl. rewrite lookup_insert_eq. eauto.
  - split; [exact HP1|]. split; [exact I|exact Hs1].
Qed.

Lemma step_ok (cfg : Config) (w : World) (tokenId : Z) (t : Task) (i : Input)
    (w' : World) (t' : Task) (ops : list ChainOp) :
  poolOk w -> callOk w tokenId t -> step cfg w tokenId t i = Some (w', t', ops) ->
  poolOk w' /\ callOk w' tokenId t' /\ signers w' = signers w.
Proof.
  intros HP HQ.
  destruct t as [|rc|rc sd|rc sd nonce|b|]; destruct i as [now|now chain|now [receipt|message]];
    simpl; try discriminate.
  - intros [= H]. eapply enter_ok; eassumption.
  - intros [= H]. eapply enter_ok; eassumption.
  - destruct HQ as [Hi Hr]. destruct (getFreshNonce chain w (index sd)) as [nonce|message].
    + intros [= <- <- <-]. split; [exact HP|]. split; [split; assumption|reflexivity].
    + intros [= H]. apply (catchBlock_ok cfg w tokenId rc message now w' t' ops); [assumption|lia|assumption|exact H].
  - destruct HQ as [Hi Hr]. unfold onReceipt.
    destruct (success_defined (index sd) w HP Hi) as [w1 Hw1]. rewrite Hw1.
    destruct (poolOk_success _ w w1 HP Hw1) as (HP1 & Hs1 & Ht1).
    intros [= <- <- <-]. split; [|split; [exact I|exact Hs1]].
    apply poolOk_countSuccess, poolOk_set_token; [exact HP1|].
    apply recordOk_completedRecord.
    destruct (token w1 tokenId) as [r1|] eqn:Hr1; [|apply recordOk_empty].
    exact (poolOk_token w1 tokenId r1 HP1 Hr1).
  - destruct HQ as [Hi Hr]. intros [= H].
    apply (catchBlock_ok cfg w tokenId rc message now w' t' ops); [assumption|lia|assumption|exact H].
Qed.

Lemma step_ok_other (cfg : Config) (w : World) (tokenId : Z) (t : Task) (i : Input)
    (w' : World) (t' : Task) (ops : list ChainOp) (tokenId' : Z) :
  poolOk w -> callOk w tokenId t -> step cfg w tokenId t i = Some (w', t', ops) ->
  tokenId' <> tokenId ->
  (forall t'', callOk w tokenId' t'' -> callOk w' tokenId' t'') /\ (True -> True).
Proof.
  intros HP HQ Hstep Hne. split; [|auto].
  destruct (step_ok cfg _ _ _ _ _ _ _ HP HQ Hstep) as (_ & _ & Hs).
  apply step_frame in Hstep as (_ & Hto & _).
  intros t''. unfold callOk. rewrite Hs, (Hto tokenId' Hne). auto.
Qed.

Lemma poolOk_stamp (w : World) (l : MintLog) :
  tokens l = tokens (mintLog w) -> signerStats l = signerStats (mintLog w) ->
  poolOk w -> poolOk (set_mintLog w l).
Proof.
  intros Ht Hs (H1 & H2 & H3 & H4 & H5). unfold poolOk, logOk in *. simpl. rewrite Ht, Hs.
  split; [exact H1|]. split; [exact H2|]. split; [exact H3|]. split; [exact H4|exact H5].
Qed.

Lemma foldr_stats_lookup (k : nat) (l : list string) (m : gmap nat SignerStat) (i : nat) :
  foldr (fun ia m => <[fst ia := freshSignerStat (snd ia)]> m) m
        (imap (fun j a => ((k + j)%nat, a)) l) !! i
  = match (if decide (k <= i)%nat then l !! (i - k)%nat else None) with
    | Some a => Some (freshSignerStat a)
    | None => m !! i
    end.
Proof.
  revert k. induction l as [|a l IH]; intros k; simpl.
  - destruct (decide _); reflexivity.
  - rewrite lookup_insert. destruct (decide ((k + 0)%nat = i)) as [Heq|Hne].
    + destruct (decide (k <= i)%nat); [|lia].
      replace (i - k)%nat with O by lia. reflexivity.
    + rewrite (imap_ext _ (fun j a => ((S k + j)%nat, a)))
        by (intros; simpl; f_equal; lia).
      rewrite IH.
      destruct (decide (k <= i)%nat), (decide (S k <= i)%nat); try lia; try reflexivity.
      replace (i - k)%nat with (S (i - S k)) by lia. reflexivity.
Qed.

Lemma initializeSignerStates_stats (now : Z) (w : World) (i : nat) :
  signerStats (mintLog (initializeSignerStates now w)) !! i
  = match signers w !! i with
    | Some a => Some (freshSignerStat a)
    | None => signerStats (mintLog w) !! i
    end.
Proof.
  pose proof (foldr_stats_lookup 0 (signers w) (signerStats (mintLog w)) i) as H.
  destruct (decide (0 <= i)%nat); [|lia]. rewrite Nat.sub_0_r in H. exact H.
Qed.

Lemma initializeBlockchain_poolOk (cfg : Config) (now : Z) (init : InitAnswer) (w : World) :
  signerStates w = [] -> signers w = [] -> logOk (mintLog w) ->
  poolOk (fst (initializeBlockchain cfg now init w)).
Proof.
  intros Hnil Hsig Hlog.
  destruct (initializeBlockchain_cases cfg now init w) as [H|[ops H]]; rewrite H; cbn [fst].
  { unfold poolOk. simpl. rewrite Hnil, Hsig. simpl.
    split; [reflexivity|]. split; [intros; lia|]. split; [exact Hlog|].
    split; [intros ? ? ? H'; rewrite lookup_nil in H'; discriminate|intros; lia]. }
  unfold poolOk. split; [|split; [|split; [|split]]].
  - unfold initializeSignerStates. simpl. rewrite Hnil, drop_nil, app_nil_r.
    apply length_map.
  - intros i Hi. simpl in Hi. rewrite initializeSignerStates_stats. simpl.
    destruct (lookup_lt_is_Some_2 (SIGNER_KEYS cfg) i Hi) as [a ->]. eauto.
  - exact Hlog.
  - intros i s Hi. unfold initializeSignerStates. simpl.
    rewrite Hnil, drop_nil, app_nil_r.
    change (map ?f ?l) with (f <$> l). rewrite list_lookup_fmap.
    destruct (SIGNER_KEYS cfg !! i); [|discriminate]. simpl. intros [= <-].
    split; [reflexivity|]. split; reflexivity.
  - intros i st [Hi Hi']. simpl in Hi'. rewrite initializeSignerStates_stats. simpl.
    destruct (lookup_lt_is_Some_2 (SIGNER_KEYS cfg) i Hi') as [a ->].
    intros [= <-]. split; reflexivity.
Qed.

Lemma loaded_poolOk (w : World) :
  signerStates w = [] -> signers w = [] -> logOk (mintLog w) -> poolOk w.
Proof.
  intros Hst Hsig Hlog. unfold poolOk. rewrite Hst, Hsig. simpl.
  split; [reflexivity|]. split; [intros; lia|]. split; [exact Hlog|].
  split; [intros ? ? ? H; rewrite lookup_nil in H; discriminate|intros; lia].
Qed.

Lemma main_holds (cfg : Config) (now : Z) (init : InitAnswer) (d : Disk) :
  diskOk cfg d ->
  holds poolOk callOk (fun _ _ => True) (fst (main cfg now init d)).
Proof.
  intros Hd. unfold diskOk in Hd. unfold main, loadExistingProgress.
  assert (logOk (mintLog initialWorld)) as H0.
  { intros ? ? H. simpl in H. rewrite lookup_empty in H. discriminate. }
  assert (forall w, signerStates w = [] -> signers w = [] -> logOk (mintLog w) ->
            holds poolOk callOk (fun _ _ => True)
              (fst (let '(pendingTokens, w) := findPendingTokens cfg w in
                    match pendingTokens with
                    | [] => ({| world := w; disk := d; phase := Finished |}, [])
                    | _ :: _ =>
                        match initializeBlockchain cfg now init w with
                        | (w', None) =>
                            ({| world := w'; disk := d; phase := Exited 1 |}, [])
                        | (w', Some ops) =>
                            ({| world := w'; disk := d;
                                phase := Batching
                                           (startBatch
                                              (take (BATCH_SIZE cfg) pendingTokens))
                                           (drop (BATCH_SIZE cfg) pendingTokens) |}, ops)
                        end
                    end))) as Hgo.
  { intros w Hst Hsig Hlog. unfold findPendingTokens.
    destruct (filter _ _) as [|x p].
    - split; [apply loaded_poolOk; assumption|exact I].
    - pose proof (initializeBlockchain_poolOk cfg now init w Hst Hsig Hlog) as HP.
      destruct (initializeBlockchain cfg now init w) as [w' [ops|]]; cbn [fst] in *.
      + apply holds_next_batch; [intros; exact I|exact HP|auto].
      + split; [exact HP|exact I]. }
  destruct (load (MINT_LOG_PATH cfg) d) as [[log|]|].
  - apply Hgo; [reflexivity|reflexivity|exact Hd].
  - apply Hgo; [reflexivity|reflexivity|exact H0].
  - split; [|exact I]. apply loaded_poolOk; [reflexivity|reflexivity|exact H0].
Qed.

Lemma runs_hold (cfg : Config) (d : Disk) (ops : list ChainOp) (s : Sys) :
  diskOk cfg d -> runs cfg d ops s -> holds poolOk callOk (fun _ _ => True) s.
Proof.
  intros Hd (now & init & ops1 & ops2 & Hs & _ & _).
  refine (holds_steps cfg poolOk callOk (fun _ _ => True) _ _ _ _ _ _ _ _ _ _
            (main_invariant cfg now init d) (main_holds cfg now init d Hd) Hs).
  - intros w tokenId t i w' t' ops' HP HQ Hstep.
    destruct (step_ok cfg _ _ _ _ _ _ _ HP HQ Hstep) as (? & ? & _). auto.
  - intros w tokenId t i w' t' ops' tokenId' HP HQ Hstep Hne.
    destruct (step_ok_other cfg _ _ _ _ _ _ _ tokenId' HP HQ Hstep Hne) as [H _]. auto.
  - intros; exact I.
  - intros w now' HP. apply poolOk_stamp; [reflexivity|reflexivity|exact HP].
  - intros w now' HP. apply poolOk_stamp; [reflexivity|reflexivity|exact HP].
  - intros w now' tokenId t HQ. destruct t; exact HQ.
  - intros; exact I.
Qed.

End BookkeepingFacts.

Section BookkeepingRunFacts.
Import Js JsString Classify Model SignerPool Engine Snapshot Scheduler Invariants.

Lemma someThrown_elem (running : list (Z * Task)) :
  someThrown running = true -> exists tokenId, (tokenId, Thrown) ∈ running.
Proof.
  unfold someThrown. intros H. apply existsb_exists in H as ([tokenId t] & Hin & Ht).
  simpl in Ht. destruct t; try discriminate. exists tokenId. apply list_elem_of_In, Hin.
Qed.

(** A step that ends the process with code 1 while no call has thrown is
    a save of the log that throws. *)
Lemma exit_by_save (cfg : Config) (s : Sys) (ops : list ChainOp) (s' : Sys) :
  (forall running queue, phase s = Batching running queue -> someThrown running = false) ->
  sys_step cfg s ops s' -> phase s' = Exited 1 ->
  (exists now a, a <> Written /\ s' = onSigint cfg now a s)
  \/ (exists now a a' queue,
        (a <> Written \/ (queue = [] /\ a' <> Written))
        /\ s' = afterBatch cfg now a a' s queue).
Proof.
  intros Hno Hstep. destruct Hstep as
    [s running queue k tokenId t input w' t' ops Hph _ _ _ _
    |s running queue now a a' Hph _
    |s running queue Hph Hth
    |s running queue now a Hph
    |s running queue now a d Hph _]; simpl.
  - discriminate.
  - intros Hex. right. exists now, a, a', queue. split; [|reflexivity].
    destruct (afterBatch_cases cfg now a a' s queue)
      as [(_ & Ha & _)|[(_ & _ & H)|(_ & _ & _ & H & _)]]; [exact Ha| |].
    + rewrite H in Hex. discriminate.
    + rewrite H in Hex. discriminate.
  - rewrite (Hno running queue Hph) in Hth. discriminate.
  - intros Hex. left. exists now, a. split; [|reflexivity].
    intros ->. unfold onSigint in Hex. simpl in Hex. discriminate.
  - rewrite Hph. discriminate.
Qed.

End BookkeepingRunFacts.

Section BookkeepingTheorems.
Import Js JsString Classify Model SignerPool Engine Snapshot Scheduler Invariants.

(** Failures are charged to signer 0 only.  In every run that starts
    from a log whose records name no signer other than 0 in
    [lastSignerIndex] (or from no log), whichever signers made the failing
    submissions, every signer of index 1 or more is never backed off and
    has no failure counted, in [signerStates] and in
    [mintLog.signerStats]. *)
Theorem only_first_signer_is_charged (cfg : Config) (d : Disk)
    (ops : list ChainOp) (s : Sys) (i : nat) :
  diskOk cfg d -> runs cfg d ops s -> (1 <= i)%nat ->
  (forall st, signerStates (world s) !! i = Some st ->
     isBackedOff st = false /\ consecutiveFailures st = 0 /\ totalFailed st = 0)
  /\ ((i < length (signers (world s)))%nat ->
      forall stat, signerStats (mintLog (world s)) !! i = Some stat ->
        statFailed stat = 0 /\ backedOff stat = 0).
Proof.
  intros Hd Hr Hi. destruct (runs_hold cfg d ops s Hd Hr) as [(_ & _ & _ & H4 & H5) _].
  split.
  - intros st Hst. exact (H4 i st Hi Hst).
  - intros Hlt stat Hstat. exact (H5 i stat (conj Hi Hlt) Hstat).
Qed.

(** With two signers: the retry of a call is made by signer 1 and fails,
    and signer 1 stays uncharged. *)
Lemma only_first_signer_is_charged_witness :
  (forall st, signerStates (world (Instances.afterTwo Instances.failsTwice)) !! 1%nat = Some st ->
     isBackedOff st = false /\ consecutiveFailures st = 0 /\ totalFailed st = 0)
  /\ ((1 < length (signers (world (Instances.afterTwo Instances.failsTwice))))%nat ->
      forall stat,
        signerStats (mintLog (world (Instances.afterTwo Instances.failsTwice))) !! 1%nat
        = Some stat ->
        statFailed stat = 0 /\ backedOff stat = 0).
Proof.
  apply (only_first_signer_is_charged Instances.twoSigners ∅
           ([GetNetwork; GetBalance 0; GetBalance 1]
            ++ Instances.issuedTwo Instances.failsTwice)).
  - exact I.
  - exists 1000, NetworkUp, [GetNetwork; GetBalance 0; GetBalance 1],
      (Instances.issuedTwo Instances.failsTwice).
    split; [|split; reflexivity].
    apply (drive_sound Instances.twoSigners Instances.failsTwice).
    vm_compute. reflexivity.
  - lia.
Defined.

(** The bookkeeping never throws.  In every run that starts from a log
    whose records name no signer other than 0 (or from no log), no call of
    a batch is rejected: [handleSignerSuccess] and [handleSignerFailure]
    always find their entries, and the [catch] block always finds the
    record.  So once the batches have started the process ends with code 1
    only through a save of the log that throws, in [main] or in the
    [SIGINT] handler. *)
Theorem no_call_is_rejected (cfg : Config) (d : Disk) (ops : list ChainOp) (s : Sys) :
  diskOk cfg d -> runs cfg d ops s ->
  (forall running queue, phase s = Batching running queue -> someThrown running = false)
  /\ (forall ops' s', sys_step cfg s ops' s' -> phase s' = Exited 1 ->
        (exists now a, a <> Written /\ s' = onSigint cfg now a s)
        \/ (exists now a a' queue,
              (a <> Written \/ (queue = [] /\ a' <> Written))
              /\ s' = afterBatch cfg now a a' s queue)).
Proof.
  intros Hd Hr. pose proof (runs_hold cfg d ops s Hd Hr) as [_ Hh].
  assert (forall running queue, phase s = Batching running queue ->
            someThrown running = false) as Hno.
  { intros running queue Hph. rewrite Hph in Hh. destruct Hh as [HQ _].
    destruct (someThrown running) eqn:Hth; [|reflexivity].
    apply someThrown_elem in Hth as [tokenId Hin]. destruct (HQ tokenId Thrown Hin). }
  split; [exact Hno|]. intros ops' s'. apply exit_by_save, Hno.
Qed.

(** With two signers: the first call has failed twice and returned. *)
Lemma no_call_is_rejected_witness :
  (forall running queue,
     phase (Instances.afterTwo Instances.failsTwice) = Batching running queue ->
     someThrown running = false)
  /\ (forall ops' s',
        sys_step Instances.twoSigners (Instances.afterTwo Instances.failsTwice) ops' s' ->
        phase s' = Exited 1 ->
        (exists now a,
           a <> Written
           /\ s' = onSigint Instances.twoSigners now a
                     (Instances.afterTwo Instances.failsTwice))
        \/ (exists now a a' queue,
              (a <> Written \/ (queue = [] /\ a' <> Written))
              /\ s' = afterBatch Instances.twoSigners now a a'
                        (Instances.afterTwo Instances.failsTwice) queue)).
Proof.
  apply (no_call_is_rejected Instances.twoSigners ∅
           ([GetNetwork; GetBalance 0; GetBalance 1]
            ++ Instances.issuedTwo Instances.failsTwice)).
  - exact I.
  - exists 1000, NetworkUp, [GetNetwork; GetBalance 0; GetBalance 1],
      (Instances.issuedTwo Instances.failsTwice).
    split; [|split; reflexivity].
    apply (drive_sound Instances.twoSigners Instances.failsTwice).
    vm_compute. reflexivity.
Defined.

(** With two signers or more the pool never runs dry.  In every run that
    starts from a log whose records name no signer other than 0, at every
    moment [getNextAvailableSigner] returns a signer: the branch of
    [mintSingleTokenOptimized] that waits for a signer is never taken. *)
Theorem pool_never_runs_dry (cfg : Config) (d : Disk) (ops : list ChainOp) (s : Sys)
    (now : Z) :
  diskOk cfg d -> runs cfg d ops s -> (2 <= length (signers (world s)))%nat ->
  exists sd, fst (getNextAvailableSigner now (world s)) = Some sd.
Proof.
  intros Hd Hr Hn. destruct (runs_hold cfg d ops s Hd Hr) as [(H1 & _ & _ & H4 & _) _].
  apply acquire_succeeds.
  - destruct (signers (world s)); [simpl in Hn; lia|discriminate].
  - exists 1%nat.
    destruct (lookup_lt_is_Some_2 (signerStates (world s)) 1) as [st Hst]; [lia|].
    apply (selectable_iff now (world s) 1 st Hst). left.
    exact (proj1 (H4 1%nat st (le_n 1) Hst)).
Qed.

(** Signer 0 is backed off until 33002; at 3003 the pool still hands out
    a signer. *)
Lemma pool_never_runs_dry_witness :
  exists sd,
    fst (getNextAvailableSigner 3003 (world (Instances.afterTwo Instances.failsTwice)))
    = Some sd.
Proof.
  apply (pool_never_runs_dry Instances.twoSigners ∅
           ([GetNetwork; GetBalance 0; GetBalance 1]
            ++ Instances.issuedTwo Instances.failsTwice)).
  - exact I.
  - exists 1000, NetworkUp, [GetNetwork; GetBalance 0; GetBalance 1],
      (Instances.issuedTwo Instances.failsTwice).
    split; [|split; reflexivity].
    apply (drive_sound Instances.twoSigners Instances.failsTwice).
    vm_compute. reflexivity.
  - vm_compute. lia.
Defined.

End BookkeepingTheorems.

(** ** A call run to its end *)

Section CallFacts.
Import Js JsString Classify Model SignerPool Engine Scheduler Attempts.

Lemma run_settled (cfg : Config) (w : World) (tokenId : Z) (t : Task)
    (inputs : list Input) :
  settled t = true -> run cfg w tokenId t inputs = (w, t, []).
Proof.
  intros Ht. induction inputs as [|i rest IH]; simpl; [reflexivity|].
  destruct t; try discriminate; destruct i; simpl; exact IH.
Qed.

Lemma acquire_static (now : Z) (w : World) :
  providers (snd (getNextAvailableSigner now w)) = providers w
  /\ signers (snd (getNextAvailableSigner now w)) = signers w.
Proof. unfold getNextAvailableSigner. destruct (findLoop _ _); split; reflexivity. Qed.

Lemma success_static (i : nat) (w w' : World) :
  handleSignerSuccess i w = Some w' ->
  providers w' = providers w /\ signers w' = signers w.
Proof.
  unfold handleSignerSuccess. destruct (signerStates w !! i); [|discriminate]. simpl.
  destruct (signerStats (mintLog w) !! i); [|discriminate]. simpl.
  intros [= <-]. split; reflexivity.
Qed.

Lemma failure_static (cfg : Config) (now : Z) (i : nat) (w w' : World) :
  handleSignerFailure cfg now i w = Some w' ->
  providers w' = providers w /\ signers w' = signers w.
Proof.
  unfold handleSignerFailure. destruct (signerStates w !! i); [|discriminate]. simpl.
  destruct (signerStats (mintLog w) !! i); [|discriminate]. simpl.
  intros [= <-]. split; reflexivity.
Qed.

Lemma catchBlock_effect (cfg : Config) (w : World) (tokenId : Z) (rc : nat)
    (message : string) (now : Z) (w' : World) (t' : Task) (ops : list ChainOp) :
  catchBlock cfg w tokenId rc message now = (w', t', ops) ->
  summary (mintLog w') = summaryAfter t' (summary (mintLog w))
  /\ providers w' = providers w /\ signers w' = signers w.
Proof.
  unfold catchBlock. destruct (decide (classifyError message = ALREADY_KNOWN)).
  - destruct (asIndex _ ≫= _) as [w1|] eqn:H1; intros [= <- <- <-].
    + apply bind_Some in H1 as (i & _ & H1).
      pose proof (success_tokens i w w1 H1) as [_ Hs].
      pose proof (success_static i w w1 H1) as [Hp Hg].
      simpl. rewrite Hs. auto.
    + simpl. auto.
  - set (stored := token w tokenId ≫= _).
    destruct (match stored with Some v => _ | None => Some w end) as [w1|] eqn:H1.
    + assert (summary (mintLog w1) = summary (mintLog w)
              /\ providers w1 = providers w /\ signers w1 = signers w) as (Hs & Hp & Hg).
      { destruct stored as [v|]; [|injection H1 as <-; auto].
        apply bind_Some in H1 as (i & _ & H1).
        pose proof (failure_tokens cfg now i w w1 H1) as [_ Hs].
        pose proof (failure_static cfg now i w w1 H1) as [Hp Hg]. auto. }
      destruct (token w1 tokenId) as [r|].
      * destruct (rc <? RETRY_ATTEMPTS cfg)%nat; intros [= <- <- <-]; simpl;
          rewrite Hs; auto.
      * intros [= <- <- <-]. simpl. auto.
    + intros [= <- <- <-]. simpl. auto.
Qed.

Lemma step_effect (cfg : Config) (w : World) (tokenId : Z) (t : Task) (i : Input)
    (w' : World) (t' : Task) (ops : list ChainOp) :
  step cfg w tokenId t i = Some (w', t', ops) ->
  summary (mintLog w') = summaryAfter t' (summary (mintLog w))
  /\ providers w' = providers w /\ signers w' = signers w.
Proof.
  assert (forall rc now, enter w tokenId rc now = (w', t', ops) ->
            summary (mintLog w') = summaryAfter t' (summary (mintLog w))
            /\ providers w' = providers w /\ signers w' = signers w) as Henter.
  { intros rc now. unfold enter.
    pose proof (acquire_mintLog now w) as Hm. pose proof (acquire_static now w) as [Hp Hg].
    destruct (getNextAvailableSigner now w) as [[sd|] w1]; simpl in *;
      intros [= <- <- <-]; simpl; rewrite Hm; auto. }
  destruct t as [|rc|rc sd|rc sd nonce|b|]; destruct i as [now|now chain|now [receipt|message]];
    simpl; try discriminate.
  - intros [= H]. eapply Henter, H.
  - intros [= H]. eapply Henter, H.
  - destruct (getFreshNonce chain w (index sd)) as [nonce|message].
    + intros [= <- <- <-]. simpl. auto.
    + intros [= H]. eapply catchBlock_effect, H.
  - unfold onReceipt. destruct (handleSignerSuccess (index sd) w) as [w1|] eqn:H1.
    + pose proof (success_tokens _ w w1 H1) as [_ Hs].
      pose proof (success_static _ w w1 H1) as [Hp Hg].
      intros [= <- <- <-]. simpl. rewrite Hs. auto.
    + intros [= H]. eapply catchBlock_effect, H.
  - intros [= H]. eapply catchBlock_effect, H.
Qed.

End CallFacts.


Section AttemptFacts.
Import Js JsString Classify Model SignerPool Engine Scheduler Attempts.

Lemma property_countSuccess (w : World) (tokenId : Z) (name : string) :
  property (countSuccess w) tokenId name = property w tokenId name.
Proof. reflexivity. Qed.

Lemma property_countFailure (w : World) (tokenId : Z) (name : string) :
  property (countFailure w) tokenId name = property w tokenId name.
Proof. reflexivity. Qed.

Lemma property_tokens (w w' : World) (tokenId : Z) (name : string) :
  tokens (mintLog w') = tokens (mintLog w) ->
  property w' tokenId name = property w tokenId name.
Proof. unfold property, token. intros ->. reflexivity. Qed.

Lemma completedRecord_attempts (r : JsObject) (receipt : Receipt) (sd : SignerData)
    (nonce now : Z) :
  completedRecord r receipt sd nonce now !! "attempts" = r !! "attempts".
Proof.
  unfold completedRecord. cbv zeta. rewrite !lookup_insert_ne by done.
  destruct (signer sd); rewrite ?lookup_insert_ne by done; reflexivity.
Qed.

Lemma failedRecord_attempts (r : JsObject) (message : string) (e : ErrorType)
    (rc : nat) (now : Z) :
  failedRecord r message e rc now !! "attempts" = r !! "attempts".
Proof. unfold failedRecord. cbv zeta. rewrite !lookup_insert_ne by done. reflexivity. Qed.

Lemma catchBlock_attempts (cfg : Config) (w : World) (tokenId : Z) (rc : nat)
    (message : string) (now : Z) (w' : World) (t' : Task) (ops : list ChainOp) (v : JsValue) :
  property w tokenId "attempts" = Some v ->
  catchBlock cfg w tokenId rc message now = (w', t', ops) ->
  property w' tokenId "attempts" = Some v /\ ops = [].
Proof.
  intros Hv. unfold catchBlock.
  destruct (decide (classifyError message = ALREADY_KNOWN)).
  - destruct (asIndex _ ≫= _) as [w1|] eqn:H1; intros [= <- <- <-]; [|auto].
    apply bind_Some in H1 as (i & _ & H1). apply success_tokens in H1 as [H1 _].
    split; [|reflexivity]. rewrite property_countSuccess, property_set_token.
    destruct (alreadyKnownRecord_lookup (default ∅ (token w1 tokenId)) now) as (_ & _ & ->).
    rewrite <- (property_tokens w w1 tokenId "attempts" H1) in Hv.
    rewrite <- Hv. unfold property in *.
    destruct (token w1 tokenId); [reflexivity|discriminate].
  - set (stored := token w tokenId ≫= _).
    destruct (match stored with Some v => _ | None => Some w end) as [w1|] eqn:H1;
      [|intros [= <- <- <-]; auto].
    assert (tokens (mintLog w1) = tokens (mintLog w)) as Ht1.
    { destruct stored as [v0|]; [|congruence].
      apply bind_Some in H1 as (i & _ & H1). apply failure_tokens in H1 as [H1 _].
      exact H1. }
    rewrite <- (property_tokens w w1 tokenId "attempts" Ht1) in Hv. unfold property in Hv.
    destruct (token w1 tokenId) as [r|]; [|discriminate].
    simpl in Hv.
    destruct (rc <? RETRY_ATTEMPTS cfg)%nat; intros [= <- <- <-]; split; try reflexivity.
    + rewrite property_set_token, lookup_insert_ne by done. exact Hv.
    + rewrite property_countFailure, property_set_token, failedRecord_attempts,
        lookup_insert_ne by done. exact Hv.
Qed.

Lemma step_attempts (cfg : Config) (w : World) (tokenId : Z) (t : Task) (i : Input)
    (w' : World) (t' : Task) (ops : list ChainOp) (a : Z) :
  attemptsKnown w tokenId t a ->
  step cfg w tokenId t i = Some (w', t', ops) ->
  attemptsKnown w' tokenId t' (a + Z.of_nat (attemptsIn ops)).
Proof.
  assert (forall rc now, (t = Queued \/ t = Entry rc) ->
            attemptsKnown w tokenId t a ->
            enter w tokenId rc now = (w', t', ops) ->
            attemptsKnown w' tokenId t' (a + Z.of_nat (attemptsIn ops))) as Henter.
  { intros rc now Ht Hk. unfold enter.
    pose proof (acquire_mintLog now w) as Hm.
    destruct (getNextAvailableSigner now w) as [[sd|] w1]; simpl in Hm;
      intros [= <- <- <-].
    - left. unfold attemptsIn. simpl. rewrite property_set_token, lookup_insert_eq.
      unfold token. rewrite Hm. destruct Hk as [Hk|(Hk & -> & _)].
      + unfold property, token in Hk.
        destruct (tokens (mintLog w) !! tokenId) as [r|]; [|discriminate].
        simpl in Hk. rewrite Hk. reflexivity.
      + unfold token in Hk. rewrite Hk. reflexivity.
    - unfold attemptsIn. simpl. rewrite Z.add_0_r.
      destruct Hk as [Hk|(Hk & -> & _)].
      + left. rewrite <- Hk. apply property_tokens. rewrite Hm. reflexivity.
      + right. unfold token in *. rewrite Hm.
        split; [exact Hk|]. split; [reflexivity|exact I]. }
  intros Hk.
  destruct t as [|rc|rc sd|rc sd nonce|b|]; destruct i as [now|now chain|now [receipt|message]];
    simpl; try discriminate.
  - intros [= H]. eapply Henter; eauto.
  - intros [= H]. eapply Henter; eauto.
  - destruct Hk as [Hk|(_ & _ & [])].
    destruct (getFreshNonce chain w (index sd)) as [nonce|message].
    + intros [= <- <- <-]. left. unfold attemptsIn. simpl. rewrite Z.add_0_r. exact Hk.
    + intros [= H]. apply (catchBlock_attempts _ _ _ _ _ _ _ _ _ _ Hk) in H as [H ->].
      left. unfold attemptsIn. simpl. rewrite Z.add_0_r. exact H.
  - destruct Hk as [Hk|(_ & _ & [])]. unfold onReceipt.
    destruct (handleSignerSuccess (index sd) w) as [w1|] eqn:H1.
    + apply success_tokens in H1 as [H1 _]. intros [= <- <- <-]. left.
      unfold attemptsIn. simpl. rewrite Z.add_0_r.
      rewrite property_countSuccess, property_set_token, completedRecord_attempts.
      rewrite <- (property_tokens w w1 tokenId "attempts" H1) in Hk. unfold property in Hk.
      destruct (token w1 tokenId); [exact Hk|discriminate].
    + intros [= H]. apply (catchBlock_attempts _ _ _ _ _ _ _ _ _ _ Hk) in H as [H ->].
      left. unfold attemptsIn. simpl. rewrite Z.add_0_r. exact H.
  - destruct Hk as [Hk|(_ & _ & [])].
    intros [= H]. apply (catchBlock_attempts _ _ _ _ _ _ _ _ _ _ Hk) in H as [H ->].
    left. unfold attemptsIn. simpl. rewrite Z.add_0_r. exact H.
Qed.

Lemma run_attempts (cfg : Config) (inputs : list Input) (w : World) (tokenId : Z)
    (t : Task) (a : Z) :
  attemptsKnown w tokenId t a ->
  let '(w', t', ops) := run cfg w tokenId t inputs in
  attemptsKnown w' tokenId t' (a + Z.of_nat (attemptsIn ops)).
Proof.
  revert w t a. induction inputs as [|i rest IH]; intros w t a Hk; simpl.
  - unfold attemptsIn. simpl. rewrite Z.add_0_r. exact Hk.
  - destruct (step cfg w tokenId t i) as [[[w1 t1] ops1]|] eqn:Hs; [|apply IH, Hk].
    apply (step_attempts _ _ _ _ _ _ _ _ _ Hk) in Hs.
    specialize (IH w1 t1 _ Hs). destruct (run cfg w1 tokenId t1 rest) as [[w2 t2] ops2].
    rewrite attemptsIn_app, Nat2Z.inj_add, Z.add_assoc. exact IH.
Qed.

Lemma kept_set_token (w w1 : World) (tokenId k : Z) (r : JsObject) :
  tokens (mintLog w1) = tokens (mintLog w) ->
  is_Some (token w k) -> is_Some (token (set_token w1 tokenId r) k).
Proof.
  intros Ht Hk. rewrite token_set_token. destruct (decide (tokenId = k)); [eauto|].
  unfold token in *. rewrite Ht. exact Hk.
Qed.

Lemma catchBlock_keeps_records (cfg : Config) (w : World) (tokenId : Z) (rc : nat)
    (message : string) (now : Z) (w' : World) (t' : Task) (ops : list ChainOp) (k : Z) :
  catchBlock cfg w tokenId rc message now = (w', t', ops) ->
  is_Some (token w k) -> is_Some (token w' k).
Proof.
  unfold catchBlock. destruct (decide (classifyError message = ALREADY_KNOWN)).
  - destruct (asIndex _ ≫= _) as [w1|] eqn:H1; intros [= <- <- <-]; [|auto].
    apply bind_Some in H1 as (i & _ & H1). apply success_tokens in H1 as [H1 _].
    intros Hk. rewrite token_countSuccess. apply (kept_set_token w); assumption.
  - set (stored := token w tokenId ≫= _).
    destruct (match stored with Some v => _ | None => Some w end) as [w1|] eqn:H1;
      [|intros [= <- <- <-]; auto].
    assert (tokens (mintLog w1) = tokens (mintLog w)) as Ht1.
    { destruct stored as [v0|]; [|congruence].
      apply bind_Some in H1 as (i & _ & H1). apply failure_tokens in H1 as [H1 _].
      exact H1. }
    destruct (token w1 tokenId) as [r|]; [|intros [= <- <- <-]; auto].
    destruct (rc <? RETRY_ATTEMPTS cfg)%nat; intros [= <- <- <-] Hk.
    + apply (kept_set_token w); assumption.
    + rewrite token_countFailure, !token_set_token.
      destruct (decide (tokenId = k)); [eauto|]. unfold token in *. rewrite Ht1. exact Hk.
Qed.

Lemma step_keeps_records (cfg : Config) (w : World) (tokenId : Z) (t : Task) (i : Input)
    (w' : World) (t' : Task) (ops : list ChainOp) (k : Z) :
  step cfg w tokenId t i = Some (w', t', ops) ->
  is_Some (token w k) -> is_Some (token w' k).
Proof.
  assert (forall rc now, enter w tokenId rc now = (w', t', ops) ->
            is_Some (token w k) -> is_Some (token w' k)) as Henter.
  { intros rc now. unfold enter. pose proof (acquire_mintLog now w) as Hm.
    destruct (getNextAvailableSigner now w) as [[sd|] w1]; simpl in Hm;
      intros [= <- <- <-] Hk.
    - apply (kept_set_token w); [rewrite Hm; reflexivity|exact Hk].
    - unfold token in *. rewrite Hm. exact Hk. }
  destruct t as [|rc|rc sd|rc sd nonce|b|]; destruct i as [now|now chain|now [receipt|message]];
    simpl; try discriminate.
  - intros [= H]. eapply Henter, H.
  - intros [= H]. eapply Henter, H.
  - destruct (getFreshNonce chain w (index sd)) as [nonce|message].
    + intros [= <- <- <-]. auto.
    + intros [= H]. eapply catchBlock_keeps_records, H.
  - unfold onReceipt. destruct (handleSignerSuccess (index sd) w) as [w1|] eqn:H1.
    + apply success_tokens in H1 as [H1 _]. intros [= <- <- <-] Hk.
      rewrite token_countSuccess. apply (kept_set_token w); assumption.
    + intros [= H]. eapply catchBlock_keeps_records, H.
  - intros [= H]. eapply catchBlock_keeps_records, H.
Qed.

Lemma run_keeps_records (cfg : Config) (inputs : list Input) (w : World) (tokenId : Z)
    (t : Task) (k : Z) :
  is_Some (token w k) -> is_Some (token (fst (fst (run cfg w tokenId t inputs))) k).
Proof.
  revert w t. induction inputs as [|i rest IH]; intros w t Hk; simpl; [exact Hk|].
  destruct (step cfg w tokenId t i) as [[[w1 t1] ops1]|] eqn:Hs; [|apply IH, Hk].
  specialize (IH w1 t1 (step_keeps_records _ _ _ _ _ _ _ _ k Hs Hk)).
  destruct (run cfg w1 tokenId t1 rest) as [[w2 t2] ops2]. exact IH.
Qed.

End AttemptFacts.

Section CallTheorems.
Import Js JsString Classify Model SignerPool Engine Scheduler.

(** A call is counted once.  A call of [mintSingleTokenOptimized] that
    returns, after whatever retries and waits, has taken exactly one
    token off [summary.pending] and added one to [summary.successful]
    when it returns [true], to [summary.failed] when it returns [false]. *)
Theorem call_is_counted_once (cfg : Config) (inputs : list Input) (w : World)
    (tokenId : Z) (t : Task) (w' : World) (b : bool) (ops : list ChainOp) :
  settled t = false ->
  run cfg w tokenId t inputs = (w', Returned b, ops) ->
  total (summary (mintLog w')) = total (summary (mintLog w))
  /\ successful (summary (mintLog w'))
     = successful (summary (mintLog w)) + (if b then 1 else 0)
  /\ failed (summary (mintLog w')) = failed (summary (mintLog w)) + (if b then 0 else 1)
  /\ pending (summary (mintLog w')) = pending (summary (mintLog w)) - 1.
Proof.
  revert w t ops. induction inputs as [|i rest IH]; intros w t ops Ht; simpl.
  - intros [= _ -> _]. discriminate.
  - destruct (step cfg w tokenId t i) as [[[w1 t1] ops1]|] eqn:Hs; [|apply IH, Ht].
    apply step_effect in Hs as (Hsum & _ & _).
    destruct (settled t1) eqn:Ht1.
    + rewrite (run_settled cfg w1 tokenId t1 rest Ht1). intros [= <- -> _].
      rewrite Hsum. destruct b; simpl; repeat split; lia.
    + specialize (IH w1 t1). destruct (run cfg w1 tokenId t1 rest) as [[w2 t2] ops2].
      intros [= <- -> _]. specialize (IH ops2 Ht1 eq_refl).
      destruct t1; try discriminate; simpl in Hsum; rewrite Hsum in IH; exact IH.
Qed.

Lemma call_is_counted_once_witness :
  total (summary (mintLog Instances.mintedAlone))
  = total (summary (mintLog (world Examples.started)))
  /\ successful (summary (mintLog Instances.mintedAlone))
     = successful (summary (mintLog (world Examples.started))) + 1
  /\ failed (summary (mintLog Instances.mintedAlone))
     = failed (summary (mintLog (world Examples.started))) + 0
  /\ pending (summary (mintLog Instances.mintedAlone))
     = pending (summary (mintLog (world Examples.started))) - 1.
Proof.
  apply (call_is_counted_once Examples.smallConfig Instances.mintAlone
           (world Examples.started) 1 Queued Instances.mintedAlone true
           [GetTransactionCount 0; EstimateGas 0; SendTransaction 1 0 5]).
  - reflexivity.
  - vm_compute. reflexivity.
Defined.

(** A call rewrites the record of its own token only.  Whatever the
    inputs, a call leaves the record of every other token as it is,
    removes no record, and leaves [providers] and [signers] as
    [initializeBlockchain] set them. *)
Theorem call_touches_own_record_only (cfg : Config) (inputs : list Input) (w : World)
    (tokenId : Z) (t : Task) :
  let '(w', _, _) := run cfg w tokenId t inputs in
  (forall tokenId', tokenId' <> tokenId -> token w' tokenId' = token w tokenId')
  /\ (forall tokenId', is_Some (token w tokenId') -> is_Some (token w' tokenId'))
  /\ providers w' = providers w /\ signers w' = signers w.
Proof.
  revert w t. induction inputs as [|i rest IH]; intros w t; simpl; [auto|].
  destruct (step cfg w tokenId t i) as [[[w1 t1] ops1]|] eqn:Hs; [|apply IH].
  specialize (IH w1 t1). destruct (run cfg w1 tokenId t1 rest) as [[w2 t2] ops2].
  destruct IH as (I1 & I2 & I3 & I4).
  pose proof (step_effect _ _ _ _ _ _ _ _ Hs) as (_ & Hp & Hg).
  pose proof (step_frame _ _ _ _ _ _ _ _ Hs) as (_ & Hto & _).
  split; [|split; [|split; congruence]].
  - intros k Hk. rewrite (I1 k Hk). apply Hto, Hk.
  - intros k Hk. apply I2. eapply step_keeps_records; eassumption.
Qed.

End CallTheorems.

Section AttemptTheorems.
Import Js JsString Classify Model SignerPool Engine Scheduler Attempts.

(** [attempts] counts the attempts.  Along a call, the property
    [attempts] of the token's record grows by one with every query of the
    nonce: for a token that has a record with a numeric [attempts] the
    count goes on from there, and a token with no record starts at 0 (its
    record appears with the first attempt). *)
Theorem attempts_counts_nonce_queries (cfg : Config) (inputs : list Input) (w : World)
    (tokenId : Z) (t : Task) (w' : World) (t' : Task) (ops : list ChainOp) :
  run cfg w tokenId t inputs = (w', t', ops) ->
  (forall a, property w tokenId "attempts" = Some (JsNum a) ->
     property w' tokenId "attempts" = Some (JsNum (a + Z.of_nat (attemptsIn ops))))
  /\ (token w tokenId = None -> t = Queued -> (0 < attemptsIn ops)%nat ->
      property w' tokenId "attempts" = Some (JsNum (Z.of_nat (attemptsIn ops)))).
Proof.
  intros Hrun. split.
  - intros a Ha. pose proof (run_attempts cfg inputs w tokenId t a (or_introl Ha)) as H.
    rewrite Hrun in H. destruct H as [H|(Hn & Hz & _)]; [exact H|].
    exfalso. pose proof (run_keeps_records cfg inputs w tokenId t tokenId) as Hex.
    rewrite Hrun in Hex. unfold property in Ha.
    destruct (token w tokenId) eqn:Hw; [|discriminate].
    destruct (Hex (ex_intro _ _ eq_refl)) as [r Hr]. simpl in Hr. congruence.
  - intros Hn -> Hpos.
    pose proof (run_attempts cfg inputs w tokenId Queued 0
                  (or_intror (conj Hn (conj eq_refl I)))) as H.
    rewrite Hrun in H. destruct H as [H|(_ & Hz & _)]; [exact H|lia].
Qed.

(** The call of [Instances.mintAlone]: no record before, one query of
    the nonce, and [attempts] is 1. *)
Lemma attempts_counts_nonce_queries_witness :
  property Instances.mintedAlone 1 "attempts" = Some (JsNum 1).
Proof.
  apply (proj2 (attempts_counts_nonce_queries Examples.smallConfig Instances.mintAlone
                  (world Examples.started) 1 Queued Instances.mintedAlone (Returned true)
                  [GetTransactionCount 0; EstimateGas 0; SendTransaction 1 0 5]
                  ltac:(vm_compute; reflexivity))).
  - reflexivity.
  - reflexivity.
  - vm_compute. lia.
Defined.

End AttemptTheorems.

(** ** Interruption and the next start *)

Section InterruptFacts.
Import Js JsString Classify Model SignerPool Engine Snapshot Scheduler Invariants Interrupt.

Lemma isPending_tokens (w w' : World) (tokenId : Z) :
  token w' tokenId = token w tokenId -> isPending w' tokenId = isPending w tokenId.
Proof. unfold isPending. intros ->. reflexivity. Qed.








End InterruptFacts.

Section InterruptTheorems.
Import Js JsString Classify Model SignerPool Engine Snapshot Scheduler Invariants Interrupt.



End InterruptTheorems.

(** ** The batches *)

Section BatchFacts.
Import Batches.

Lemma ceilDiv_bounds (n size : nat) :
  (0 < size)%nat ->
  (n <= size * ceilDiv n size)%nat
  /\ (forall k, (k < ceilDiv n size)%nat -> (k * size < n)%nat).
Proof.
  intros Hs. unfold ceilDiv.
  pose proof (Nat.div_mod_eq (n + size - 1) size) as Hd.
  pose proof (Nat.mod_upper_bound (n + size - 1) size) as Hm.
  split; [nia|]. intros k Hk. nia.
Qed.

Lemma ceilDiv_zero (size : nat) : (0 < size)%nat -> ceilDiv 0 size = O.
Proof. intros Hs. unfold ceilDiv. apply Nat.div_small. lia. Qed.

Lemma ceilDiv_step (n size : nat) :
  (0 < size)%nat -> (0 < n)%nat -> ceilDiv n size = S (ceilDiv (n - size) size).
Proof.
  intros Hs Hn. unfold ceilDiv.
  destruct (le_lt_dec size n) as [Hle|Hlt].
  - replace (n + size - 1)%nat with ((n - size + size - 1) + 1 * size)%nat by lia.
    rewrite Nat.div_add by lia. lia.
  - replace (n - size)%nat with O by lia. simpl.
    rewrite (Nat.div_small (size - 1) size) by lia.
    symmetry. apply (Nat.div_unique _ _ 1%nat (n - 1)%nat); lia.
Qed.

(** The turns of the loop from the index [j * size] on. *)
Lemma batchLoop_from (size : nat) (l : list Z) (fuel j : nat) :
  (0 < size)%nat -> (length l - j * size < fuel)%nat ->
  batchLoop fuel size l (j * size)
  = Some (map (fun k => (S k, take size (drop (k * size) l)))
              (seq j (ceilDiv (length l - j * size) size))).
Proof.
  intros Hs. revert j. induction fuel as [|fuel IH]; intros j Hf; [lia|].
  simpl. destruct (j * size <? length l)%nat eqn:Hlt.
  - apply Nat.ltb_lt in Hlt.
    replace (j * size + size)%nat with (S j * size)%nat by lia.
    rewrite IH by lia. simpl.
    rewrite (ceilDiv_step (length l - j * size) size) by lia. simpl.
    rewrite Nat.div_mul by lia. unfold slice.
    replace (size + j * size - j * size)%nat with size by lia.
    replace (length l - j * size - size)%nat with (length l - (size + j * size))%nat by lia.
    f_equal. f_equal. f_equal. lia.
  - apply Nat.ltb_ge in Hlt. replace (length l - j * size)%nat with O by lia.
    rewrite ceilDiv_zero by exact Hs. reflexivity.
Qed.

Lemma concat_chunks (size : nat) (l : list Z) (n : nat) :
  concat (map (fun k => take size (drop (k * size) l)) (seq 0 n)) = take (n * size) l.
Proof.
  induction n as [|n IH]; [reflexivity|].
  rewrite seq_S, map_app, concat_app, IH. simpl. rewrite app_nil_r.
  rewrite take_take_drop. f_equal. lia.
Qed.

End BatchFacts.

Section BatchTheorems.
Import Batches.

(** The batches partition the pending tokens.  With a positive
    [BATCH_SIZE] the loop of [main] ends after [totalBatches] turns; turn
    [k] (from 0) has [batchNum = k + 1] and the batch
    [pendingTokens.slice(k * BATCH_SIZE, (k + 1) * BATCH_SIZE)], which is
    not empty and has at most [BATCH_SIZE] tokens; put end to end, the
    batches are the pending tokens, each token in exactly one batch. *)
Theorem batches_partition (size : nat) (l : list Z) :
  (0 < size)%nat ->
  exists batches,
    (forall fuel, (length l < fuel)%nat -> batchLoop fuel size l 0 = Some batches)
    /\ length batches = totalBatches size l
    /\ (forall k, (k < length batches)%nat ->
          batches !! k = Some (S k, take size (drop (k * size) l)))
    /\ concat (map snd batches) = l
    /\ (forall n b, (n, b) ∈ batches -> b <> [] /\ (length b <= size)%nat).
Proof.
  intros Hs.
  set (batches := map (fun k => (S k, take size (drop (k * size) l)))
                      (seq 0 (ceilDiv (length l) size))).
  assert (length batches = ceilDiv (length l) size) as Hlen.
  { unfold batches. rewrite length_map, length_seq. reflexivity. }
  assert (forall k, (k < length batches)%nat ->
            batches !! k = Some (S k, take size (drop (k * size) l))) as Hlook.
  { intros k Hk. unfold batches. change (map ?f ?x) with (f <$> x).
    rewrite list_lookup_fmap, lookup_seq_lt by lia. reflexivity. }
  destruct (ceilDiv_bounds (length l) size Hs) as [Hup Hlow].
  exists batches. split; [|split; [exact Hlen|split; [exact Hlook|split]]].
  - intros fuel Hf. pose proof (batchLoop_from size l fuel 0 Hs) as H.
    simpl in H. rewrite Nat.sub_0_r in H. apply H. lia.
  - unfold batches. rewrite map_map. simpl. rewrite concat_chunks.
    apply take_ge. lia.
  - intros n b Hin. apply list_elem_of_lookup_1 in Hin as [k Hk].
    pose proof (lookup_lt_Some _ _ _ Hk) as Hlt. rewrite (Hlook k Hlt) in Hk.
    injection Hk as <- <-. rewrite Hlen in Hlt. specialize (Hlow k Hlt). split.
    + intros Hnil. apply (f_equal length) in Hnil.
      rewrite length_take, length_drop in Hnil. simpl in Hnil. lia.
    + rewrite length_take. lia.
Qed.

(** Five pending tokens in batches of two. *)
Lemma batches_partition_witness :
  exists batches,
    (forall fuel, (length [1; 2; 3; 4; 5] < fuel)%nat ->
       batchLoop fuel 2 [1; 2; 3; 4; 5] 0 = Some batches)
    /\ length batches = totalBatches 2 [1; 2; 3; 4; 5]
    /\ (forall k, (k < length batches)%nat ->
          batches !! k = Some (S k, take 2 (drop (k * 2) [1; 2; 3; 4; 5])))
    /\ concat (map snd batches) = [1; 2; 3; 4; 5]
    /\ (forall n b, (n, b) ∈ batches -> b <> [] /\ (length b <= 2)%nat).
Proof. apply (batches_partition 2 [1; 2; 3; 4; 5]). lia. Defined.

(** With [BATCH_SIZE = 0] the loop never ends: the index stays at 0 and
    every turn forms an empty batch. *)
Theorem batch_size_zero_never_ends (l : list Z) (fuel : nat) :
  l <> [] -> batchLoop fuel 0 l 0 = None.
Proof.
  intros Hl. induction fuel as [|fuel IH]; [reflexivity|]. simpl.
  destruct l as [|x l]; [congruence|]. simpl. simpl in IH. rewrite IH. reflexivity.
Qed.

Lemma batch_size_zero_never_ends_witness : batchLoop 1000 0 [1; 2] 0 = None.
Proof. apply (batch_size_zero_never_ends [1; 2] 1000). discriminate. Defined.

End BatchTheorems.

(** ** Counting the records by status *)

Section StatusFacts.
Import Js JsString Model Status.

Lemma Z_to_string_not_word (z : Z) (c : ascii) (s : string) :
  (nat_of_ascii c >= 65)%nat -> Z_to_string z <> String c s.
Proof.
  intros Hc. unfold Z_to_string.
  destruct z as [|p|p]; simpl.
  - intros [= <- _]. vm_compute in Hc. lia.
  - destruct (Pos.to_uint p); simpl; intros [= <- _]; vm_compute in Hc; lia.
  - intros [= <- _]. vm_compute in Hc. lia.
Qed.

Lemma propertyKey_word (v : option JsValue) (text : string) :
  text = "completed" \/ text = "pending" \/ text = "failed" ->
  (propertyKey v = text <-> isStr v text = true).
Proof.
  intros Ht. unfold propertyKey, isStr.
  destruct v as [[| |z|s|[|]]|];
    try (split; [intros <-; destruct Ht as [?|[?|?]]; discriminate|discriminate]).
  - split; [|discriminate]. intros H. exfalso.
    destruct Ht as [->|[->| ->]]; revert H; apply Z_to_string_not_word; vm_compute; lia.
  - rewrite String.eqb_eq. reflexivity.
Qed.

Lemma tally_lookup (counts : gmap string Z) (token : JsObject) (k : string) :
  default 0 (tally counts token !! k)
  = default 0 (counts !! k)
    + (if decide (propertyKey (token !! "status") = k) then 1 else 0).
Proof.
  unfold tally. cbv zeta. rewrite lookup_insert.
  destruct (decide (propertyKey (token !! "status") = k)) as [->|]; simpl; lia.
Qed.

Lemma foldl_tally_lookup (tokens : list JsObject) (counts : gmap string Z) (k : string) :
  default 0 (foldl tally counts tokens !! k)
  = default 0 (counts !! k)
    + Z.of_nat (length (filter (fun t => propertyKey (t !! "status") = k) tokens)).
Proof.
  revert counts. induction tokens as [|t tokens IH]; intros counts; simpl; [lia|].
  rewrite IH, tally_lookup. rewrite filter_cons.
  destruct (decide (propertyKey (t !! "status") = k)); simpl; lia.
Qed.

Lemma filter_length_ext {A} (P Q : A -> Prop) `{!forall x, Decision (P x)}
    `{!forall x, Decision (Q x)} (l : list A) :
  (forall x, P x <-> Q x) -> length (filter P l) = length (filter Q l).
Proof.
  intros Hext. induction l as [|x l IH]; [reflexivity|].
  rewrite !filter_cons. destruct (decide (P x)) as [HP|HP], (decide (Q x)) as [HQ|HQ];
    simpl; try (rewrite IH; reflexivity); exfalso; [apply HQ, Hext, HP|apply HP, Hext, HQ].
Qed.

Lemma statusCounts_word (tokens : gmap Z JsObject) (text : string) :
  text = "completed" \/ text = "pending" \/ text = "failed" ->
  default 0 (statusCounts tokens !! text) = Z.of_nat (countStatus text (values tokens)).
Proof.
  intros Ht. unfold statusCounts, countStatus. rewrite foldl_tally_lookup.
  assert (default 0 (initialCounts !! text) = 0) as ->.
  { destruct Ht as [->|[->| ->]]; reflexivity. }
  rewrite Z.add_0_l. f_equal. apply filter_length_ext. intros t. apply propertyKey_word, Ht.
Qed.

Lemma values_perm (tokens : gmap Z JsObject) :
  values tokens ≡ₚ map snd (map_to_list tokens).
Proof. unfold values. rewrite merge_sort_Permutation. reflexivity. Qed.

Lemma elem_of_values (tokens : gmap Z JsObject) (r : JsObject) :
  r ∈ values tokens <-> exists tokenId, tokens !! tokenId = Some r.
Proof.
  rewrite values_perm. change (map snd ?l) with (snd <$> l). rewrite list_elem_of_fmap.
  split.
  - intros ([k r'] & -> & Hin). exists k. apply elem_of_map_to_list. exact Hin.
  - intros [k Hk]. exists (k, r). split; [reflexivity|]. apply elem_of_map_to_list. exact Hk.
Qed.

Lemma length_values (tokens : gmap Z JsObject) :
  length (values tokens) = length (map_to_list tokens).
Proof. rewrite values_perm, length_map. reflexivity. Qed.

Lemma countStatus_pos (text : string) (l : list JsObject) :
  (0 < countStatus text l)%nat <-> exists r, r ∈ l /\ r !! "status" = Some (JsStr text).
Proof.
  unfold countStatus. split.
  - intros H. destruct (filter _ l) as [|r rest] eqn:Hf; [simpl in H; lia|].
    assert (r ∈ filter (fun t => isStr (t !! "status") text = true) l) as Hin
      by (rewrite Hf; apply list_elem_of_here).
    apply list_elem_of_filter in Hin as [Hs Hin]. exists r. split; [exact Hin|].
    apply isStr_true, Hs.
  - intros (r & Hin & Hs).
    assert (r ∈ filter (fun t => isStr (t !! "status") text = true) l) as Hf.
    { apply list_elem_of_filter. split; [|exact Hin]. rewrite Hs. simpl.
      apply String.eqb_refl. }
    destruct (filter _ l); [inversion Hf|simpl; lia].
Qed.

Lemma countStatus_cons (text : string) (r : JsObject) (l : list JsObject) :
  countStatus text (r :: l)
  = ((if isStr (r !! "status") text then 1 else 0) + countStatus text l)%nat.
Proof.
  unfold countStatus. rewrite filter_cons.
  destruct (isStr (r !! "status") text) eqn:E;
    destruct (decide (true = true)) as [_|H] || destruct (decide (false = true)) as [H|_];
    simpl; try reflexivity; try discriminate; exfalso; apply H; reflexivity.
Qed.

Lemma knownStatus_cases (r : JsObject) :
  (knownStatus r
   /\ ((if isStr (r !! "status") "completed" then 1 else 0)
       + (if isStr (r !! "status") "failed" then 1 else 0)
       + (if isStr (r !! "status") "pending" then 1 else 0) = 1)%nat)
  \/ (~ knownStatus r
      /\ ((if isStr (r !! "status") "completed" then 1 else 0)
          + (if isStr (r !! "status") "failed" then 1 else 0)
          + (if isStr (r !! "status") "pending" then 1 else 0) = 0)%nat).
Proof.
  unfold knownStatus, isStr.
  destruct (r !! "status") as [[| |z|s|b]|];
    try (right; split; [intros [H|[H|H]]; discriminate|reflexivity]).
  destruct (String.eqb s "completed") eqn:E1.
  { apply String.eqb_eq in E1. subst. left. auto. }
  destruct (String.eqb s "failed") eqn:E2.
  { apply String.eqb_eq in E2. subst. left. auto. }
  destruct (String.eqb s "pending") eqn:E3.
  { apply String.eqb_eq in E3. subst. left. auto. }
  right. split; [|reflexivity].
  apply String.eqb_neq in E1, E2, E3. intros [H|[H|H]]; congruence.
Qed.

(** The three counts over a list: they never count a record twice. *)
Lemma countStatus_sum (l : list JsObject) :
  (countStatus "completed" l + countStatus "failed" l + countStatus "pending" l
   <= length l)%nat
  /\ ((countStatus "completed" l + countStatus "failed" l + countStatus "pending" l
       = length l)%nat
      <-> forall r, r ∈ l -> knownStatus r).
Proof.
  induction l as [|r l [IH1 IH2]].
  - split; [unfold countStatus; simpl; lia|].
    split; [intros _ r H; inversion H|reflexivity].
  - rewrite !countStatus_cons. cbn [length].
    destruct (knownStatus_cases r) as [[Hk Hone]|[Hk Hzero]].
    + split; [lia|]. split.
      * intros H r' [->|Hin]%elem_of_cons; [exact Hk|]. apply IH2; [lia|exact Hin].
      * intros H. assert (forall r', r' ∈ l -> knownStatus r') as H' by
          (intros r' Hin; apply H; apply elem_of_cons; auto).
        apply IH2 in H'. lia.
    + split; [lia|]. split; [lia|].
      intros H. exfalso. apply Hk, H, list_elem_of_here.
Qed.

Lemma checkStatus_counts_aux (tokens : gmap Z JsObject) :
  completedCount (checkStatus tokens) = Z.of_nat (countStatus "completed" (values tokens))
  /\ failedCount (checkStatus tokens) = Z.of_nat (countStatus "failed" (values tokens))
  /\ pendingCount (checkStatus tokens) = Z.of_nat (countStatus "pending" (values tokens)).
Proof. unfold checkStatus. simpl. rewrite !statusCounts_word by auto. auto. Qed.

End StatusFacts.

Section StatusTheorems.
Import Js JsString Model Status.

(** [checkStatus] counts by status.  The numbers it prints as Completed,
    Pending and Failed are the numbers of records whose status is
    [completed], [pending] and [failed], the total is the number of
    records, and it announces pending tokens exactly when some record has
    status [pending]: failed records alone give "All tokens have been
    processed". *)
Theorem checkStatus_counts (tokens : gmap Z JsObject) :
  totalTokens (checkStatus tokens) = size tokens
  /\ completedCount (checkStatus tokens)
     = Z.of_nat (countStatus "completed" (values tokens))
  /\ pendingCount (checkStatus tokens) = Z.of_nat (countStatus "pending" (values tokens))
  /\ failedCount (checkStatus tokens) = Z.of_nat (countStatus "failed" (values tokens))
  /\ (tokensToMint (checkStatus tokens) = true
      <-> exists tokenId r, tokens !! tokenId = Some r
                            /\ r !! "status" = Some (JsStr "pending")).
Proof.
  unfold checkStatus. simpl. rewrite !statusCounts_word by auto.
  split; [apply length_map_to_list|]. split; [reflexivity|]. split; [reflexivity|].
  split; [reflexivity|].
  rewrite Z.ltb_lt. rewrite <- Nat2Z.inj_0, <- Nat2Z.inj_lt, countStatus_pos. split.
  - intros (r & Hin & Hs). apply elem_of_values in Hin as [tokenId Hin]. eauto.
  - intros (tokenId & r & Hin & Hs). exists r. split; [|exact Hs].
    apply elem_of_values. eauto.
Qed.

(** The recount of [saveMintLog].  The summary it writes has
    [successful + failed + pending <= total], with equality exactly when
    every record has one of the statuses [completed], [failed] and
    [pending]; and its three counts are the ones [checkStatus] prints for
    the same log. *)
Theorem saveMintLog_recounts (tokens : gmap Z JsObject) :
  total (saveMintLog tokens) = Z.of_nat (size tokens)
  /\ successful (saveMintLog tokens) + failed (saveMintLog tokens)
     + pending (saveMintLog tokens) <= total (saveMintLog tokens)
  /\ (successful (saveMintLog tokens) + failed (saveMintLog tokens)
      + pending (saveMintLog tokens) = total (saveMintLog tokens)
      <-> forall tokenId r, tokens !! tokenId = Some r -> knownStatus r)
  /\ successful (saveMintLog tokens) = completedCount (checkStatus tokens)
  /\ failed (saveMintLog tokens) = failedCount (checkStatus tokens)
  /\ pending (saveMintLog tokens) = pendingCount (checkStatus tokens).
Proof.
  destruct (checkStatus_counts_aux tokens) as (H1 & H2 & H3).
  unfold saveMintLog. cbn [total successful failed pending]. rewrite H1, H2, H3.
  destruct (countStatus_sum (values tokens)) as [Hle Heq].
  split; [rewrite length_values, length_map_to_list; reflexivity|].
  split; [lia|]. split; [|auto].
  split.
  - intros H tokenId r Hr. apply Heq; [lia|]. apply elem_of_values. eauto.
  - intros H. assert (forall r, r ∈ values tokens -> knownStatus r) as H'.
    { intros r [tokenId Hr]%elem_of_values. eauto. }
    apply Heq in H'. lia.
Qed.

End StatusTheorems.

(** ** The single-wallet script: a fresh log, and the summary *)

Section SingleLogFacts.
Import Js JsString Classify Model Engine.

Lemma StronglySorted_lt_le (l : list Z) : StronglySorted Z.lt l -> StronglySorted Z.le l.
Proof.
  induction 1 as [|x l _ IH Hx]; constructor; [exact IH|].
  eapply Forall_impl; [exact Hx|]. intros y Hy. simpl in Hy. lia.
Qed.

Lemma filter_all {A} (P : A -> Prop) `{!forall x, Decision (P x)} (l : list A) :
  Forall P l -> filter P l = l.
Proof.
  induction 1 as [|x l Hx _ IH]; [reflexivity|].
  rewrite filter_cons. destruct (decide (P x)); [|contradiction]. rewrite IH. reflexivity.
Qed.

Lemma initialRecords_fst (l : list Z) :
  map fst (map (fun tokenId => (tokenId, Single.initialRecord tokenId)) l) = l.
Proof. induction l as [|x l IH]; [reflexivity|]. simpl. rewrite IH. reflexivity. Qed.

Lemma single_run_settled (cfg : Config) (w : Single.World) (tokenId : Z) (b : bool)
    (inputs : list Single.Input) :
  Single.run cfg w tokenId (Single.Returned b) inputs = (w, Single.Returned b, []).
Proof. induction inputs as [|i rest IH]; simpl; [reflexivity|]. destruct i; exact IH. Qed.

(** The summary after a step of a call of the single-wallet script. *)
Lemma single_step_summary (cfg : Config) (w : Single.World) (tokenId : Z)
    (t : Single.Task) (i : Single.Input) (w' : Single.World) (t' : Single.Task)
    (ops : list ChainOp) :
  Single.step cfg w tokenId t i = Some (w', t', ops) ->
  match t' with
  | Single.Returned b =>
      total (Single.summary w') = total (Single.summary w)
      /\ successful (Single.summary w')
         = successful (Single.summary w) + (if b then 1 else 0)
      /\ failed (Single.summary w') = failed (Single.summary w) + (if b then 0 else 1)
      /\ pending (Single.summary w') = pending (Single.summary w) - 1
  | _ => Single.summary w' = Single.summary w
  end.
Proof.
  assert (forall w0 rc message now,
            Single.summary w0 = Single.summary w ->
            Single.retryOrFail cfg w0 tokenId rc message now = (w', t', ops) ->
            match t' with
            | Single.Returned b =>
                total (Single.summary w') = total (Single.summary w)
                /\ successful (Single.summary w')
                   = successful (Single.summary w) + (if b then 1 else 0)
                /\ failed (Single.summary w')
                   = failed (Single.summary w) + (if b then 0 else 1)
                /\ pending (Single.summary w') = pending (Single.summary w) - 1
            | _ => Single.summary w' = Single.summary w
            end) as Hretry.
  { intros w0 rc message now Hs. unfold Single.retryOrFail.
    destruct (rc <? RETRY_ATTEMPTS cfg)%nat; intros [= <- <- <-]; simpl; [exact Hs|].
    rewrite Hs. repeat split; lia. }
  destruct t as [rc|rc nonce|rc message|b]; destruct i as [now|now [receipt|message']|now answer];
    simpl; try discriminate.
  - unfold Single.enter. destruct (Single.getNextNonce _). intros [= <- <- <-]. reflexivity.
  - intros [= <- <- <-]. simpl. repeat split; lia.
  - unfold Single.catchBlock. destruct (decide _).
    + intros [= <- <- <-]. simpl. repeat split; lia.
    + destruct (decide _); [intros [= <- <- <-]; reflexivity|].
      intros [= H]. revert H. apply Hretry. reflexivity.
  - intros [= H]. revert H. apply Hretry. reflexivity.
Qed.

End SingleLogFacts.

Section SingleLogTheorems.
Import Js JsString Classify Model Engine.

(** A first start of [mint_batch_200k_300k.js].  With no log file,
    [loadExistingProgress] creates a pending record for every id of the
    range, and the pending tokens [main] computes from them are all the
    ids of the range, in ascending order. *)
Theorem single_fresh_log_all_pending (cfg : Config) :
  Single.pendingTokens (Single.initialTokens cfg)
  = seqZ (START_TOKEN_ID cfg) (END_TOKEN_ID cfg - START_TOKEN_ID cfg + 1).
Proof.
  set (ids := seqZ (START_TOKEN_ID cfg) (END_TOKEN_ID cfg - START_TOKEN_ID cfg + 1)).
  set (records := map (fun tokenId => (tokenId, Single.initialRecord tokenId)) ids).
  apply (StronglySorted_unique Z.le).
  - apply Sorted_StronglySorted; [intros x y z; lia|].
    apply Sorted_merge_sort. intros x y. lia.
  - apply StronglySorted_lt_le, StronglySorted_seqZ.
  - unfold Single.pendingTokens. rewrite merge_sort_Permutation.
    assert (map_to_list (Single.initialTokens cfg) ≡ₚ records) as Hperm.
    { unfold Single.initialTokens. apply map_to_list_to_map.
      fold ids. fold records. change (records.*1) with (map fst records).
      unfold records. rewrite initialRecords_fst. apply NoDup_seqZ. }
    change (map fst ?l) with (fst <$> l). rewrite Hperm.
    rewrite filter_all.
    + change (fst <$> records) with (map fst records). unfold records.
      rewrite initialRecords_fst. reflexivity.
    + unfold records. apply Forall_forall. intros [k r] Hin%list_elem_of_In%in_map_iff.
      destruct Hin as (x & [= <- <-] & _). reflexivity.
Qed.

(** A call of the single-wallet script is counted once: when
    [mintSingleToken] returns, [summary.pending] has gone down by one and
    [summary.successful] (result [true]) or [summary.failed] (result
    [false]) up by one, whatever the retries and nonce resets in
    between. *)
Theorem single_call_is_counted_once (cfg : Config) (inputs : list Single.Input)
    (w : Single.World) (tokenId : Z) (t : Single.Task) (w' : Single.World) (b : bool)
    (ops : list ChainOp) :
  Single.settled t = false ->
  Single.run cfg w tokenId t inputs = (w', Single.Returned b, ops) ->
  total (Single.summary w') = total (Single.summary w)
  /\ successful (Single.summary w') = successful (Single.summary w) + (if b then 1 else 0)
  /\ failed (Single.summary w') = failed (Single.summary w) + (if b then 0 else 1)
  /\ pending (Single.summary w') = pending (Single.summary w) - 1.
Proof.
  revert w t ops. induction inputs as [|i rest IH]; intros w t ops Ht; simpl.
  - intros [= _ -> _]. discriminate.
  - destruct (Single.step cfg w tokenId t i) as [[[w1 t1] ops1]|] eqn:Hs; [|apply IH, Ht].
    apply single_step_summary in Hs.
    destruct t1 as [rc1|rc1 nonce1|rc1 message1|b1].
    + specialize (IH w1 (Single.Entry rc1)).
      destruct (Single.run cfg w1 tokenId _ rest) as [[w2 t2] ops2].
      intros [= <- -> _]. rewrite <- Hs. apply (IH ops2 eq_refl eq_refl).
    + specialize (IH w1 (Single.AwaitTx rc1 nonce1)).
      destruct (Single.run cfg w1 tokenId _ rest) as [[w2 t2] ops2].
      intros [= <- -> _]. rewrite <- Hs. apply (IH ops2 eq_refl eq_refl).
    + specialize (IH w1 (Single.AwaitReset rc1 message1)).
      destruct (Single.run cfg w1 tokenId _ rest) as [[w2 t2] ops2].
      intros [= <- -> _]. rewrite <- Hs. apply (IH ops2 eq_refl eq_refl).
    + rewrite single_run_settled. intros [= <- -> _]. exact Hs.
Qed.

Lemma single_call_is_counted_once_witness :
  total (Single.summary Instances.singleMinted) = total (Single.summary Instances.singleFresh)
  /\ successful (Single.summary Instances.singleMinted)
     = successful (Single.summary Instances.singleFresh) + 1
  /\ failed (Single.summary Instances.singleMinted)
     = failed (Single.summary Instances.singleFresh) + 0
  /\ pending (Single.summary Instances.singleMinted)
     = pending (Single.summary Instances.singleFresh) - 1.
Proof.
  apply (single_call_is_counted_once Examples.smallConfig Instances.singleMint
           Instances.singleFresh 7 (Single.Entry 0) Instances.singleMinted true
           [EstimateGas 0; SendTransaction 7 0 5]).
  - reflexivity.
  - vm_compute. reflexivity.
Defined.

End SingleLogTheorems.

(** ** The delay before a retry *)

Section DelayTheorems.
Import Delay.

(** The delay before a retry doubles until it reaches the cap.  With
    [0 < RETRY_DELAY <= MAX_RETRY_DELAY], the exponential part of
    [calculateBackoffDelay] starts at [RETRY_DELAY], is doubled from one
    retry to the next as long as the double stays below
    [MAX_RETRY_DELAY], and stays at [MAX_RETRY_DELAY] from then on; it
    never decreases. *)
Theorem exponentialDelay_doubles_to_cap (d : Delays) (retryCount : nat) :
  0 < RETRY_DELAY d <= MAX_RETRY_DELAY d ->
  exponentialDelay d 0 = RETRY_DELAY d
  /\ exponentialDelay d (S retryCount)
     = Z.min (2 * exponentialDelay d retryCount) (MAX_RETRY_DELAY d)
  /\ RETRY_DELAY d <= exponentialDelay d retryCount <= MAX_RETRY_DELAY d
  /\ exponentialDelay d retryCount <= exponentialDelay d (S retryCount).
Proof.
  intros Hd. unfold exponentialDelay.
  assert (2 ^ Z.of_nat (S retryCount) = 2 * 2 ^ Z.of_nat retryCount) as Hpow.
  { rewrite Nat2Z.inj_succ, Z.pow_succ_r by lia. reflexivity. }
  assert (1 <= 2 ^ Z.of_nat retryCount) as Hone.
  { pose proof (Z.pow_pos_nonneg 2 (Z.of_nat retryCount)). lia. }
  rewrite Hpow. simpl (2 ^ Z.of_nat 0). split; [lia|]. split; [nia|]. split; nia.
Qed.

(** The constants of the script: the delays are 2, 4 and 8 seconds, then
    15 seconds. *)
Lemma exponentialDelay_doubles_to_cap_witness :
  exponentialDelay CONFIG 0 = RETRY_DELAY CONFIG
  /\ exponentialDelay CONFIG 3 = Z.min (2 * exponentialDelay CONFIG 2) (MAX_RETRY_DELAY CONFIG)
  /\ RETRY_DELAY CONFIG <= exponentialDelay CONFIG 2 <= MAX_RETRY_DELAY CONFIG
  /\ exponentialDelay CONFIG 2 <= exponentialDelay CONFIG 3.
Proof. apply (exponentialDelay_doubles_to_cap CONFIG 2). simpl. lia. Defined.

End DelayTheorems.

(** ** The authorization script *)

Section AuthorizeFacts.
Import Authorize.

Lemma StronglySorted_omap {A B} (R : A -> A -> Prop) (R' : B -> B -> Prop)
    (f : A -> option B) (l : list A) :
  (forall x y x' y', R x y -> f x = Some x' -> f y = Some y' -> R' x' y') ->
  StronglySorted R l -> StronglySorted R' (omap f l).
Proof.
  intros Hf. induction 1 as [|x l _ IH Hx]; simpl; [constructor|].
  destruct (f x) as [x'|] eqn:Hfx; [|exact IH].
  constructor; [exact IH|]. apply Forall_forall. intros y' Hy'.
  apply list_elem_of_omap in Hy' as (y & Hy & Hfy).
  rewrite Forall_forall in Hx. exact (Hf x y x' y' (Hx y Hy) Hfx Hfy).
Qed.

Lemma elem_of_authorizationTasks (keys : list string) (a : Answers) (s : Signer) :
  s ∈ authorizationTasks (signersOf keys) a ->
  (1 <= index s)%nat /\ keys !! index s = Some (address s)
  /\ authorizedMinters a (address s) <> Some true.
Proof.
  unfold authorizationTasks. intros [Hna Hin]%list_elem_of_filter.
  apply list_elem_of_lookup_1 in Hin as [j Hj]. rewrite lookup_drop in Hj.
  unfold signersOf in Hj. rewrite list_lookup_imap in Hj.
  destruct (keys !! (1 + j)%nat) as [k|] eqn:Hk; [|discriminate].
  simpl in Hj. injection Hj as <-. simpl. split; [lia|]. split; [exact Hk|exact Hna].
Qed.

Lemma elem_of_transactions (n : Z) (tasks : list Signer) (a : Answers) (tx : Transaction) :
  tx ∈ transactions n tasks a <->
  exists k s g, tasks !! k = Some s /\ estimateGas a (address s) = Some g
    /\ tx = {| minter := address s; gasLimit := Z.quot (g * 130) 100;
               nonce := n + Z.of_nat k |}.
Proof.
  unfold transactions. rewrite list_elem_of_omap. split.
  - intros ([k s] & Hin & Hf). apply elem_of_lookup_imap in Hin as (k' & s' & [= -> ->] & Hk).
    simpl in Hf. destruct (estimateGas a (address s')) as [g|] eqn:Hg; [|discriminate].
    injection Hf as <-. exists k', s', g. auto.
  - intros (k & s & g & Hk & Hg & ->). exists (k, s). split.
    + apply elem_of_lookup_imap. exists k, s. auto.
    + simpl. rewrite Hg. reflexivity.
Qed.

Lemma transactions_all (n : Z) (tasks : list Signer) (a : Answers) (k : nat) :
  Forall (fun s => is_Some (estimateGas a (address s))) tasks ->
  map nonce (omap (fun p : nat * Signer =>
                     match estimateGas a (address (snd p)) with
                     | Some gasEstimate =>
                         Some {| minter := address (snd p);
                                 gasLimit := Z.quot (gasEstimate * 130) 100;
                                 nonce := n + Z.of_nat (fst p) |}
                     | None => None
                     end)
                  (imap (fun i s => ((k + i)%nat, s)) tasks))
  = seqZ (n + Z.of_nat k) (Z.of_nat (length tasks)).
Proof.
  revert k. induction tasks as [|s tasks IH]; intros k Hall; [reflexivity|].
  apply Forall_cons in Hall as [[g Hg] Hall]. simpl. rewrite Hg. simpl.
  rewrite (imap_ext _ (fun i s => ((S k + i)%nat, s))) by (intros; simpl; f_equal; lia).
  rewrite IH by exact Hall.
  rewrite (seqZ_cons (n + Z.of_nat k)) by lia.
  f_equal; [simpl; f_equal; lia|]. f_equal; lia.
Qed.

End AuthorizeFacts.

Section AuthorizeTheorems.
Import Authorize.

(** Who is authorized.  Every call of [setAuthorizedMinter] that
    [authorizeSigners] makes is for a signer of index 1 or more whose
    check [authorizedMinters] did not answer [true]: never for signer 0,
    never for a signer known to be authorized.  When every check answers
    [true] no call is made and the nonce is not even read.  What
    [contract.owner()] answers changes nothing: the script goes on also
    when the wallet of signer 0 is not the owner. *)
Theorem authorize_targets (keys : list string) (a : Answers) :
  (forall sent tx, authorizeSigners keys a = Returned sent -> tx ∈ sent ->
     exists i, (1 <= i)%nat /\ keys !! i = Some (minter tx)
               /\ authorizedMinters a (minter tx) <> Some true)
  /\ (networkOk a = true -> balanceSufficient a = Some true -> keys <> [] ->
      (forall i k, (1 <= i)%nat -> keys !! i = Some k ->
         authorizedMinters a k = Some true) ->
      authorizeSigners keys a = Returned [])
  /\ (forall owner : string + string,
        authorizeSigners keys
          {| networkOk := networkOk a; contractOwner := owner;
             balanceSufficient := balanceSufficient a;
             authorizedMinters := authorizedMinters a;
             transactionCount := transactionCount a; estimateGas := estimateGas a |}
        = authorizeSigners keys a).
Proof.
  split; [|split].
  - intros sent tx. unfold authorizeSigners.
    destruct (networkOk a); [|discriminate]. simpl.
    destruct keys as [|k0 keys]; [discriminate|].
    destruct (balanceSufficient a) as [[|]|]; try discriminate.
    destruct (authorizationTasks (signersOf (k0 :: keys)) a) as [|s tasks] eqn:Ht.
    { intros [= <-] Hin. inversion Hin. }
    destruct (transactionCount a) as [n|]; [|discriminate].
    intros [= <-] Hin. apply elem_of_transactions in Hin as (j & s' & g & Hj & _ & ->).
    simpl. apply list_elem_of_lookup_2 in Hj. rewrite <- Ht in Hj.
    apply elem_of_authorizationTasks in Hj as (H1 & H2 & H3). eauto.
  - intros Hn Hb Hk Hall. unfold authorizeSigners. rewrite Hn, Hb. simpl.
    destruct keys as [|k0 keys]; [congruence|].
    destruct (authorizationTasks (signersOf (k0 :: keys)) a) as [|s tasks] eqn:Ht;
      [reflexivity|].
    exfalso. assert (s ∈ authorizationTasks (signersOf (k0 :: keys)) a) as Hin
      by (rewrite Ht; apply list_elem_of_here).
    apply elem_of_authorizationTasks in Hin as (H1 & H2 & H3).
    apply H3. exact (Hall _ _ H1 H2).
  - intros owner. reflexivity.
Qed.

(** The nonces of the authorizations.  The task at position [k] of
    [authorizationTasks] calls [setAuthorizedMinter] with the nonce
    [nonce + k], or makes no call when its gas estimation throws; so the
    nonces of the calls made are strictly increasing, all different, and
    lie in [nonce .. nonce + authorizationTasks.length - 1]; they are
    exactly these values when every estimation succeeds, and have a gap
    at [nonce + k] when the estimation of task [k] throws. *)
Theorem authorize_nonces (keys : list string) (a : Answers) (sent : list Transaction)
    (n : Z) :
  authorizeSigners keys a = Returned sent -> transactionCount a = inl n ->
  StronglySorted (fun t1 t2 => nonce t1 < nonce t2) sent
  /\ (forall tx, tx ∈ sent ->
        n <= nonce tx < n + Z.of_nat (length (authorizationTasks (signersOf keys) a)))
  /\ (Forall (fun s => is_Some (estimateGas a (address s)))
             (authorizationTasks (signersOf keys) a) ->
      map nonce sent
      = seqZ n (Z.of_nat (length (authorizationTasks (signersOf keys) a))))
  /\ (forall k s, authorizationTasks (signersOf keys) a !! k = Some s ->
        estimateGas a (address s) = None ->
        forall tx, tx ∈ sent -> nonce tx <> n + Z.of_nat k).
Proof.
  unfold authorizeSigners. destruct (networkOk a); [|discriminate]. simpl.
  destruct keys as [|k0 keys]; [discriminate|].
  destruct (balanceSufficient a) as [[|]|]; try discriminate.
  destruct (authorizationTasks (signersOf (k0 :: keys)) a) as [|s0 tasks0] eqn:Ht.
  { intros [= <-] _. split; [constructor|]. split; [intros tx Hin; inversion Hin|].
    split; [reflexivity|]. intros k s Hk. rewrite lookup_nil in Hk. discriminate. }
  set (tasks := s0 :: tasks0) in *.
  intros Hsent Hn. rewrite Hn in Hsent. injection Hsent as <-.
  split; [|split; [|split]].
  - unfold transactions.
    apply (StronglySorted_omap (fun p q : nat * Signer => (fst p < fst q)%nat)).
    + intros [i s] [j t] x' y' Hij Hx Hy. simpl in *.
      destruct (estimateGas a (address s)); [|discriminate].
      destruct (estimateGas a (address t)); [|discriminate].
      injection Hx as <-. injection Hy as <-. simpl. lia.
    + exact (imap_keys_sorted 0 tasks).
  - intros tx Hin. apply elem_of_transactions in Hin as (k & s & g & Hk & _ & ->).
    cbn [nonce]. apply lookup_lt_Some in Hk. lia.
  - intros Hall. pose proof (transactions_all n tasks a 0 Hall) as H.
    rewrite Z.add_0_r in H. exact H.
  - intros k s Hk Hg tx Hin Heq.
    apply elem_of_transactions in Hin as (k' & s' & g & Hk' & Hg' & ->).
    cbn [nonce] in Heq. assert (k' = k) as -> by lia. congruence.
Qed.

(** Signers 2 and 3 need authorization; the estimation for signer 2
    throws: the only call is for signer 3, with nonce 8, and nonce 7 is
    left out. *)
Lemma authorize_nonces_witness :
  StronglySorted (fun t1 t2 => nonce t1 < nonce t2)
    [{| minter := "0xD"; gasLimit := 130; nonce := 8 |}]
  /\ (forall tx, tx ∈ [{| minter := "0xD"; gasLimit := 130; nonce := 8 |}] ->
        7 <= nonce tx
        < 7 + Z.of_nat (length (authorizationTasks (signersOf Instances.fourKeys)
                                  Instances.authAnswers)))
  /\ (Forall (fun s => is_Some (estimateGas Instances.authAnswers (address s)))
             (authorizationTasks (signersOf Instances.fourKeys) Instances.authAnswers) ->
      map nonce [{| minter := "0xD"; gasLimit := 130; nonce := 8 |}]
      = seqZ 7 (Z.of_nat (length (authorizationTasks (signersOf Instances.fourKeys)
                                    Instances.authAnswers))))
  /\ (forall k s,
        authorizationTasks (signersOf Instances.fourKeys) Instances.authAnswers !! k
        = Some s ->
        estimateGas Instances.authAnswers (address s) = None ->
        forall tx, tx ∈ [{| minter := "0xD"; gasLimit := 130; nonce := 8 |}] ->
          nonce tx <> 7 + Z.of_nat k).
Proof.
  apply (authorize_nonces Instances.fourKeys Instances.authAnswers
           [{| minter := "0xD"; gasLimit := 130; nonce := 8 |}] 7).
  - vm_compute. reflexivity.
  - reflexivity.
Defined.

End AuthorizeTheorems.

(** ** A confirmed transaction, and the guard of the retry script *)

Section ReceiptTheorems.
Import Js JsString Classify Model SignerPool Engine Scheduler.



End ReceiptTheorems.

Section RetryGuardTheorems.
Import Js JsString Classify Model.

(** The guard of the retry script is read on entry only.  A call that
    has passed the guard writes its outcome whatever the record says by
    then: on a token that is completed in the meantime (the file of
    failed tokens lists the id twice and the other call was faster), a
    receipt completes the token a second time and counts it in
    [summary.successful] again, and a last attempt that fails with an
    error other than [ALREADY_KNOWN] and [NONCE_ERROR] replaces the
    completed record by a failed one. *)
Theorem retry_guard_is_read_on_entry_only (cfg : Config) (w : Retry.World)
    (tokenId : string) (rc : nat) (nonce now : Z) :
  Retry.isCompleted w tokenId = true ->
  (forall receipt, exists w',
     Retry.step cfg w tokenId (Retry.AwaitTx rc nonce) (Retry.TxAnswer now (inl receipt))
     = Some (w', Retry.Returned true, [])
     /\ successful (Retry.summary w') = successful (Retry.summary w) + 1
     /\ Retry.tokens w' !! tokenId
        = Some (Retry.completedRecord tokenId receipt nonce now))
  /\ (forall message,
        classifyError200k message <> ALREADY_KNOWN ->
        classifyError200k message <> NONCE_ERROR ->
        (RETRY_ATTEMPTS cfg <= rc)%nat ->
        exists w',
          Retry.step cfg w tokenId (Retry.AwaitTx rc nonce)
            (Retry.TxAnswer now (inr message))
          = Some (w', Retry.Returned false, [])
          /\ Retry.isCompleted w' tokenId = false
          /\ failed (Retry.summary w') = failed (Retry.summary w) + 1).
Proof.
  intros _. split.
  - intros receipt. eexists. split; [reflexivity|]. split; [reflexivity|].
    simpl. apply lookup_insert_eq.
  - intros message Hak Hnonce Hrc. simpl. unfold Retry.catchBlock.
    destruct (decide _) as [H|_]; [contradiction|].
    destruct (decide _) as [H|_]; [contradiction|].
    unfold Retry.retryOrFail.
    destruct (rc <? RETRY_ATTEMPTS cfg)%nat eqn:Hlt; [apply Nat.ltb_lt in Hlt; lia|].
    eexists. split; [reflexivity|]. split; [|reflexivity].
    unfold Retry.isCompleted. simpl. rewrite lookup_insert_eq. reflexivity.
Qed.

(** Token ["7"] is completed; a call that sent its transaction with nonce
    6 before that gets its receipt. *)
Lemma retry_guard_is_read_on_entry_only_witness :
  exists w',
    Retry.step Examples.smallConfig Instances.retryDone "7" (Retry.AwaitTx 0 6)
      (Retry.TxAnswer 1000 (inl Examples.receipt1))
    = Some (w', Retry.Returned true, [])
    /\ successful (Retry.summary w') = successful (Retry.summary Instances.retryDone) + 1
    /\ Retry.tokens w' !! "7" = Some (Retry.completedRecord "7" Examples.receipt1 6 1000).
Proof.
  apply (proj1 (retry_guard_is_read_on_entry_only Examples.smallConfig Instances.retryDone
                  "7" 0 6 1000 eq_refl)).
Defined.

End RetryGuardTheorems.

(** ** No token is left out *)

Section CoverageFacts.
Import Js JsString Classify Model SignerPool Engine Snapshot Scheduler Coverage.

Lemma status_set_token (w : World) (tokenId : Z) (r : JsObject) :
  status (set_token w tokenId r) tokenId = r !! "status".
Proof. unfold status. rewrite token_set_token. destruct (decide _); [reflexivity|congruence]. Qed.

Lemma completedRecord_status (r : JsObject) (receipt : Receipt) (sd : SignerData)
    (nonce now : Z) :
  completedRecord r receipt sd nonce now !! "status" = Some (JsStr "completed").
Proof.
  unfold completedRecord. cbv zeta.
  destruct (signer sd); rewrite !lookup_insert_ne by done; apply lookup_insert_eq.
Qed.

Lemma catchBlock_returned (cfg : Config) (w : World) (tokenId : Z) (rc : nat)
    (message : string) (now : Z) (w' : World) (b : bool) (ops : list ChainOp) :
  catchBlock cfg w tokenId rc message now = (w', Returned b, ops) ->
  status w' tokenId = Some (JsStr (if b then "completed" else "failed")).
Proof.
  unfold catchBlock. destruct (decide (classifyError message = ALREADY_KNOWN)).
  - destruct (asIndex _ ≫= _) as [w1|]; intros [= <- <- <-].
    change (status (set_token w1 tokenId
                      (alreadyKnownRecord (default ∅ (token w1 tokenId)) now)) tokenId
            = Some (JsStr "completed")).
    rewrite status_set_token. apply alreadyKnownRecord_lookup.
  - destruct (match token w tokenId ≫= _ with Some v => _ | None => Some w end) as [w1|];
      [|discriminate].
    destruct (token w1 tokenId) as [r|]; [|discriminate].
    destruct (rc <? RETRY_ATTEMPTS cfg)%nat; intros [= <- <- <-].
    change (status (set_token
                      (set_token w1 tokenId
                         (<["lastSignerIndex" := orZero (token w tokenId
                                                           ≫= fun r => r !! "lastSignerIndex")]> r))
                      tokenId
                      (failedRecord
                         (<["lastSignerIndex" := orZero (token w tokenId
                                                           ≫= fun r => r !! "lastSignerIndex")]> r)
                         message (classifyError message) rc now)) tokenId
            = Some (JsStr "failed")).
    rewrite status_set_token. apply failedRecord_lookup.
Qed.

(** A call that returns has written its outcome into the record. *)
Lemma step_returned (cfg : Config) (w : World) (tokenId : Z) (t : Task) (i : Input)
    (w' : World) (b : bool) (ops : list ChainOp) :
  step cfg w tokenId t i = Some (w', Returned b, ops) ->
  status w' tokenId = Some (JsStr (if b then "completed" else "failed")).
Proof.
  destruct t as [|rc|rc sd|rc sd nonce|b0|]; destruct i as [now|now chain|now [receipt|message]];
    simpl; try discriminate.
  - unfold enter. destruct (getNextAvailableSigner now w) as [[sd|] w1]; discriminate.
  - unfold enter. destruct (getNextAvailableSigner now w) as [[sd|] w1]; discriminate.
  - destruct (getFreshNonce chain w (index sd)) as [nonce|message]; [discriminate|].
    intros [= H]. eapply catchBlock_returned, H.
  - unfold onReceipt. destruct (handleSignerSuccess (index sd) w) as [w1|].
    + intros [= <- <- <-].
      change (status (set_token w1 tokenId
                        (completedRecord (default ∅ (token w1 tokenId)) receipt sd nonce now))
                tokenId = Some (JsStr "completed")).
      rewrite status_set_token. apply completedRecord_status.
    + intros [= H]. eapply catchBlock_returned, H.
  - intros [= H]. eapply catchBlock_returned, H.
Qed.

Lemma dealtWith_returned (w : World) (tokenId : Z) (b : bool) :
  status w tokenId = Some (JsStr (if b then "completed" else "failed")) ->
  dealtWith w tokenId.
Proof.
  destruct b; intros H; [left|right; exact H].
  apply completed_not_pending. exact H.
Qed.

Lemma dealtWith_tokens (w w' : World) (tokenId : Z) :
  token w' tokenId = token w tokenId -> dealtWith w tokenId -> dealtWith w' tokenId.
Proof.
  intros Ht [H|H]; [left|right].
  - rewrite <- H. apply isPending_tokens, Ht.
  - unfold status in *. rewrite Ht. exact H.
Qed.

Lemma covered_next_batch (cfg : Config) (w : World) (d : Disk) (l : list Z) :
  (forall tokenId, START_TOKEN_ID cfg <= tokenId <= END_TOKEN_ID cfg ->
     tokenId ∈ l \/ dealtWith w tokenId) ->
  covered cfg {| world := w; disk := d;
                 phase := Batching (startBatch (take (BATCH_SIZE cfg) l))
                                   (drop (BATCH_SIZE cfg) l) |}.
Proof.
  intros H. unfold covered. simpl. split.
  - intros tokenId Hr. rewrite map_fst_startBatch.
    destruct (H tokenId Hr) as [Hin|Hd]; [|auto].
    rewrite <- (take_drop (BATCH_SIZE cfg) l) in Hin.
    apply elem_of_app in Hin as [Hin|Hin]; auto.
  - intros tokenId b Hin. apply elem_of_startBatch in Hin as [_ Hq]. discriminate.
Qed.

Lemma main_covered (cfg : Config) (now : Z) (init : InitAnswer) (d : Disk) :
  covered cfg (fst (main cfg now init d)).
Proof.
  unfold main. destruct (loadExistingProgress cfg d initialWorld) as [w|]; [|exact I].
  pose proof (elem_of_pendingTokens cfg w) as Hel. unfold pendingTokens in Hel.
  destruct (findPendingTokens cfg w) as [p w0] eqn:Hf.
  assert (w0 = w) as -> by (unfold findPendingTokens in Hf; congruence).
  simpl in Hel.
  assert (forall tokenId, START_TOKEN_ID cfg <= tokenId <= END_TOKEN_ID cfg ->
            tokenId ∈ p \/ dealtWith w tokenId) as Hall.
  { intros tokenId Hr. destruct (isPending w tokenId) eqn:Hp.
    - left. apply Hel. auto.
    - right. left. exact Hp. }
  destruct p as [|x p].
  - unfold covered. simpl. intros tokenId Hr.
    destruct (Hall tokenId Hr) as [Hin|Hd]; [inversion Hin|exact Hd].
  - destruct (initializeBlockchain_cases cfg now init w) as [H|[ops H]]; rewrite H;
      [exact I|].
    cbn [fst]. apply covered_next_batch. intros tokenId Hr.
    destruct (Hall tokenId Hr) as [Hin|Hd]; [auto|right].
    eapply dealtWith_tokens; [|exact Hd]. reflexivity.
Qed.

Lemma allReturned_elem (running : list (Z * Task)) (tokenId : Z) :
  allReturned running = true -> tokenId ∈ fst <$> running ->
  exists b, (tokenId, Returned b) ∈ running.
Proof.
  unfold allReturned. rewrite forallb_forall. intros Hall Hin.
  apply list_elem_of_fmap in Hin as ([k t] & -> & Hin).
  specialize (Hall (k, t) (proj1 (list_elem_of_In _ _) Hin)). simpl in Hall.
  destruct t; try discriminate. eauto.
Qed.

Lemma covered_step (cfg : Config) (s : Sys) (ops : list ChainOp) (s' : Sys) :
  invariant s -> covered cfg s -> sys_step cfg s ops s' -> covered cfg s'.
Proof.
  intros Hinv Hcov Hstep. destruct Hstep as
    [s running queue k tokenId t input w' t' ops Hph Hk _ _ Hstep
    |s running queue now a a' Hph Hall
    |s running queue Hph _
    |s running queue now a Hph
    |s running queue now a d Hph _]; unfold covered in *; rewrite Hph in Hcov; simpl.
  - destruct Hcov as [Hc Hret].
    unfold invariant in Hinv. rewrite Hph in Hinv. destruct Hinv as (Hnd & _ & _).
    apply NoDup_app in Hnd as (Hnd1 & Hdisj & _).
    pose proof (step_frame _ _ _ _ _ _ _ _ Hstep) as (_ & Hto & _).
    assert (fst <$> <[k := (tokenId, t')]> running = fst <$> running) as Hfst.
    { rewrite list_fmap_insert. simpl. apply list_insert_id.
      rewrite list_lookup_fmap, Hk. reflexivity. }
    assert (tokenId ∈ fst <$> running) as Hrun.
    { apply list_elem_of_fmap. exists (tokenId, t). split; [reflexivity|].
      eapply list_elem_of_lookup_2, Hk. }
    split.
    + intros tokenId' Hr. rewrite Hfst.
      destruct (decide (tokenId' = tokenId)) as [->|Hne]; [auto|].
      destruct (Hc tokenId' Hr) as [H|[H|H]]; [auto|auto|].
      right. right. eapply dealtWith_tokens; [apply Hto, Hne|exact H].
    + intros tokenId' b Hin. apply list_elem_of_lookup_1 in Hin as [j Hj].
      rewrite list_lookup_insert in Hj.
      destruct (decide (k = j ∧ (k < length running)%nat)) as [[<- _]|Hne].
      * injection Hj as <- ->. eapply dealtWith_returned, step_returned, Hstep.
      * assert (k <> j) as Hkj.
        { intros <-. apply Hne. split; [reflexivity|]. eapply lookup_lt_Some, Hk. }
        assert (tokenId' <> tokenId) as Hneq.
        { intros ->. apply Hkj. eapply (NoDup_lookup _ _ _ _ Hnd1).
          - rewrite list_lookup_fmap, Hk. reflexivity.
          - rewrite list_lookup_fmap, Hj. reflexivity. }
        eapply dealtWith_tokens; [apply Hto, Hneq|].
        eapply Hret, list_elem_of_lookup_2, Hj.
  - destruct Hcov as [Hc Hret].
    assert (forall tokenId, START_TOKEN_ID cfg <= tokenId <= END_TOKEN_ID cfg ->
              tokenId ∈ queue \/ dealtWith (world s) tokenId) as Hq.
    { intros tokenId Hr. destruct (Hc tokenId Hr) as [H|[H|H]]; [|auto|auto].
      right. destruct (allReturned_elem running tokenId Hall H) as [b Hb].
      exact (Hret tokenId b Hb). }
    destruct (afterBatch_cases cfg now a a' s queue)
      as [(Hp & _ & _)|[(_ & _ & ->)|(_ & _ & -> & Hp & Hw)]].
    + rewrite Hp. exact I.
    + apply covered_next_batch. exact Hq.
    + rewrite Hp, Hw. intros tokenId Hr.
      destruct (Hq tokenId Hr) as [H|H]; [inversion H|].
      eapply dealtWith_tokens; [|exact H]. reflexivity.
  - exact I.
  - unfold onSigint. destruct (saveLog cfg a _ _). exact I.
  - rewrite Hph. destruct Hcov as [Hc Hret]. split.
    + intros tokenId Hr. destruct (Hc tokenId Hr) as [H|[H|H]]; auto.
    + intros tokenId b Hin. exact (Hret tokenId b Hin).
Qed.

Lemma runs_covered (cfg : Config) (d : Disk) (ops : list ChainOp) (s : Sys) :
  runs cfg d ops s -> covered cfg s.
Proof.
  intros (now & init & ops1 & ops2 & Hs & _ & _).
  pose proof (main_invariant cfg now init d) as Hinv.
  pose proof (main_covered cfg now init d) as Hcov.
  induction Hs as [s|s1 o1 s2 o2 s3 H1 _ IH]; [exact Hcov|].
  apply IH.
  - exact (proj1 (sys_step_keeps cfg s1 o1 s2 Hinv H1)).
  - exact (covered_step cfg s1 o1 s2 Hinv Hcov H1).
Qed.

End CoverageFacts.

Section CoverageTheorems.
Import Js JsString Classify Model SignerPool Engine Snapshot Scheduler Coverage.

(** No token is left out.  When [main] returns, under whatever
    interleaving the calls ran, every token of the range has a record
    whose status is not [pending]; the tokens a further run would take up
    are exactly those whose record says [failed]. *)
Theorem main_leaves_no_token_pending (cfg : Config) (d : Disk) (ops : list ChainOp)
    (s : Sys) (tokenId : Z) :
  runs cfg d ops s -> phase s = Finished ->
  START_TOKEN_ID cfg <= tokenId <= END_TOKEN_ID cfg ->
  (exists r, token (world s) tokenId = Some r /\ r !! "status" <> Some (JsStr "pending"))
  /\ (tokenId ∈ pendingTokens cfg (world s) <->
      status (world s) tokenId = Some (JsStr "failed")).
Proof.
  intros Hr Hph Hrange. pose proof (runs_covered cfg d ops s Hr) as Hcov.
  unfold covered in Hcov. rewrite Hph in Hcov. specialize (Hcov tokenId Hrange).
  split.
  - destruct Hcov as [Hp|Hf].
    + unfold isPending in Hp. destruct (token (world s) tokenId) as [r|]; [|discriminate].
      exists r. split; [reflexivity|]. intros Hs. rewrite Hs in Hp. discriminate.
    + unfold status in Hf. destruct (token (world s) tokenId) as [r|]; [|discriminate].
      exists r. split; [reflexivity|]. simpl in Hf. congruence.
  - rewrite elem_of_pendingTokens, isPending_spec. split.
    + intros [_ Hp]. destruct Hcov as [Hn|Hf]; [|exact Hf].
      apply isPending_spec in Hp. congruence.
    + intros Hf. split; [exact Hrange|auto].
Qed.

(** Both tokens of the small instance are minted and the batch ends. *)
Lemma main_leaves_no_token_pending_witness :
  (exists r,
     token (world (afterBatch Examples.smallConfig 2000 Written Written
                     (Examples.after Instances.mintBoth) [])) 2 = Some r
     /\ r !! "status" <> Some (JsStr "pending"))
  /\ (2 ∈ pendingTokens Examples.smallConfig
            (world (afterBatch Examples.smallConfig 2000 Written Written
                      (Examples.after Instances.mintBoth) []))
      <-> status (world (afterBatch Examples.smallConfig 2000 Written Written
                           (Examples.after Instances.mintBoth) [])) 2
          = Some (JsStr "failed")).
Proof.
  apply (main_leaves_no_token_pending Examples.smallConfig ∅
           ([GetNetwork; GetBalance 0] ++ (Examples.issued Instances.mintBoth ++ []))).
  - exists 1000, NetworkUp, [GetNetwork; GetBalance 0], (Examples.issued Instances.mintBoth ++ []).
    split; [|split; reflexivity].
    apply (sys_steps_app Examples.smallConfig _ (Examples.after Instances.mintBoth)).
    + apply (drive_sound Examples.smallConfig Instances.mintBoth). vm_compute. reflexivity.
    + rewrite <- (app_nil_r []). econstructor; [|constructor].
      apply (step_batch_done Examples.smallConfig (Examples.after Instances.mintBoth)
               [(1, Returned true); (2, Returned true)] [] 2000 Written Written).
      * vm_compute. reflexivity.
      * reflexivity.
  - reflexivity.
  - simpl. lia.
Defined.

End CoverageTheorems.

(** ** Terminal records, lack of funds and the first attempt, over the scripts *)

Section RetryCallFacts.
Import Js JsString Classify Model.

(** A step of a call of the retry script writes no record but that of
    its own token. *)
Lemma retry_step_frame (cfg : Config) (w : Retry.World) (tokenId : string)
    (t : Retry.Task) (i : Retry.Input) (w' : Retry.World) (t' : Retry.Task)
    (ops : list Retry.ChainOp) (tokenId' : string) :
  Retry.step cfg w tokenId t i = Some (w', t', ops) -> tokenId' <> tokenId ->
  Retry.tokens w' !! tokenId' = Retry.tokens w !! tokenId'.
Proof.
  intros Hstep Hne.
  assert (forall w0 rc message now,
            Retry.tokens w0 = Retry.tokens w ->
            Retry.retryOrFail cfg w0 tokenId rc message now = (w', t', ops) ->
            Retry.tokens w' !! tokenId' = Retry.tokens w !! tokenId') as Hretry.
  { intros w0 rc message now Hw. unfold Retry.retryOrFail.
    destruct (rc <? RETRY_ATTEMPTS cfg)%nat; intros [= <- <- <-]; simpl.
    - rewrite Hw. reflexivity.
    - rewrite lookup_insert_ne by congruence. rewrite Hw. reflexivity. }
  revert Hstep.
  destruct t as [rc|rc nonce|rc message|b];
    destruct i as [now|now [receipt|message']|now answer]; simpl; try discriminate.
  - unfold Retry.enter. destruct (Retry.isCompleted w tokenId).
    + intros [= <- <- <-]. reflexivity.
    + destruct (Single.getNextNonce _). intros [= <- <- <-]. reflexivity.
  - intros [= <- <- <-]. simpl. apply lookup_insert_ne. congruence.
  - unfold Retry.catchBlock. destruct (decide _).
    + intros [= <- <- <-]. simpl. apply lookup_insert_ne. congruence.
    + destruct (decide _); [intros [= <- <- <-]; reflexivity|].
      intros [= H]. revert H. apply Hretry. reflexivity.
  - intros [= H]. revert H. apply Hretry. reflexivity.
Qed.

(** A call that is not in flight does nothing on a completed token. *)
Lemma retry_step_completed (cfg : Config) (w : Retry.World) (tokenId : string)
    (t : Retry.Task) (i : Retry.Input) (w' : Retry.World) (t' : Retry.Task)
    (ops : list Retry.ChainOp) :
  Retry.isCompleted w tokenId = true -> Retry.inFlight t = false ->
  Retry.step cfg w tokenId t i = Some (w', t', ops) ->
  w' = w /\ t' = Retry.Returned true /\ ops = [].
Proof.
  intros Hc Ht. destruct t as [rc|rc nonce|rc message|b]; try discriminate;
    destruct i as [now|now [receipt|message']|now answer]; simpl; try discriminate.
  unfold Retry.enter. rewrite Hc. intros [= <- <- <-]. auto.
Qed.

(** While a call run with no other call for its token is in flight, the
    token is not completed. *)
Lemma retry_step_guarded (cfg : Config) (w : Retry.World) (tokenId : string)
    (t : Retry.Task) (i : Retry.Input) (w' : Retry.World) (t' : Retry.Task)
    (ops : list Retry.ChainOp) :
  (Retry.inFlight t = true -> Retry.isCompleted w tokenId = false) ->
  Retry.step cfg w tokenId t i = Some (w', t', ops) ->
  Retry.inFlight t' = true -> Retry.isCompleted w' tokenId = false.
Proof.
  intros Hg Hstep.
  assert (forall w0 rc message now,
            Retry.retryOrFail cfg w0 tokenId rc message now = (w', t', ops) ->
            Retry.inFlight t' = true -> Retry.isCompleted w' tokenId = false) as Hretry.
  { intros w0 rc message now. unfold Retry.retryOrFail.
    destruct (rc <? RETRY_ATTEMPTS cfg)%nat; intros [= <- <- <-]; discriminate. }
  revert Hstep.
  destruct t as [rc|rc nonce|rc message|b];
    destruct i as [now|now [receipt|message']|now answer]; simpl; try discriminate.
  - unfold Retry.enter. destruct (Retry.isCompleted w tokenId) eqn:Hc.
    + intros [= <- <- <-]. discriminate.
    + destruct (Single.getNextNonce _). intros [= <- <- <-] _. exact Hc.
  - intros [= <- <- <-]. discriminate.
  - unfold Retry.catchBlock. destruct (decide _).
    + intros [= <- <- <-]. discriminate.
    + destruct (decide _); [intros [= <- <- <-] _; apply Hg; reflexivity|].
      intros [= H]. revert H. apply Hretry.
  - intros [= H]. revert H. apply Hretry.
Qed.

Lemma retry_run_guarded (cfg : Config) (inputs : list Retry.Input) (w : Retry.World)
    (tokenId : string) (t : Retry.Task) (w' : Retry.World) (t' : Retry.Task)
    (ops : list Retry.ChainOp) :
  (Retry.inFlight t = true -> Retry.isCompleted w tokenId = false) ->
  Retry.run cfg w tokenId t inputs = (w', t', ops) ->
  Retry.inFlight t' = true -> Retry.isCompleted w' tokenId = false.
Proof.
  revert w t ops. induction inputs as [|i rest IH]; intros w t ops Hg; simpl.
  - intros [= <- <- <-]. exact Hg.
  - destruct (Retry.step cfg w tokenId t i) as [[[w1 t1] ops1]|] eqn:Hs; [|apply IH, Hg].
    pose proof (retry_step_guarded cfg w tokenId t i w1 t1 ops1 Hg Hs) as Hg1.
    specialize (IH w1 t1). destruct (Retry.run cfg w1 tokenId t1 rest) as [[w2 t2] ops2].
    intros [= <- <- <-]. exact (IH ops2 Hg1 eq_refl).
Qed.

Lemma retry_run_completed (cfg : Config) (inputs : list Retry.Input) (w : Retry.World)
    (tokenId : string) (t : Retry.Task) :
  Retry.isCompleted w tokenId = true -> Retry.inFlight t = false ->
  exists t', Retry.run cfg w tokenId t inputs = (w, t', []).
Proof.
  intros Hc. revert t. induction inputs as [|i rest IH]; intros t Ht; simpl; [eauto|].
  destruct (Retry.step cfg w tokenId t i) as [[[w1 t1] ops1]|] eqn:Hs; [|apply IH, Ht].
  destruct (retry_step_completed cfg w tokenId t i w1 t1 ops1 Hc Ht Hs) as (-> & -> & ->).
  destruct (IH (Retry.Returned true) eq_refl) as [t2 ->]. eauto.
Qed.

End RetryCallFacts.

Section TerminalTheorems.
Import Js Model SignerPool Engine Snapshot Scheduler.

(** C6, as the code has it.  In the multi-signer script, in every run and
    under every interleaving of the calls of a batch, no step changes the
    record of a token once its status is [completed].  In the retry script
    a call entered on a completed token returns at once and changes
    nothing; a call writes no record but that of its own token; and a call
    that runs with no other call for its token under way leaves the record
    alone once the token is completed, and submits nothing more.  (The
    status is read on entry only: the record of a token completed while
    another call for it is in flight is written over by that call.) *)
Theorem completed_is_terminal (cfg : Config) :
  (forall (d : Disk) (ops : list ChainOp) (s : Sys) (ops' : list ChainOp) (s' : Sys)
          (tokenId : Z),
     runs cfg d ops s -> sys_steps cfg s ops' s' ->
     completed (world s) tokenId ->
     completed (world s') tokenId
     /\ token (world s') tokenId = token (world s) tokenId)
  /\ (forall (w : Retry.World) (tokenId : string) (rc : nat) (now : Z),
        Retry.isCompleted w tokenId = true ->
        Retry.step cfg w tokenId (Retry.Entry rc) (Retry.Resume now)
        = Some (w, Retry.Returned true, []))
  /\ (forall (w : Retry.World) (tokenId : string) (t : Retry.Task) (i : Retry.Input)
             (w' : Retry.World) (t' : Retry.Task) (ops : list Retry.ChainOp)
             (tokenId' : string),
        Retry.step cfg w tokenId t i = Some (w', t', ops) -> tokenId' <> tokenId ->
        Retry.tokens w' !! tokenId' = Retry.tokens w !! tokenId')
  /\ (forall (w : Retry.World) (tokenId : string) (rc : nat)
             (inputs inputs' : list Retry.Input)
             (w1 : Retry.World) (t1 : Retry.Task) (ops1 : list Retry.ChainOp),
        Retry.run cfg w tokenId (Retry.Entry rc) inputs = (w1, t1, ops1) ->
        Retry.isCompleted w1 tokenId = true ->
        exists t2, Retry.run cfg w1 tokenId t1 inputs' = (w1, t2, [])).
Proof.
  split; [|split; [|split]].
  - intros d ops s ops' s' tokenId Hr Hs Hc.
    destruct (sys_steps_keep cfg s ops' s' (runs_invariant cfg d ops s Hr) Hs) as [_ Hk].
    split; [|apply Hk, Hc]. eapply completed_status; [apply Hk, Hc|exact Hc].
  - intros w tokenId rc now H. simpl. unfold Retry.enter. rewrite H. reflexivity.
  - apply retry_step_frame.
  - intros w tokenId rc inputs inputs' w1 t1 ops1 Hrun Hc.
    apply retry_run_completed; [exact Hc|].
    destruct (Retry.inFlight t1) eqn:Ht; [|reflexivity].
    rewrite (retry_run_guarded cfg inputs w tokenId (Retry.Entry rc) w1 t1 ops1) in Hc;
      [discriminate|discriminate|exact Hrun|exact Ht].
Qed.

(** Token 1 is minted by the first call; then the second call starts,
    gets its nonce and fails with an error that is retried. *)
Lemma completed_is_terminal_witness :
  completed
    (world (Examples.after
              (Examples.mintFirst
               ++ [(1%nat, Resume 1004); (1%nat, NonceAnswer 1005 Examples.chainAt5);
                   (1%nat, TxAnswer 1006 (inr "nonce too low"))]))) 1
  /\ token
       (world (Examples.after
                 (Examples.mintFirst
                  ++ [(1%nat, Resume 1004); (1%nat, NonceAnswer 1005 Examples.chainAt5);
                      (1%nat, TxAnswer 1006 (inr "nonce too low"))]))) 1
     = token (world (Examples.after Examples.mintFirst)) 1.
Proof.
  apply (proj1 (completed_is_terminal Examples.smallConfig) ∅
           ([GetNetwork; GetBalance 0] ++ Examples.issued Examples.mintFirst)
           (Examples.after Examples.mintFirst)
           [GetTransactionCount 0; EstimateGas 0; SendTransaction 2 0 5]).
  - exists 1000, NetworkUp, [GetNetwork; GetBalance 0], (Examples.issued Examples.mintFirst).
    split; [|split; reflexivity].
    apply (drive_sound Examples.smallConfig Examples.mintFirst).
    vm_compute. reflexivity.
  - apply (drive_sound Examples.smallConfig
             [(1%nat, Resume 1004); (1%nat, NonceAnswer 1005 Examples.chainAt5);
              (1%nat, TxAnswer 1006 (inr "nonce too low"))]).
    vm_compute. reflexivity.
  - vm_compute. reflexivity.
Defined.

(** C6 as stated fails in the retry script.  The file of failed tokens
    lists the token 7 twice, so that the batch holds two calls for it.
    Both pass the guard before either has a result.  The second call fails
    five times and submits for the last time; then the transaction of the
    first call is confirmed and the record of token 7 is completed; then
    the last attempt of the second call fails, and the record of token 7
    is failed. *)
Lemma completed_overwritten_counterexample :
  snd (fst Examples.retryFirstSent) = Retry.AwaitTx 0 5
  /\ snd (fst Examples.retrySecondSent) = Retry.AwaitTx 5 11
  /\ snd (fst Examples.retryFirstConfirmed) = Retry.Returned true
  /\ Retry.isCompleted (fst (fst Examples.retryFirstConfirmed)) "7" = true
  /\ snd (fst Examples.retrySecondFailed) = Retry.Returned false
  /\ (r ← Retry.tokens (fst (fst Examples.retrySecondFailed)) !! "7"; r !! "status")
     = Some (JsStr "failed")
  /\ Retry.isCompleted (fst (fst Examples.retrySecondFailed)) "7" = false.
Proof. repeat split; vm_compute; reflexivity. Qed.

End TerminalTheorems.

Section OtherErrorKnownFacts.
Import Js JsString Classify Model SignerPool Engine Scheduler.

Lemma failure_frame (cfg : Config) (now : Z) (i : nat) (w w' : World) (j : nat) :
  handleSignerFailure cfg now i w = Some w' -> j <> i ->
  signerStates w' !! j = signerStates w !! j.
Proof.
  unfold handleSignerFailure. destruct (signerStates w !! i); [|discriminate]. simpl.
  destruct (signerStats (mintLog w) !! i); [|discriminate]. simpl.
  intros [= <-] Hne. simpl. apply list_lookup_insert_ne. congruence.
Qed.

(** With the record of the token there and the entries of the signer it
    names, the [catch] block does not throw on an error that is not
    [ALREADY_KNOWN]: it goes on to the retry or marks the token failed. *)
Lemma catchBlock_other_known (cfg : Config) (w : World) (tokenId : Z) (rc : nat)
    (message : string) (now : Z) :
  classifyError message <> ALREADY_KNOWN ->
  is_Some (token w tokenId) -> storedSignerKnown w tokenId ->
  exists w',
    catchBlock cfg w tokenId rc message now
    = (w', if (rc <? RETRY_ATTEMPTS cfg)%nat then Entry (S rc) else Returned false, [])
    /\ providers w' = providers w /\ signers w' = signers w
    /\ (forall v i j, property w tokenId "lastSignerIndex" = Some v -> asIndex v = Some i ->
          j <> i -> signerStates w' !! j = signerStates w !! j).
Proof.
  intros Hc [r Hr] Hk. unfold catchBlock.
  destruct (decide (classifyError message = ALREADY_KNOWN)); [contradiction|].
  fold (property w tokenId "lastSignerIndex").
  destruct (property w tokenId "lastSignerIndex") as [v|] eqn:Hv.
  - destruct (Hk v Hv) as (i & Hi & [s Hs] & [st Hst]). rewrite Hi. simpl.
    destruct (handleSignerFailure cfg now i w) as [w1|] eqn:H1.
    2:{ unfold handleSignerFailure in H1. rewrite Hs, Hst in H1. discriminate. }
    pose proof (failure_tokens cfg now i w w1 H1) as [Ht _].
    pose proof (failure_static cfg now i w w1 H1) as [Hp Hsg].
    assert (token w1 tokenId = Some r) as Hr1 by (unfold token in *; rewrite Ht; exact Hr).
    rewrite Hr1.
    destruct (rc <? RETRY_ATTEMPTS cfg)%nat; eexists; (split; [reflexivity|]);
      (split; [exact Hp|]); (split; [exact Hsg|]);
      intros v0 i0 j [= <-] Hi0 Hne; assert (i0 = i) as -> by congruence;
      exact (failure_frame cfg now i w w1 j H1 Hne).
  - rewrite Hr.
    destruct (rc <? RETRY_ATTEMPTS cfg)%nat; eexists; (split; [reflexivity|]);
      (split; [reflexivity|]); (split; [reflexivity|]); discriminate.
Qed.

(** A call that is entered with a signer at hand and gets its nonce
    submits. *)
Lemma entry_submits (cfg : Config) (w : World) (tokenId : Z) (rc : nat) (now now' : Z)
    (chain : Chain) (sd : SignerData) (nonce : Z) :
  fst (getNextAvailableSigner now w) = Some sd ->
  getFreshNonce chain w (index sd) = inl nonce ->
  snd (run cfg w tokenId (Entry rc) [Resume now; NonceAnswer now' chain])
  = [GetTransactionCount (index sd); EstimateGas (index sd);
     SendTransaction tokenId (index sd) nonce].
Proof.
  intros Hsd Hn. simpl. unfold enter.
  pose proof (acquire_static now w) as [Hp Hsg].
  destruct (getNextAvailableSigner now w) as [o w1]. simpl in *. subst o.
  simpl.
  assert (getFreshNonce chain
            (set_token w1 tokenId
               (<["attempts" := increment
                                  (match token w1 tokenId with
                                   | Some r => r
                                   | None => newRecord tokenId now
                                   end !! "attempts")]>
                  match token w1 tokenId with
                  | Some r => r
                  | None => newRecord tokenId now
                  end)) (index sd) = inl nonce) as ->.
  { rewrite <- Hn. unfold getFreshNonce. simpl. rewrite Hp, Hsg. reflexivity. }
  reflexivity.
Qed.

End OtherErrorKnownFacts.

Section FundsTheorems.
Import Js JsString Classify Model SignerPool Engine Snapshot Scheduler Invariants.

(** In a run that starts without a log, or from a log whose records name
    no other signer than the first, a call that awaits its receipt has its
    record, and the signer that the record names has its entries. *)
Lemma awaiting_call_known (cfg : Config) (d : Disk) (ops : list ChainOp) (s : Sys)
    (running : list (Z * Task)) (queue : list Z) (tokenId : Z) (rc : nat)
    (sd : SignerData) (nonce : Z) :
  diskOk cfg d -> runs cfg d ops s -> phase s = Batching running queue ->
  (tokenId, AwaitReceipt rc sd nonce) ∈ running ->
  is_Some (token (world s) tokenId) /\ storedSignerKnown (world s) tokenId.
Proof.
  intros Hd Hr Hph Hin. destruct (runs_hold cfg d ops s Hd Hr) as [HP HQ].
  rewrite Hph in HQ. destruct HQ as [HQ _].
  destruct (HQ _ _ Hin) as [Hlt [r Hrec]]. split; [eauto|].
  intros v Hv. unfold property in Hv. rewrite Hrec in Hv. simpl in Hv.
  destruct (poolOk_token _ _ _ HP Hrec) as [H|H]; rewrite H in Hv; [discriminate|].
  injection Hv as <-. exists 0%nat. split; [reflexivity|].
  destruct HP as (Hlen & Hst & _). split.
  - apply lookup_lt_is_Some. lia.
  - apply Hst. lia.
Qed.

(** C8, as the code has it.  A submission error classified
    [INSUFFICIENT_FUNDS] is handled like every other error that is not
    [ALREADY_KNOWN].  With the record of the token there and the entries
    of the signer it names, the [catch] block does not throw: while
    [retryCount < RETRY_ATTEMPTS] the call goes on to the next attempt,
    which submits again once it has a signer and a nonce, and afterwards
    it returns [false] with the token marked failed.  The signer states
    change only through [handleSignerFailure] on the recorded
    [lastSignerIndex]: that signer has one failure more and is in backoff
    only when the threshold is reached; every other signer, and every
    signer when the record has no [lastSignerIndex] yet, is left as it is.
    The record and the entries are there for every call that awaits its
    receipt in a run of [main] that starts without a log, or from a log
    whose records name no other signer than the first. *)
Theorem insufficient_funds_is_retried (cfg : Config) :
  (forall (w : World) (tokenId : Z) (rc : nat) (sd : SignerData) (nonce : Z)
          (message : string) (now : Z),
     classifyError message = INSUFFICIENT_FUNDS ->
     is_Some (token w tokenId) -> storedSignerKnown w tokenId ->
     exists w',
       step cfg w tokenId (AwaitReceipt rc sd nonce) (TxAnswer now (inr message))
       = Some (w', if (rc <? RETRY_ATTEMPTS cfg)%nat then Entry (S rc) else Returned false,
               [])
       /\ ((rc < RETRY_ATTEMPTS cfg)%nat ->
           status w' tokenId = status w tokenId
           /\ forall now1 now2 chain sd1 nonce1,
                fst (getNextAvailableSigner now1 w') = Some sd1 ->
                getFreshNonce chain w' (index sd1) = inl nonce1 ->
                snd (run cfg w' tokenId (Entry (S rc)) [Resume now1; NonceAnswer now2 chain])
                = [GetTransactionCount (index sd1); EstimateGas (index sd1);
                   SendTransaction tokenId (index sd1) nonce1])
       /\ ((RETRY_ATTEMPTS cfg <= rc)%nat ->
           status w' tokenId = Some (JsStr "failed")
           /\ property w' tokenId "errorType" = Some (JsStr "INSUFFICIENT_FUNDS"))
       /\ (property w tokenId "lastSignerIndex" = None -> signerStates w' = signerStates w)
       /\ (forall v i s,
             property w tokenId "lastSignerIndex" = Some v -> asIndex v = Some i ->
             signerStates w !! i = Some s ->
             (exists s', signerStates w' !! i = Some s'
                         /\ consecutiveFailures s' = consecutiveFailures s + 1
                         /\ isBackedOff s'
                            = (if SIGNER_BACKOFF_THRESHOLD cfg <=? consecutiveFailures s + 1
                               then true else isBackedOff s))
             /\ forall j, j <> i -> signerStates w' !! j = signerStates w !! j))
  /\ (forall (d : Disk) (ops : list ChainOp) (s : Sys) (running : list (Z * Task))
             (queue : list Z) (tokenId : Z) (rc : nat) (sd : SignerData) (nonce : Z),
        diskOk cfg d -> runs cfg d ops s -> phase s = Batching running queue ->
        (tokenId, AwaitReceipt rc sd nonce) ∈ running ->
        is_Some (token (world s) tokenId) /\ storedSignerKnown (world s) tokenId).
Proof.
  split; [|apply awaiting_call_known].
  intros w tokenId rc sd nonce message now Hc Hr Hk.
  assert (classifyError message <> ALREADY_KNOWN) as Hne by (rewrite Hc; discriminate).
  destruct (catchBlock_other_known cfg w tokenId rc message now Hne Hr Hk)
    as (w' & Hcb & _ & _ & Hframe).
  destruct (catchBlock_other cfg w tokenId rc message now w' _ [] Hne Hcb)
    as (_ & H1 & H2 & H3).
  exists w'. split; [simpl; rewrite Hcb; reflexivity|].
  split; [|split; [|split; [exact H2|]]].
  - intros Hlt. assert ((rc <? RETRY_ATTEMPTS cfg)%nat = true) as Hb by (apply Nat.ltb_lt, Hlt).
    rewrite Hb in H1. split.
    + destruct H1 as [H1|[(_ & _ & H1)|(Hge & _)]]; [discriminate|exact H1|lia].
    + intros now1 now2 chain sd1 nonce1. apply entry_submits.
  - intros Hge.
    assert ((rc <? RETRY_ATTEMPTS cfg)%nat = false) as Hb by (apply Nat.ltb_ge, Hge).
    rewrite Hb in H1. rewrite Hc in H1.
    destruct H1 as [H1|[(Hlt & _)|(_ & _ & H1 & H1')]]; [discriminate|lia|auto].
  - intros v i s Hv Hi Hs. split.
    + apply (H3 v i s Hv Hi Hs). destruct (rc <? RETRY_ATTEMPTS cfg)%nat; discriminate.
    + intros j Hj. exact (Hframe v i j Hv Hi Hj).
Qed.

(** The first submission for token 1 of the small instance fails for
    lack of funds: the call goes on to its second attempt and no signer
    state has changed. *)
Lemma insufficient_funds_is_retried_witness :
  exists w',
    step Examples.smallConfig
      (fst (fst (run Examples.smallConfig (world Examples.started) 1 Queued
                   [Resume 1001; NonceAnswer 1002 Examples.chainAt5])))
      1 (AwaitReceipt 0 {| signer := Some "0xA"; index := 0; provider := Some "rpc" |} 5)
      (TxAnswer 1003 (inr Examples.noFunds))
    = Some (w', Entry 1, [])
    /\ signerStates w'
       = signerStates
           (fst (fst (run Examples.smallConfig (world Examples.started) 1 Queued
                        [Resume 1001; NonceAnswer 1002 Examples.chainAt5]))).
Proof.
  destruct (proj1 (insufficient_funds_is_retried Examples.smallConfig)
              (fst (fst (run Examples.smallConfig (world Examples.started) 1 Queued
                           [Resume 1001; NonceAnswer 1002 Examples.chainAt5])))
              1 0%nat {| signer := Some "0xA"; index := 0; provider := Some "rpc" |} 5
              Examples.noFunds 1003 eq_refl)
    as (w' & H & _ & _ & Hs & _).
  - eexists. vm_compute. reflexivity.
  - intros v Hv. vm_compute in Hv. discriminate.
  - exists w'. split; [exact H|]. apply Hs. vm_compute. reflexivity.
Defined.

End FundsTheorems.

Section AlreadyKnownSingle.
Import Js JsString Classify Model SignerPool Engine Scheduler.

(** C7 fails on a first run of [mint_batch_200k_300k.js].  With no log
    file, [loadExistingProgress] has created the record of every token of
    the range with [tokenId] and [status] only.  The first attempt on such
    a record increments an [attempts] that is not there, which stores
    [NaN]; when the submission ends in an error classified
    [ALREADY_KNOWN], the call returns [true] after this one submission, is
    counted as successful and takes no further step, and the record is
    completed with [txHash] [already_known]; but its [attempts] is [NaN],
    not 1. *)
Theorem already_known_first_attempt (cfg : Config) (summary : Summary)
    (nonces : Single.NonceState) (tokenId : Z) (now now' : Z) (message : string) :
  START_TOKEN_ID cfg <= tokenId <= END_TOKEN_ID cfg ->
  classifyError200k message = ALREADY_KNOWN ->
  exists w' ops,
    Single.run cfg
      {| Single.tokens := Single.initialTokens cfg; Single.summary := summary;
         Single.nonces := nonces |}
      tokenId (Single.Entry 0)
      [Single.Resume now; Single.TxAnswer now' (inr message)]
    = (w', Single.Returned true, ops)
    /\ (r ← Single.tokens w' !! tokenId; r !! "status") = Some (JsStr "completed")
    /\ (r ← Single.tokens w' !! tokenId; r !! "txHash") = Some (JsStr "already_known")
    /\ (r ← Single.tokens w' !! tokenId; r !! "attempts") = Some JsNaN
    /\ successful (Single.summary w') = successful summary + 1
    /\ submissionsIn ops = 1%nat
    /\ forall input, Single.step cfg w' tokenId (Single.Returned true) input = None.
Proof.
  intros Hr Hc. simpl. unfold Single.enter. cbn [Single.tokens].
  rewrite (initialTokens_lookup cfg tokenId Hr).
  destruct (Single.getNextNonce nonces) as [nonce n]. simpl.
  unfold Single.catchBlock. destruct (decide _) as [_|H]; [|contradiction].
  do 2 eexists. split; [reflexivity|]. simpl. rewrite !lookup_insert_eq. simpl.
  unfold alreadyKnownRecord. cbv zeta.
  split; [|split; [|split; [|split; [|split]]]].
  - rewrite !lookup_insert_ne by done. apply lookup_insert_eq.
  - rewrite !lookup_insert_ne by done. apply lookup_insert_eq.
  - rewrite !lookup_insert_ne by done. rewrite lookup_insert_eq. reflexivity.
  - reflexivity.
  - reflexivity.
  - intros input. reflexivity.
Qed.

(** Token 1 of the range 1..2, on a first run. *)
Lemma already_known_first_attempt_witness :
  exists w' ops,
    Single.run Examples.smallConfig Examples.singleStarted 1 (Single.Entry 0)
      Examples.singleAlreadyKnown
    = (w', Single.Returned true, ops)
    /\ (r ← Single.tokens w' !! 1; r !! "status") = Some (JsStr "completed")
    /\ (r ← Single.tokens w' !! 1; r !! "txHash") = Some (JsStr "already_known")
    /\ (r ← Single.tokens w' !! 1; r !! "attempts") = Some JsNaN
    /\ successful (Single.summary w') = 1
    /\ submissionsIn ops = 1%nat
    /\ forall input, Single.step Examples.smallConfig w' 1 (Single.Returned true) input = None.
Proof.
  apply (already_known_first_attempt Examples.smallConfig
           {| total := 2; successful := 0; failed := 0; pending := 2 |}
           {| Single.baseNonce := Some 5; Single.nonceOffset := 0 |} 1 1000 1001
           "already known").
  - simpl. lia.
  - reflexivity.
Defined.

End AlreadyKnownSingle.
